(** * CSV repair scripts: record reassembly and field-boundary inference

    A shallow embedding of the Python scripts that repair the
    newline-corrupted CSV exports of [llm_analysis_results] and
    [competitor_analysis_results]:

    - [fix_csv_simple.py], [fix_csv_final.py], [create_clean_csv.py]
      (LLM analysis results, 13 columns),
    - [fix_competitor_csv.py], [fix_competitor_csv_final.py]
      (competitor analysis results, 14 columns, foreign-key check),
    - [fix_llm_csv.py] (validator and text sanitizer).

    Python [str] values are lists of characters; characters are code
    points below 256.  Python lists of strings are lists; the set of
    valid parent identifiers is a [gset].  File input and output, progress
    messages and reports are left out: a script is modelled from the list
    of lines returned by [readlines()] to the list of records handed to
    the CSV writer together with its counters. *)

From Stdlib Require Import ZArith Ascii String.
From stdpp Require Import gmap strings list sorting.

Local Open Scope char_scope.
Local Open Scope nat_scope.

(** ** Python string primitives *)

Module Py.

Definition str := list ascii.

(** String literals. *)
Definition lit (s : string) : str := list_ascii_of_string s.

(** The double quote character, code point 34. *)
Definition dq : ascii := "034".

(** [quoted s] is [s] between two double quotes. *)
Definition quoted (s : string) : str := dq :: lit s ++ [dq].

(** [c in chars] for a string [chars] used as a set of characters. *)
Definition char_in (chars : str) (c : ascii) : bool :=
  bool_decide (c ∈ chars).

(** [str.isspace] on one code point below 256. *)
Definition isspace (c : ascii) : bool :=
  match c with
  | "009" | "010" | "011" | "012" | "013"
  | "028" | "029" | "030" | "031" | " " | "133" | "160" => true
  | _ => false
  end.

Fixpoint lstrip_by (p : ascii → bool) (s : str) : str :=
  match s with
  | c :: s' => if p c then lstrip_by p s' else s
  | [] => []
  end.

Definition rstrip_by (p : ascii → bool) (s : str) : str :=
  reverse (lstrip_by p (reverse s)).

Definition strip_by (p : ascii → bool) (s : str) : str :=
  rstrip_by p (lstrip_by p s).

(** [s.strip()] *)
Definition strip (s : str) : str := strip_by isspace s.

(** [s.strip(chars)] and [s.rstrip(chars)] *)
Definition strip_chars (chars s : str) : str := strip_by (char_in chars) s.
Definition rstrip_chars (chars s : str) : str := rstrip_by (char_in chars) s.

(** [sep.join(parts)] *)
Fixpoint join (sep : str) (parts : list str) : str :=
  match parts with
  | [] => []
  | [p] => p
  | p :: ps => p ++ sep ++ join sep ps
  end.

(** [s.split(d)] for a one-character separator: never empty. *)
Fixpoint split (d : ascii) (s : str) : list str :=
  match s with
  | [] => [[]]
  | c :: s' =>
      if decide (c = d) then [] :: split d s'
      else match split d s' with
           | p :: ps => (c :: p) :: ps
           | [] => [[c]]
           end
  end.

Fixpoint startswith (sub s : str) : bool :=
  match sub, s with
  | [], _ => true
  | a :: sub', b :: s' => bool_decide (a = b) && startswith sub' s'
  | _ :: _, [] => false
  end.

(** [s.find(sub)]: the lowest index where [sub] occurs, counted from
    [i]; [None] stands for -1. *)
Fixpoint find_from (i : nat) (sub s : str) : option nat :=
  if startswith sub s then Some i
  else match s with
       | [] => None
       | _ :: s' => find_from (S i) sub s'
       end.
Definition find (sub s : str) : option nat := find_from 0 sub s.

(** [s.rfind(sub)]: the highest index where [sub] occurs. *)
Fixpoint rfind_from (i : nat) (sub s : str) : option nat :=
  match s with
  | [] => if startswith sub [] then Some i else None
  | _ :: s' =>
      match rfind_from (S i) sub s' with
      | Some j => Some j
      | None => if startswith sub s then Some i else None
      end
  end.
Definition rfind (sub s : str) : option nat := rfind_from 0 sub s.

(** [sub in s] *)
Definition contains (sub s : str) : bool :=
  match find sub s with Some _ => true | None => false end.

(** [s.rsplit(sep, 1)]: split once, at the last occurrence of [sep]. *)
Definition rsplit1 (sep s : str) : list str :=
  match rfind sep s with
  | Some i => [take i s; drop (i + length sep) s]
  | None => [s]
  end.

(** [l[a:b]] for indices [0 <= a] and [0 <= b]. *)
Definition slice {A} (a b : nat) (l : list A) : list A :=
  take (b - a) (drop a l).

(** [s.replace(c, new)] for a one-character [c]. *)
Fixpoint replace (c : ascii) (new s : str) : str :=
  match s with
  | [] => []
  | x :: s' => (if decide (x = c) then new else [x]) ++ replace c new s'
  end.

(** The last two items [(l[-2], l[-1])] of a list of at least two. *)
Definition last_two {A} (l : list A) : option (A * A) :=
  match reverse l with
  | z :: y :: _ => Some (y, z)
  | _ => None
  end.

(** [len(l)] as a Python integer. *)
Definition len {A} (l : list A) : Z := Z.of_nat (length l).

End Py.
Import Py.

(** ** Regular expressions

    Every pattern of the scripts is a sequence of character classes, each
    with a repetition count: [\d{4}], [[0-9a-f]{8}], [-], [\d+], [[^,]+].
    [match_items] is the backtracking matcher of Python's [re] on such
    sequences: each item first takes as many characters as it can and gives
    them back one at a time while the rest of the pattern fails. *)

Module Re.

Record item := Item {
  cls : ascii → bool;      (* the character class *)
  lo : nat;                (* least number of repetitions *)
  hi : option nat          (* greatest number, [None] when unbounded *)
}.

Definition pattern := list item.

Definition is_digit (c : ascii) : bool := Ascii.leb "0" c && Ascii.leb c "9".
Definition is_lower_hex (c : ascii) : bool :=
  is_digit c || (Ascii.leb "a" c && Ascii.leb c "f").

Definition chr (c : ascii) : item := Item (Ascii.eqb c) 1 (Some 1).
Definition digits (n : nat) : item := Item is_digit n (Some n).
Definition hex (n : nat) : item := Item is_lower_hex n (Some n).
Definition digits1 : item := Item is_digit 1 None.
Definition not_comma1 : item := Item (λ c, negb (Ascii.eqb c ",")) 1 None.

(** Number of leading characters of [s] in the class, at most [limit]. *)
Fixpoint run (p : ascii → bool) (limit : option nat) (s : str) : nat :=
  match limit, s with
  | Some 0, _ => 0
  | _, [] => 0
  | _, c :: s' => if p c then S (run p (pred <$> limit) s') else 0
  end.

(** Try [k], [k-1], ..., [lo] repetitions, in this order. *)
Fixpoint try_down (k lo : nat) (rest : nat → option nat) : option nat :=
  if k <? lo then None
  else match rest k with
       | Some r => Some (k + r)
       | None => match k with
                 | 0 => None
                 | S k' => try_down k' lo rest
                 end
       end.

(** Length of the match of [p] at the start of [s], if any. *)
Fixpoint match_items (p : pattern) (s : str) : option nat :=
  match p with
  | [] => Some 0
  | it :: p' =>
      try_down (run (cls it) (hi it) s) (lo it)
               (λ k, match_items p' (drop k s))
  end.

(** [re.match(p, s)] succeeds. *)
Definition matches (p : pattern) (s : str) : bool :=
  match match_items p s with Some _ => true | None => false end.

(** [re.search(p, s)] succeeds. *)
Fixpoint search (p : pattern) (s : str) : bool :=
  matches p s ||
  match s with
  | [] => false
  | _ :: s' => search p s'
  end.

(** A match object: [start()] and [end()]. *)
Record mobj := Match { m_start : nat; m_end : nat }.

(** [m.group()] for a match found in [s]. *)
Definition group (s : str) (m : mobj) : str :=
  slice (m_start m) (m_end m) s.

(** [finditer]: the matches from left to right, not overlapping.  [skip]
    counts the characters still covered by the previous match. *)
Fixpoint finditer_from (p : pattern) (pos skip : nat) (s : str) : list mobj :=
  match skip with
  | S k =>
      match s with
      | [] => []
      | _ :: s' => finditer_from p (S pos) k s'
      end
  | 0 =>
      match match_items p s with
      | Some n =>
          Match pos (pos + n) ::
          match s with
          | [] => []
          | _ :: s' => finditer_from p (S pos) (pred n) s'
          end
      | None =>
          match s with
          | [] => []
          | _ :: s' => finditer_from p (S pos) 0 s'
          end
      end
  end.

Definition finditer (p : pattern) (s : str) : list mobj :=
  finditer_from p 0 0 s.

End Re.
Import Re.

(** ** Patterns of the scripts *)

(** [^[0-9a-f]{8}-[0-9a-f]{4}-[0-9a-f]{4}-[0-9a-f]{4}-[0-9a-f]{12}] *)
Definition uuid_items : pattern :=
  [hex 8; chr "-"; hex 4; chr "-"; hex 4; chr "-"; hex 4; chr "-"; hex 12].

(** The record-start anchor, the same in every script:
    [^[0-9a-f]{8}-[0-9a-f]{4}-[0-9a-f]{4}-[0-9a-f]{4}-[0-9a-f]{12},] *)
Definition uuid_pattern : pattern := uuid_items ++ [chr ","].

(** [\d{4}-\d{2}-\d{2} \d{2}:\d{2}:\d{2}] (fix_csv_final.py) *)
Definition datetime_items : pattern :=
  [digits 4; chr "-"; digits 2; chr "-"; digits 2; chr " ";
   digits 2; chr ":"; digits 2; chr ":"; digits 2].

(** [\d{4}-\d{2}-\d{2} \d{2}:\d{2}:\d{2}\.\d+\+\d{2}]
    (fix_competitor_csv.py, fix_competitor_csv_final.py,
    create_clean_csv.py) *)
Definition timestamp_pattern : pattern :=
  datetime_items ++ [chr "."; digits1; chr "+"; digits 2].

(** A record handed to the CSV writer: a Python list of strings. *)
Definition record := list str.

(** The joint between the two text fields: quote, comma, quote. *)
Definition joint : str := [dq; ","; dq].

(** [line.rstrip('\n\r')] *)
Definition rstrip_newline (line : str) : str :=
  rstrip_chars ["010"; "013"] line.

(** [uuid_pattern.match(line)] *)
Definition is_record_start (line : str) : bool := matches uuid_pattern line.

(** ** fix_csv_final.py *)

Module FixCsvFinal.

(** Lines 128-135 of [process_record_lines]: the split of the text span
    into [(response_only, summary_text)]. *)
Definition split_text (response_text : str) : str * str :=
  match rsplit1 joint response_text with
  | [part0; part1] => (strip_chars [dq] part0, strip part1)
  | _ => (strip_chars [dq] response_text, [])
  end.

(** Lines 103-106: indices of the parts that contain a date and time. *)
Fixpoint timestamp_positions_from (i : nat) (parts : list str) : list nat :=
  match parts with
  | [] => []
  | part :: parts' =>
      (if search datetime_items part then [i] else [])
      ++ timestamp_positions_from (S i) parts'
  end.
Definition timestamp_positions (parts : list str) : list nat :=
  timestamp_positions_from 0 parts.

Definition process_record_lines (lines : list str) : option record :=
  let full_text := strip (join [" "] lines) in
  let parts := split "," full_text in
  if length parts <? 13 then None
  else
    let fields := take 8 parts in
    let remaining_parts := drop 8 parts in
    match last_two (timestamp_positions remaining_parts) with
    | Some (second_last_pos, last_timestamp_pos) =>
        let response_text_parts := take second_last_pos remaining_parts in
        let analyzed_at_parts :=
          slice second_last_pos last_timestamp_pos remaining_parts in
        let created_at_parts :=
          slice last_timestamp_pos (last_timestamp_pos + 1) remaining_parts in
        let session_id_parts := drop (last_timestamp_pos + 1) remaining_parts in
        let response_text := strip (join [","] response_text_parts) in
        let '(response_only, summary_text) := split_text response_text in
        let analyzed_at := strip (join [","] analyzed_at_parts) in
        let created_at := strip (join [","] created_at_parts) in
        let analysis_session_id := strip (join [","] session_id_parts) in
        Some (take 13 (fields ++ [response_only; summary_text; analyzed_at;
                                  created_at; analysis_session_id]))
    | None => None
    end.

(** The loop state of [fix_csv_final]. *)
Record state := State {
  records : list record;
  current_record_lines : list str;
  record_count : nat
}.

Definition init : state := State [] [] 0.

(** [record = process_record_lines(current_record_lines)] followed by
    [if record: records.append(record); record_count += 1]. *)
Definition flush (st : state) : state :=
  match process_record_lines (current_record_lines st) with
  | Some (f :: fs) =>
      State (records st ++ [f :: fs]) (current_record_lines st)
            (S (record_count st))
  | _ => st
  end.

(** One iteration of the loop over [lines[1:]]. *)
Definition step (st : state) (raw : str) : state :=
  let line := rstrip_newline raw in
  if is_record_start line then
    let st' := match current_record_lines st with
               | [] => st
               | _ :: _ => flush st
               end in
    State (records st') [line] (record_count st')
  else
    match current_record_lines st with
    | [] => st
    | _ :: _ =>
        State (records st) (current_record_lines st ++ [line])
              (record_count st)
    end.

(** The state after the loop, before the final record is handled. *)
Definition loop (body : list str) : state := foldl step init body.

(** "Handle final record". *)
Definition finish (st : state) : state :=
  match current_record_lines st with
  | [] => st
  | _ :: _ => flush st
  end.

(** [fix_csv_final] on the lines of the input file: the final state,
    whose [records] are written after the header.  [lines[0]] raises
    [IndexError] on an empty file: [None]. *)
Definition fix_csv_final (lines : list str) : option state :=
  match lines with
  | [] => None
  | _ :: body => Some (finish (loop body))
  end.

End FixCsvFinal.

(** ** The competitor scripts *)

(** The split of the text span shared, with the same code, by
    [parse_competitor_record] (fix_competitor_csv.py, lines 186-192),
    [parse_competitor_record_robust] (fix_competitor_csv_final.py, lines
    227-233) and [parse_record_lines] (create_clean_csv.py, lines
    128-134). *)
Definition split_text_span (middle_text : str) : str * str :=
  if contains joint middle_text then
    match rsplit1 joint middle_text with
    | [part0; part1] => (strip_chars [dq] part0, strip_chars [dq] part1)
    | _ => (strip_chars [dq] middle_text, [])   (* unreachable *)
    end
  else (strip_chars [dq] middle_text, []).

(** The code after [created_at], shared by both competitor parsers:
    [final_parts], [prompt_id] and [analysis_session_id]. *)
Definition trailing_fields (after_created_at : str) : str * str :=
  let final_parts :=
    match after_created_at with
    | [] => [[]; []]
    | _ :: _ => split "," after_created_at
    end in
  (match final_parts !! 0 with Some p => strip p | None => [] end,
   match final_parts !! 1 with Some p => strip p | None => [] end).

(** [parts[i].strip()] for an index known to be in range. *)
Definition stripped_part (parts : list str) (i : nat) : str :=
  strip (default [] (parts !! i)).

Module FixCompetitorCsv.

(** [','.join(parts[8:])] for the parts of the joined record. *)
Definition remaining_text_of (lines : list str) : str :=
  join [","] (drop 8 (split "," (strip (join [" "] lines)))).

Definition parse_competitor_record (lines : list str) : option record :=
  let full_line := strip (join [" "] lines) in
  let parts := split "," full_line in
  if length parts <? 14 then None
  else
    let id_val := stripped_part parts 0 in
    let competitor_id := stripped_part parts 1 in
    let llm_analysis_id := stripped_part parts 2 in
    let llm_provider := stripped_part parts 3 in
    let is_mentioned := stripped_part parts 4 in
    let rank_position := stripped_part parts 5 in
    let sentiment_score := stripped_part parts 6 in
    let confidence_score := stripped_part parts 7 in
    let remaining_parts := drop 8 parts in
    let remaining_text := join [","] remaining_parts in
    let timestamps := finditer timestamp_pattern remaining_text in
    match last_two timestamps with
    | Some (analyzed_at_match, created_at_match) =>
        let analyzed_at_start := m_start analyzed_at_match in
        let created_at_end := m_end created_at_match in
        let middle_text :=
          strip_chars [" "; ","] (take analyzed_at_start remaining_text) in
        let '(response_text, summary_text) := split_text_span middle_text in
        let analyzed_at := group remaining_text analyzed_at_match in
        let created_at := group remaining_text created_at_match in
        let remaining_after_created :=
          strip_chars [" "; ","] (drop created_at_end remaining_text) in
        let '(prompt_id, analysis_session_id) :=
          trailing_fields remaining_after_created in
        Some [id_val; competitor_id; llm_analysis_id; llm_provider;
              is_mentioned; rank_position; sentiment_score; confidence_score;
              response_text; summary_text; analyzed_at; created_at;
              prompt_id; analysis_session_id]
    | None => None
    end.

(** The loop state of [fix_competitor_csv]. *)
Record state := State {
  records : list record;
  current_record_lines : list str;
  total_processed : nat;
  valid_records : nat;
  fk_violations : nat;
  malformed_records : nat
}.

Definition init : state := State [] [] 0 0 0 0.

(** The body of [if record and len(record) == 14:], for a record that
    passed this test: count it, then check the foreign key
    [record[2]]. *)
Definition check_foreign_key (valid_llm_ids : gset str) (st : state)
    (rec : record) : state :=
  let llm_analysis_id := default [] (rec !! 2) in
  if decide (llm_analysis_id ∈ valid_llm_ids) then
    State (records st ++ [rec]) (current_record_lines st)
          (S (total_processed st)) (S (valid_records st))
          (fk_violations st) (malformed_records st)
  else
    State (records st) (current_record_lines st)
          (S (total_processed st)) (valid_records st)
          (S (fk_violations st)) (malformed_records st).

(** [if record and len(record) == 14] *)
Definition accepted_shape (r : option record) : option record :=
  match r with
  | Some rec => if decide (length rec = 14) then Some rec else None
  | None => None
  end.

(** "Process previous record", inside the loop: a record of the wrong
    shape counts as malformed. *)
Definition process_previous (valid_llm_ids : gset str) (st : state) : state :=
  match accepted_shape (parse_competitor_record (current_record_lines st)) with
  | Some rec => check_foreign_key valid_llm_ids st rec
  | None =>
      State (records st) (current_record_lines st) (total_processed st)
            (valid_records st) (fk_violations st) (S (malformed_records st))
  end.

(** "Process final record", after the loop: no malformed count. *)
Definition process_final (valid_llm_ids : gset str) (st : state) : state :=
  match accepted_shape (parse_competitor_record (current_record_lines st)) with
  | Some rec => check_foreign_key valid_llm_ids st rec
  | None => st
  end.

Definition open_record (st : state) (line : str) : state :=
  State (records st) [line] (total_processed st) (valid_records st)
        (fk_violations st) (malformed_records st).

Definition append_line (st : state) (line : str) : state :=
  State (records st) (current_record_lines st ++ [line])
        (total_processed st) (valid_records st) (fk_violations st)
        (malformed_records st).

Definition step (valid_llm_ids : gset str) (st : state) (raw : str) : state :=
  let line := rstrip_newline raw in
  if is_record_start line then
    open_record
      (match current_record_lines st with
       | [] => st
       | _ :: _ => process_previous valid_llm_ids st
       end) line
  else
    match current_record_lines st with
    | [] => st
    | _ :: _ => append_line st line
    end.

Definition loop (valid_llm_ids : gset str) (body : list str) : state :=
  foldl (step valid_llm_ids) init body.

Definition finish (valid_llm_ids : gset str) (st : state) : state :=
  match current_record_lines st with
  | [] => st
  | _ :: _ => process_final valid_llm_ids st
  end.

(** [fix_competitor_csv] from the lines of the input file and the set
    of valid parent identifiers to the final state: [records] is what
    the writer receives. *)
Definition fix_competitor_csv (valid_llm_ids : gset str) (lines : list str)
    : state :=
  finish valid_llm_ids (loop valid_llm_ids (drop 1 lines)).

End FixCompetitorCsv.

(** ** fix_competitor_csv_final.py *)

Module FixCompetitorCsvFinal.

(** [m = re.match(r'^(P),', s)], [g = m.group(1)] and
    [s[len(g) + 1:]]: the field and the text after its comma. *)
Definition match_field (p : pattern) (s : str) : option (str * str) :=
  match match_items (p ++ [chr ","]) s with
  | Some n => Some (take (n - 1) s, drop n s)
  | None => None
  end.

(** The same for [r'^(true|false),']. *)
Definition match_boolean (s : str) : option (str * str) :=
  if startswith (lit "true,") s then Some (lit "true", drop 5 s)
  else if startswith (lit "false,") s then Some (lit "false", drop 6 s)
  else None.

Definition parse_competitor_record_robust (lines : list str)
    : option record :=
  let full_line := strip (join [" "] lines) in
  '(id_val, remaining) ← match_field uuid_items full_line;
  '(competitor_id, remaining) ← match_field uuid_items remaining;
  '(llm_analysis_id, remaining) ← match_field uuid_items remaining;
  '(llm_provider, remaining) ← match_field [not_comma1] remaining;
  '(is_mentioned, remaining) ← match_boolean remaining;
  '(rank_position, remaining) ← match_field [not_comma1] remaining;
  '(sentiment_score, remaining) ← match_field [not_comma1] remaining;
  '(confidence_score, remaining) ← match_field [not_comma1] remaining;
  let timestamps := finditer timestamp_pattern remaining in
  '(analyzed_at_match, created_at_match) ← last_two timestamps;
  let text_part :=
    rstrip_chars [" "; ","] (take (m_start analyzed_at_match) remaining) in
  let '(response_text, summary_text) := split_text_span text_part in
  let analyzed_at := group remaining analyzed_at_match in
  let created_at := group remaining created_at_match in
  let after_created_at :=
    strip_chars [" "; ","] (drop (m_end created_at_match) remaining) in
  let '(prompt_id, analysis_session_id) := trailing_fields after_created_at in
  Some [id_val; competitor_id; llm_analysis_id; llm_provider;
        is_mentioned; rank_position; sentiment_score; confidence_score;
        response_text; summary_text; analyzed_at; created_at;
        prompt_id; analysis_session_id].

(** The loop state of [fix_competitor_csv_final]. *)
Record state := State {
  records : list record;
  current_record_lines : list str;
  total_processed : nat;
  valid_records : nat;
  fk_violations : nat
}.

Definition init : state := State [] [] 0 0 0.

Definition check_foreign_key (valid_llm_ids : gset str) (st : state)
    (rec : record) : state :=
  let llm_analysis_id := default [] (rec !! 2) in
  if decide (llm_analysis_id ∈ valid_llm_ids) then
    State (records st ++ [rec]) (current_record_lines st)
          (S (total_processed st)) (S (valid_records st)) (fk_violations st)
  else
    State (records st) (current_record_lines st)
          (S (total_processed st)) (valid_records st) (S (fk_violations st)).

(** "Process previous record" and "Process final record": the same code. *)
Definition process_record (valid_llm_ids : gset str) (st : state) : state :=
  match FixCompetitorCsv.accepted_shape
          (parse_competitor_record_robust (current_record_lines st)) with
  | Some rec => check_foreign_key valid_llm_ids st rec
  | None => st
  end.

Definition step (valid_llm_ids : gset str) (st : state) (raw : str) : state :=
  let line := rstrip_newline raw in
  if is_record_start line then
    let st' := match current_record_lines st with
               | [] => st
               | _ :: _ => process_record valid_llm_ids st
               end in
    State (records st') [line] (total_processed st') (valid_records st')
          (fk_violations st')
  else
    match current_record_lines st with
    | [] => st
    | _ :: _ =>
        State (records st) (current_record_lines st ++ [line])
              (total_processed st) (valid_records st) (fk_violations st)
    end.

Definition loop (valid_llm_ids : gset str) (body : list str) : state :=
  foldl (step valid_llm_ids) init body.

Definition finish (valid_llm_ids : gset str) (st : state) : state :=
  match current_record_lines st with
  | [] => st
  | _ :: _ => process_record valid_llm_ids st
  end.

Definition fix_competitor_csv_final (valid_llm_ids : gset str)
    (lines : list str) : state :=
  finish valid_llm_ids (loop valid_llm_ids (drop 1 lines)).

End FixCompetitorCsvFinal.

(** ** create_clean_csv.py *)

Module CreateCleanCsv.

Definition parse_record_lines (lines : list str) : option record :=
  let full_line := strip (join [" "] lines) in
  let timestamps := finditer timestamp_pattern full_line in
  match last_two timestamps with
  | Some (analyzed_at_match, created_at_match) =>
      let parts := split "," full_line in
      if 8 <=? length parts then
        let id_val := stripped_part parts 0 in
        let prompt_id := stripped_part parts 1 in
        let llm_provider := stripped_part parts 2 in
        let website_id := stripped_part parts 3 in
        let is_mentioned := stripped_part parts 4 in
        let rank_position := stripped_part parts 5 in
        let sentiment_score := stripped_part parts 6 in
        let confidence_score := stripped_part parts 7 in
        let analyzed_at_start := m_start analyzed_at_match in
        let created_at_end := m_end created_at_match in
        (* [full_line.find(confidence_score) + len(confidence_score) + 1];
           [find] gives -1 when there is no occurrence *)
        let middle_start :=
          match find confidence_score full_line with
          | Some i => i + length confidence_score + 1
          | None => length confidence_score
          end in
        let middle_part :=
          strip_chars [" "; ","]
            (slice middle_start analyzed_at_start full_line) in
        let '(response_text, summary_text) := split_text_span middle_part in
        let analyzed_at := group full_line analyzed_at_match in
        let created_at := group full_line created_at_match in
        let remaining_text :=
          strip_chars [" "; ","] (drop created_at_end full_line) in
        let analysis_session_id := remaining_text in
        Some [id_val; prompt_id; llm_provider; website_id; is_mentioned;
              rank_position; sentiment_score; confidence_score;
              response_text; summary_text; analyzed_at; created_at;
              analysis_session_id]
      else None
  | None => None
  end.

(** The loop state of [create_clean_csv]. *)
Record state := State {
  records : list record;
  current_record_lines : list str;
  processed : nat
}.

Definition init : state := State [] [] 0.

(** [if record and len(record) == 13] *)
Definition accepted_shape (r : option record) : option record :=
  match r with
  | Some rec => if decide (length rec = 13) then Some rec else None
  | None => None
  end.

Definition process_record (st : state) : state :=
  match accepted_shape (parse_record_lines (current_record_lines st)) with
  | Some rec =>
      State (records st ++ [rec]) (current_record_lines st) (S (processed st))
  | None => st
  end.

Definition step (st : state) (raw : str) : state :=
  let line := rstrip_newline raw in
  if is_record_start line then
    let st' := match current_record_lines st with
               | [] => st
               | _ :: _ => process_record st
               end in
    State (records st') [line] (processed st')
  else
    match current_record_lines st with
    | [] => st
    | _ :: _ =>
        State (records st) (current_record_lines st ++ [line]) (processed st)
    end.

(** [if max_records and len(records) >= max_records: break] *)
Definition limit_reached (max_records : option nat) (st : state) : bool :=
  match max_records with
  | Some (S n) => S n <=? length (records st)
  | _ => false
  end.

Fixpoint loop (max_records : option nat) (st : state) (body : list str)
    : state :=
  match body with
  | [] => st
  | raw :: body' =>
      if limit_reached max_records st then st
      else loop max_records (step st raw) body'
  end.

Definition finish (st : state) : state :=
  match current_record_lines st with
  | [] => st
  | _ :: _ => process_record st
  end.

(** [create_clean_csv(input_file, output_file, max_records)]; the
    default of [max_records] is [None]. *)
Definition create_clean_csv (max_records : option nat) (lines : list str)
    : state :=
  finish (loop max_records init (drop 1 lines)).

End CreateCleanCsv.

(** ** fix_csv_simple.py *)

Module FixCsvSimple.

(** [re.sub(r'\s+', ' ', s)]: every maximal run of white space becomes
    one space.  [in_run] tells that the previous character was white
    space. *)
Fixpoint sub_spaces (in_run : bool) (s : str) : str :=
  match s with
  | [] => []
  | c :: s' =>
      if isspace c then
        (if in_run then [] else [" "]) ++ sub_spaces true s'
      else c :: sub_spaces false s'
  end.

Definition clean_record (current_record : str) : str :=
  sub_spaces false (strip current_record).

Record state := State {
  fixed_lines : list str;
  current_record : str;
  record_count : nat
}.

(** "Save previous record if we have one" *)
Definition save (st : state) : state :=
  match strip (current_record st) with
  | [] => st
  | _ :: _ =>
      State (fixed_lines st ++ [clean_record (current_record st)])
            (current_record st) (S (record_count st))
  end.

Definition step (st : state) (raw : str) : state :=
  let line := rstrip_newline raw in
  if is_record_start line then
    let st' := save st in
    State (fixed_lines st') line (record_count st')
  else
    match current_record st with
    | [] => st
    | _ :: _ =>
        State (fixed_lines st) (current_record st ++ [" "] ++ line)
              (record_count st)
    end.

(** [fix_csv_simple]: the lines written to the output file;
    [lines[0]] raises [IndexError] on an empty file. *)
Definition fix_csv_simple (lines : list str) : option state :=
  match lines with
  | [] => None
  | header :: body =>
      Some (save (foldl step (State [strip header] [] 0) body))
  end.

End FixCsvSimple.

(** ** fix_llm_csv.py: [LLMCSVCleaner] *)

Module FixLlmCsv.

(** Messages passed to [logger.warning]. *)
Inductive log_entry :=
  | TruncatedLongTextField (chars : Z)
  | ValidationErrors (line_num : Z).

(** The length limit of a text field and the marker appended to a
    truncated one. *)
Definition max_text_length : Z := 50000.
Definition truncation_marker : str := lit "... [TRUNCATED]".

(** The three [replace] calls that escape the text, after the NUL
    characters are removed. *)
Definition remove_nul (text : str) : str := replace "000" [] text.
Definition escape (text : str) : str :=
  replace dq [dq; dq]
    (replace "013" (lit "\r") (replace "010" (lit "\n") text)).

(** [clean_text_field]: the cleaned text and what is logged. *)
Definition clean_text_field (text : str) : str * list log_entry :=
  match text with
  | [] => ([], [])
  | _ :: _ =>
      let text := remove_nul text in
      let text := escape text in
      if (max_text_length <? len text)%Z then
        let text := take (Z.to_nat max_text_length) text ++ truncation_marker in
        (text, [TruncatedLongTextField (len text)])
      else (text, [])
  end.

Definition expected_columns : list string :=
  ["id"; "prompt_id"; "llm_provider"; "website_id"; "is_mentioned";
   "rank_position"; "sentiment_score"; "confidence_score"; "response_text";
   "summary_text"; "analyzed_at"; "created_at"; "analysis_session_id"]%string.

Definition valid_llm_providers : gset str :=
  {[ lit "chatgpt"; lit "claude"; lit "gemini"; lit "perplexity";
     lit "gpt-4"; lit "claude-3" ]}.

(** Errors and warnings of [validate_row]; the field name and the
    offending value stand for the formatted message. *)
Inductive message :=
  | WrongColumnCount (n : nat)
  | InvalidUuid (field : string) (value : str)
  | InvalidOptionalUuid (field : string) (value : str)
  | InvalidLlmProvider (value : str)
  | InvalidBoolean (value : str)
  | OutOfRange (field : string) (value : str)
  | NotANumber (field : string) (value : str).

(** The [validation] dictionary. *)
Record validation := Validation {
  is_valid : bool;
  errors : list message;
  warnings : list message
}.

Definition add_error (m : message) (v : validation) : validation :=
  Validation false (errors v ++ [m]) (warnings v).
Definition add_warning (m : message) (v : validation) : validation :=
  Validation (is_valid v) (errors v) (warnings v ++ [m]).

(** [c.lower()] on one code point below 256. *)
Definition lower_char (c : ascii) : ascii :=
  let n := nat_of_ascii c in
  if (65 <=? n) && (n <=? 90) then ascii_of_nat (n + 32)
  else if (192 <=? n) && (n <=? 222) && negb (n =? 215)
       then ascii_of_nat (n + 32)
  else c.
Definition lower (s : str) : str := lower_char <$> s.

Section Validator.

(** Python's library functions: [uuid.UUID(s)] does not raise;
    [int(s)], with [None] for [ValueError]; [float(s)], with [None]
    for [ValueError], and the test [lo <= x <= hi] on a float for the
    integer bounds used by the script. *)
Context (uuid_parses : str → bool).
Context (py_int : str → option Z).
Context {float : Type}.
Context (py_float : str → option float).
Context (float_between : Z → Z → float → bool).

Definition is_valid_uuid (value : str) : bool :=
  match value with
  | [] => false
  | _ :: _ =>
      match strip value with
      | [] => false
      | _ :: _ => uuid_parses (strip value)
      end
  end.

(** [row_dict[field]] *)
Definition get (row_dict : gmap string str) (field : string) : str :=
  default [] (row_dict !! field).

Definition check_required_uuid (row_dict : gmap string str)
    (v : validation) (field : string) : validation :=
  if is_valid_uuid (get row_dict field) then v
  else add_error (InvalidUuid field (take 50 (get row_dict field))) v.

(** The three [try] blocks on the numeric fields. *)
Definition nonblank (s : str) : bool :=
  match s, strip s with
  | _ :: _, _ :: _ => true
  | _, _ => false
  end.

Definition check_rank (value : str) (v : validation) : validation :=
  if nonblank value then
    match py_int value with
    | Some rank_pos =>
        if (rank_pos <? -1)%Z
        then add_error (OutOfRange "rank_position" value) v
        else v
    | None => add_warning (NotANumber "rank_position" value) v
    end
  else v.

Definition check_score (field : string) (lo hi : Z) (value : str)
    (v : validation) : validation :=
  if nonblank value then
    match py_float value with
    | Some x =>
        if float_between lo hi x then v
        else add_error (OutOfRange field value) v
    | None => add_warning (NotANumber field value) v
    end
  else v.

(** The second half of [validate_row]: the checks of the provider, of
    the boolean and of the three numeric fields. *)
Definition check_values (row_dict : gmap string str) (v : validation)
    : validation :=
  let v :=
    if decide (get row_dict "llm_provider" ∈ valid_llm_providers) then v
    else add_error (InvalidLlmProvider (get row_dict "llm_provider")) v in
  let is_mentioned := strip (lower (get row_dict "is_mentioned")) in
  let v :=
    if bool_decide
         (is_mentioned ∈ [lit "true"; lit "false"; lit "t"; lit "f";
                          lit "1"; lit "0"; lit ""])
    then v
    else add_warning (InvalidBoolean is_mentioned) v in
  let v := check_rank (get row_dict "rank_position") v in
  let v := check_score "sentiment_score" (-1) 1
                       (get row_dict "sentiment_score") v in
  check_score "confidence_score" 0 1 (get row_dict "confidence_score") v.

(** [validate_row], with its local dictionary [row_dict] as it is when
    the function returns.  [row_dict] is built by [dict(zip(...))]: a
    new object, which does not share anything with the list [row]. *)
Definition validate_row_locals (row : record)
    : validation * gmap string str :=
  let v := Validation true [] [] in
  if decide (length row ≠ length expected_columns) then
    (add_error (WrongColumnCount (length row)) v, ∅)
  else
    let row_dict : gmap string str :=
      list_to_map (zip expected_columns row) in
    let v :=
      foldl (check_required_uuid row_dict) v
            ["id"; "prompt_id"; "website_id"]%string in
    let session := get row_dict "analysis_session_id" in
    let '(v, row_dict) :=
      match session with
      | _ :: _ =>
          if is_valid_uuid session then (v, row_dict)
          else
            (add_warning
               (InvalidOptionalUuid "analysis_session_id" (take 50 session))
               v,
             <["analysis_session_id"%string := []]> row_dict)
      | [] => (v, row_dict)
      end in
    (check_values row_dict v, row_dict).

(** What [validate_row] returns: the validation only. *)
Definition validate_row (row : record) : validation :=
  fst (validate_row_locals row).

(** The statistics and the output of [process_file]. *)
Record state := State {
  written : list record;        (* rows passed to [writer.writerow] *)
  processed_rows : nat;
  constraint_violations : nat;
  log : list log_entry
}.

(** [row[8] = self.clean_text_field(row[8])] and the same for
    [row[9]].  Assignment to an index out of range raises
    [IndexError]; the rows here have 13 fields. *)
Definition clean_text_fields (row : record) : record * list log_entry :=
  let '(response_text, log8) := clean_text_field (default [] (row !! 8)) in
  let row := <[8 := response_text]> row in
  let '(summary_text, log9) := clean_text_field (default [] (row !! 9)) in
  let row := <[9 := summary_text]> row in
  (row, log8 ++ log9).

(** Lines 265-285 of [process_file]: a row that [csv.reader] parsed
    into 13 fields is validated, cleaned and written, whether or not
    it is valid. *)
Definition process_parsed_row (line_num : Z) (st : state) (row : record)
    : state :=
  let validation := validate_row row in
  let '(row', logged) := clean_text_fields row in
  if is_valid validation then
    State (written st ++ [row']) (S (processed_rows st))
          (constraint_violations st) (log st ++ logged)
  else
    State (written st ++ [row']) (S (processed_rows st))
          (S (constraint_violations st))
          (log st ++ [ValidationErrors line_num] ++ logged).

End Validator.

(** [\d{4}-\d{2}-\d{2}], used by [fix_malformed_csv_line] *)
Definition date_items : pattern :=
  [digits 4; chr "-"; digits 2; chr "-"; digits 2].

(** The loop of [fix_malformed_csv_line] that looks for [analyzed_at]:
    the first index [i] of [range(response_start + 1, len(parts))] with
    [i < len(parts) - 2] whose part starts with a date.  [rest] is
    [parts[i:]] and [n] is [len(parts)]. *)
Fixpoint find_date_part (i n : nat) (rest : list str) : option nat :=
  match rest with
  | [] => None
  | part :: rest' =>
      if (i + 2 <? n) && matches date_items part then Some i
      else find_date_part (S i) n rest'
  end.

(** [parts[i].strip() if i is in range else ''] *)
Definition stripped_or_empty (parts : list str) (i : nat) : str :=
  match parts !! i with
  | Some part => strip part
  | None => []
  end.

(** [fix_malformed_csv_line]: the row rebuilt from a line that
    [csv.reader] rejected, [None] when the line has fewer than 13
    comma-separated parts. *)
Definition fix_malformed_csv_line (line : str) : option record :=
  let parts := split "," line in
  let n := length parts in
  if n <? 13 then None
  else
    let fixed_row := stripped_or_empty parts <$> seq 0 8 in
    let response_start := 8 in
    (* [summary_start] is -1 until the loop finds a date *)
    let summary_start :=
      match find_date_part (response_start + 1) n
              (drop (response_start + 1) parts) with
      | Some i => i - 1
      | None => n - 4
      end in
    let response_parts := slice response_start summary_start parts in
    let fixed_row := fixed_row ++ [strip (join [","] response_parts)] in
    let fixed_row := fixed_row ++ [stripped_or_empty parts summary_start] in
    (* [for i in range(-3, 0)]: [parts[i]] when [len(parts) + i >= 0] *)
    let fixed_row :=
      fixed_row
      ++ ((λ k, if k <=? n then strip (default [] (parts !! (n - k))) else [])
            <$> [3; 2; 1]) in
    Some (take 13 fixed_row).

End FixLlmCsv.

(** ** The record segmenter, on its own

    The loops of the scripts fuse two things: the grouping of the lines
    into logical records and what is done with each finished group.
    [segment_from] is the grouping alone, with the open record [cur] as
    its state, written with the open / append / flush logic of the loops.
    The theorems below show that every loop is this grouping followed by
    its own treatment of each group. *)

Definition flushed (cur : list str) : list (list str) :=
  match cur with
  | [] => []
  | _ :: _ => [cur]
  end.

Fixpoint segment_from (cur : list str) (body : list str) : list (list str) :=
  match body with
  | [] => flushed cur
  | raw :: body' =>
      let line := rstrip_newline raw in
      if is_record_start line then flushed cur ++ segment_from [line] body'
      else match cur with
           | [] => segment_from [] body'
           | _ :: _ => segment_from (cur ++ [line]) body'
           end
  end.

Definition segment_records (body : list str) : list (list str) :=
  segment_from [] body.

(** The lines from the first record start on. *)
Fixpoint drop_orphans (lines : list str) : list str :=
  match lines with
  | [] => []
  | l :: lines' => if is_record_start l then lines else drop_orphans lines'
  end.

(** A logical record: a record-start line followed by lines that are not. *)
Definition logical_record (g : list str) : Prop :=
  ∃ h t, g = h :: t ∧ is_record_start h = true
         ∧ Forall (λ l, is_record_start l = false) t.

(** What each script does with a finished group. *)

(** fix_csv_final.py: [if record: records.append(record)] *)
Definition resolve_final (g : list str) : option record :=
  match FixCsvFinal.process_record_lines g with
  | Some (f :: fs) => Some (f :: fs)
  | _ => None
  end.

(** create_clean_csv.py *)
Definition resolve_clean (g : list str) : option record :=
  CreateCleanCsv.accepted_shape (CreateCleanCsv.parse_record_lines g).

(** The foreign-key filter of the competitor scripts. *)
Definition has_valid_parent (valid_llm_ids : gset str) (rec : record)
    : option record :=
  if decide (default [] (rec !! 2) ∈ valid_llm_ids) then Some rec else None.

(** fix_competitor_csv.py and fix_competitor_csv_final.py *)
Definition resolve_competitor (valid_llm_ids : gset str) (g : list str)
    : option record :=
  FixCompetitorCsv.accepted_shape (FixCompetitorCsv.parse_competitor_record g)
  ≫= has_valid_parent valid_llm_ids.

Definition resolve_competitor_final (valid_llm_ids : gset str) (g : list str)
    : option record :=
  FixCompetitorCsv.accepted_shape
    (FixCompetitorCsvFinal.parse_competitor_record_robust g)
  ≫= has_valid_parent valid_llm_ids.

(** fix_csv_simple.py: the group as one cleaned line. *)
Definition resolve_simple (g : list str) : str :=
  FixCsvSimple.clean_record (join [" "] g).

(** The counters of the competitor scripts agree with each other. *)
Definition counters_consistent (total valid fk : nat) (recs : list record)
    : Prop :=
  total = valid + fk ∧ length recs = valid.

Definition consistent (st : FixCompetitorCsv.state) : Prop :=
  counters_consistent (FixCompetitorCsv.total_processed st)
    (FixCompetitorCsv.valid_records st) (FixCompetitorCsv.fk_violations st)
    (FixCompetitorCsv.records st).

Definition consistent_final (st : FixCompetitorCsvFinal.state) : Prop :=
  counters_consistent (FixCompetitorCsvFinal.total_processed st)
    (FixCompetitorCsvFinal.valid_records st)
    (FixCompetitorCsvFinal.fk_violations st)
    (FixCompetitorCsvFinal.records st).

(** [v1] is [v2] with the warning [w] recorded in addition: the same
    verdict and the same errors. *)
Definition warned (w : FixLlmCsv.message) (v1 v2 : FixLlmCsv.validation)
    : Prop :=
  FixLlmCsv.is_valid v1 = FixLlmCsv.is_valid v2
  ∧ FixLlmCsv.errors v1 = FixLlmCsv.errors v2
  ∧ w ∈ FixLlmCsv.warnings v1.

(** The verdict of a validation is [True] exactly when no error is
    recorded. *)
Definition coherent (v : FixLlmCsv.validation) : Prop :=
  FixLlmCsv.is_valid v = true ↔ FixLlmCsv.errors v = [].

(** ** The shape of a match

    An item is exact when it has one repetition count, as in [\d{4}] or
    [-].  A string conforms to a pattern of exact items when it starts
    with the groups of characters that the items ask for, one after the
    other. *)

Definition exact (it : item) : Prop := hi it = Some (lo it).

Fixpoint conforms (p : pattern) (s : str) : Prop :=
  match p with
  | [] => True
  | it :: p' =>
      ∃ g s', s = g ++ s' ∧ length g = lo it
              ∧ Forall (λ c, cls it c = true) g ∧ conforms p' s'
  end.

(** A string is accepted by a pattern when it is made of one group of
    characters for each item, of a length that the item allows, and of
    nothing else. *)
Fixpoint accepts (p : pattern) (s : str) : Prop :=
  match p with
  | [] => s = []
  | it :: p' =>
      ∃ g s', s = g ++ s' ∧ lo it ≤ length g
              ∧ (∀ h, hi it = Some h → length g ≤ h)
              ∧ Forall (λ c, cls it c = true) g ∧ accepts p' s'
  end.

(** ** Text files

    The scripts write a file line by line with [f.write(line + '\n')] and
    read a file with [readlines()] or [for line in f].  Files are opened
    in text mode: on reading, a line ends at a line feed, at a carriage
    return or at a carriage return followed by a line feed, and each of
    them is returned as one line feed.  The line separator written is the
    line feed. *)

Module File.

Definition write_lines (lines : list str) : str :=
  concat ((λ line, line ++ ["010"]) <$> lines).

(** [cur] is the text of the line read so far. *)
Fixpoint readlines_from (cur content : str) : list str :=
  match content with
  | [] => match cur with [] => [] | _ :: _ => [cur] end
  | c :: rest =>
      if decide (c = "010") then (cur ++ ["010"]) :: readlines_from [] rest
      else if decide (c = "013") then
        match rest with
        | "010" :: _ => readlines_from cur rest
        | _ => (cur ++ ["010"]) :: readlines_from [] rest
        end
      else readlines_from (cur ++ [c]) rest
  end.

Definition readlines (content : str) : list str := readlines_from [] content.

End File.

(** ** The writer of fix_competitor_csv_final.py *)

Module FixCompetitorCsvFinalWriter.

(** Lines 107-109: [re.sub(r'\s+', ' ', field.strip())] followed by the
    three [replace] calls. *)
Definition cleaned_field (field : str) : str :=
  let cleaned_field := FixCsvSimple.sub_spaces false (strip field) in
  replace "010" [" "] (replace "013" [] (replace "000" [] cleaned_field)).

(** Lines 101-114: the rows passed to [writer.writerow]. *)
Definition cleaned_record (record : list str) : list str :=
  cleaned_field <$> record.

Definition cleaned_records (records : list (list str)) : list (list str) :=
  cleaned_record <$> records.

End FixCompetitorCsvFinalWriter.

(** ** The valid parent identifiers of fix_competitor_csv.py *)

Module ValidIds.

(** The order of Python on strings: by code point, a prefix first. *)
Fixpoint str_leb (a b : str) : bool :=
  match a, b with
  | [], _ => true
  | _ :: _, [] => false
  | x :: a', y :: b' =>
      match Ascii.compare x y with
      | Lt => true
      | Eq => str_leb a' b'
      | Gt => false
      end
  end.

Definition str_le (a b : str) : Prop := str_leb a b = true.

Global Instance str_le_dec a b : Decision (str_le a b).
Proof. unfold str_le. apply _. Defined.

(** [sorted(ids)] *)
Definition sorted (ids : gset str) : list str :=
  merge_sort str_le (elements ids).

(** [match = re.match(r'^(<uuid>),', line)] and [match.group(1)] *)
Definition leading_id (line : str) : option str :=
  fst <$> FixCompetitorCsvFinal.match_field uuid_items line.

(** [extract_llm_ids], lines 224-233: the identifiers at the start of
    the lines of the LLM file, the header skipped. *)
Definition extract_llm_ids (llm_lines : list str) : gset str :=
  list_to_set
    (omap (λ line, if startswith (lit "id,") line then None
                   else leading_id line) llm_lines).

(** Lines 238-240: the identifier file, [f.write(id_val + '\n')] for
    each identifier in increasing order. *)
Definition id_file (ids : gset str) : str := File.write_lines (sorted ids).

(** [re.match(r'^<uuid>$', line)]: the pattern has one length only, and
    [$] is the end of the string or the place before a final line
    feed. *)
Definition is_uuid_line (line : str) : bool :=
  match match_items uuid_items line with
  | Some n => bool_decide (drop n line = [] ∨ drop n line = ["010"])
  | None => false
  end.

(** [fix_competitor_csv], lines 27-34: the identifiers read from the
    identifier file. *)
Definition load_valid_ids (id_lines : list str) : gset str :=
  list_to_set (filter (λ line, is_uuid_line line = true) (strip <$> id_lines)).

(** [fix_competitor_csv], lines 36-46: the identifiers taken from the
    LLM file when there is no identifier file. *)
Definition fallback_ids (llm_lines : list str) : gset str :=
  list_to_set
    (omap (λ line, if startswith (lit "id,") line
                      || startswith (lit "llm_analysis_id") line
                   then None
                   else leading_id line) llm_lines).

End ValidIds.

(** ** create_competitor_sample.py *)

Module CreateCompetitorSample.

(** The limit [100] of the identifiers and of the sample records. *)
Definition sample_limit : nat := 100.

(** Lines 15-20: one line of the identifier file; the flag tells that the
    loop was left with [break]. *)
Definition load_step (acc : gset str * bool) (raw : str) : gset str * bool :=
  if acc.2 then acc
  else
    let line := strip raw in
    if ValidIds.is_uuid_line line then
      let valid_llm_ids := {[ line ]} ∪ acc.1 in
      (valid_llm_ids, bool_decide (sample_limit ≤ size valid_llm_ids))
    else acc.

Definition load_sample_ids (id_lines : list str) : gset str :=
  (foldl load_step (∅, false) id_lines).1.

(** Lines 47-62: the simplified record made of the comma-separated parts
    of a record that has at least three of them. *)
Definition sample_record (parts : list str) : record :=
  [default [] (parts !! 0);
   default [] (parts !! 1);
   default [] (parts !! 2);
   (if decide (3 < length parts) then default [] (parts !! 3)
    else lit "chatgpt");
   lit "false"; lit "0"; lit "0.00"; lit "0.95";
   lit "Sample response text for testing";
   lit "Sample summary text for testing";
   lit "2025-09-17 12:00:00.000000+00";
   lit "2025-09-17 12:00:00.000000+00";
   []; []].

(** The loop state; [stopped] tells that the loop was left with
    [break]. *)
Record state := State {
  sample_records : list record;
  current_record : str;
  stopped : bool
}.

Definition init : state := State [] [] false.

(** Lines 41-66, "Process previous record". *)
Definition process_previous (valid_llm_ids : gset str) (st : state) : state :=
  match current_record st with
  | [] => st
  | _ :: _ =>
      let parts := split "," (current_record st) in
      if decide (3 ≤ length parts) then
        let llm_analysis_id := default [] (parts !! 2) in
        if decide (llm_analysis_id ∈ valid_llm_ids) then
          let sample_records := sample_records st ++ [sample_record parts] in
          State sample_records (current_record st)
                (bool_decide (sample_limit ≤ length sample_records))
        else st
      else st
  end.

(** Lines 36-70: one line of the input. *)
Definition step (valid_llm_ids : gset str) (st : state) (raw : str) : state :=
  if stopped st then st
  else
    let line := rstrip_newline raw in
    if is_record_start line then
      let st' := process_previous valid_llm_ids st in
      if stopped st' then st'
      else State (sample_records st') line false
    else
      State (sample_records st) (current_record st ++ [" "] ++ line) false.

(** [create_sample] from the set of identifiers and the lines of the
    competitor file to the final state: [sample_records] is what the
    writer receives.  No code follows the loop for the record that is
    still in [current_record]. *)
Definition create_sample (valid_llm_ids : gset str) (lines : list str)
    : state :=
  foldl (step valid_llm_ids) init (drop 1 lines).

End CreateCompetitorSample.

(** The properties of the sample kept by the loop. *)
Definition sample_invariant (ids : gset str)
    (st : CreateCompetitorSample.state) : Prop :=
  length (CreateCompetitorSample.sample_records st)
    ≤ CreateCompetitorSample.sample_limit
  ∧ (CreateCompetitorSample.stopped st = false →
     length (CreateCompetitorSample.sample_records st)
       < CreateCompetitorSample.sample_limit)
  ∧ Forall (λ r, length r = 14
                 ∧ default [] (r !! 2) ∈ ids
                 ∧ drop 4 r = drop 4 (CreateCompetitorSample.sample_record []))
      (CreateCompetitorSample.sample_records st).

(** ** The shape test of fix_competitor_csv.py

    [record and len(record) == 14] for the group of lines of one record. *)
Definition well_shaped (g : list str) : bool :=
  bool_decide
    (is_Some (FixCompetitorCsv.accepted_shape
                (FixCompetitorCsv.parse_competitor_record g))).

(** The same test in fix_competitor_csv_final.py, on the result of
    [parse_competitor_record_robust]. *)
Definition well_shaped_robust (g : list str) : bool :=
  bool_decide
    (is_Some (FixCompetitorCsv.accepted_shape
                (FixCompetitorCsvFinal.parse_competitor_record_robust g))).

(** ** Tidy lines

    A line is tidy when its white space is made of single plain spaces
    between other characters: it has no white-space character but the
    space, no two white-space characters in a row, and none at either
    end. *)

Fixpoint no_double_space (s : str) : bool :=
  match s with
  | c :: s' =>
      match s' with
      | d :: _ => negb (isspace c && isspace d) && no_double_space s'
      | [] => true
      end
  | [] => true
  end.

Definition plain_spaces (s : str) : Prop :=
  Forall (λ c, isspace c = true → c = " ") s.

Definition tidy (s : str) : Prop :=
  plain_spaces s
  ∧ no_double_space s = true
  ∧ (∀ c, head s = Some c → isspace c = false)
  ∧ (∀ c, last s = Some c → isspace c = false).

(** ** Sample data *)

Module Sample.

(** The LLM analysis record of the specification's scenario. *)
Definition llm_line : str :=
  lit "a1b2c3d4-e5f6-7890-abcd-ef1234567890,pid,chatgpt,wid,true,1,0.50,0.90,"
  ++ quoted "hello" ++ lit "," ++ quoted "world"
  ++ lit ",2025-01-01 00:00:00.000000+00,2025-01-01 00:00:00.000000+00,".

(** Its text span. *)
Definition text_span : str := quoted "hello" ++ lit "," ++ quoted "world".

(** The same record with timestamps that have no fraction and no zone. *)
Definition llm_line_short_timestamps : str :=
  lit "a1b2c3d4-e5f6-7890-abcd-ef1234567890,pid,chatgpt,wid,true,1,0.50,0.90,"
  ++ quoted "hello" ++ lit "," ++ quoted "world"
  ++ lit ",2025-01-01 00:00:00,2025-01-02 00:00:00,".

Definition header : str :=
  lit "id,prompt_id,llm_provider,website_id,is_mentioned,rank_position,sentiment_score,confidence_score,response_text,summary_text,analyzed_at,created_at,analysis_session_id".

(** A competitor record whose parent is [parent_id]. *)
Definition parent_id : str := lit "c1b2c3d4-e5f6-7890-abcd-ef1234567890".
Definition other_id : str := lit "d1b2c3d4-e5f6-7890-abcd-ef1234567890".

Definition competitor_line : str :=
  lit "a1b2c3d4-e5f6-7890-abcd-ef1234567890,b1b2c3d4-e5f6-7890-abcd-ef1234567890,c1b2c3d4-e5f6-7890-abcd-ef1234567890,chatgpt,true,1,0.50,0.90,"
  ++ quoted "hello, you" ++ lit "," ++ quoted "world"
  ++ lit ",2025-01-01 00:00:00.000000+00,2025-01-02 00:00:00.000000+00,pp,ss".

Definition competitor_record : record :=
  [lit "a1b2c3d4-e5f6-7890-abcd-ef1234567890";
   lit "b1b2c3d4-e5f6-7890-abcd-ef1234567890";
   parent_id; lit "chatgpt"; lit "true"; lit "1"; lit "0.50"; lit "0.90";
   lit "hello, you"; lit "world"; lit "2025-01-01 00:00:00.000000+00";
   lit "2025-01-02 00:00:00.000000+00"; lit "pp"; lit "ss"].

(** A row of 13 fields whose last field is not a UUID. *)
Definition row_with_bad_session : record :=
  [lit "a1b2c3d4-e5f6-7890-abcd-ef1234567890";
   lit "b1b2c3d4-e5f6-7890-abcd-ef1234567890";
   lit "chatgpt";
   lit "c1b2c3d4-e5f6-7890-abcd-ef1234567890";
   lit "true"; lit "1"; lit "0.50"; lit "0.90"; lit "hello"; lit "world";
   lit "2025-01-01 00:00:00.000000+00"; lit "2025-01-01 00:00:00.000000+00";
   lit "not-a-uuid"].

(** A text of 50001 characters, and one of 50000 followed by a NUL. *)
Definition long_text : str := replicate (Z.to_nat 50001) "a".
Definition long_text_with_nul : str :=
  replicate (Z.to_nat 50000) "a" ++ ["000"].

(** The record of the scenario broken in two physical lines inside its
    response text, after the header line. *)
Definition broken_header : str := header ++ ["010"].
Definition broken_body : list str :=
  [lit "a1b2c3d4-e5f6-7890-abcd-ef1234567890,pid,chatgpt,wid,true,1,0.50,0.90,"
   ++ [dq] ++ lit "hel" ++ ["010"];
   lit "lo" ++ [dq] ++ lit "," ++ quoted "world"
   ++ lit ",2025-01-01 00:00:00.000000+00,2025-01-01 00:00:00.000000+00,"
   ++ ["010"]].

End Sample.

(** * Properties *)

(** ** Python primitives *)

Lemma length_split_pos d s : 0 < length (split d s).
Proof.
  induction s as [|c s IH]; simpl; [lia|].
  destruct (decide (c = d)); simpl; [lia|].
  destruct (split d s); simpl; lia.
Qed.

Lemma last_two_snoc {A} (l : list A) (y z : A) :
  last_two (l ++ [y; z]) = Some (y, z).
Proof.
  unfold last_two. by rewrite reverse_app.
Qed.

Lemma last_two_short {A} (l : list A) :
  length l < 2 → last_two l = None.
Proof.
  intros Hlen. unfold last_two.
  assert (Hrev : length (reverse l) < 2) by by rewrite length_reverse.
  destruct (reverse l) as [|z [|y r]]; simpl in *; try done; lia.
Qed.

Lemma last_two_Some {A} (l : list A) (y z : A) :
  last_two l = Some (y, z) → ∃ l', l = l' ++ [y; z].
Proof.
  unfold last_two. intros H.
  destruct (reverse l) as [|z' [|y' r]] eqn:E; simplify_eq.
  exists (reverse r).
  rewrite <- (reverse_involutive l), E.
  rewrite !reverse_cons, <- app_assoc. done.
Qed.

(** ** Regular expressions *)

Lemma run_le p n s : run p (Some n) s ≤ n.
Proof.
  revert n. induction s as [|c s IH]; intros [|n]; simpl; try lia.
  destruct (p c); [|lia]. specialize (IH n). lia.
Qed.

Lemma run_full p n s :
  run p (Some n) s = n ↔
  ∃ g s', s = g ++ s' ∧ length g = n ∧ Forall (λ c, p c = true) g.
Proof.
  revert n. induction s as [|c s IH]; intros [|n]; simpl.
  - split; [|done]. intros _. by exists [], [].
  - split; [done|]. intros (g & s' & Hs & Hg & _).
    symmetry in Hs. apply app_eq_nil in Hs as [-> _]. done.
  - split; [|done]. intros _. by exists [], (c :: s).
  - destruct (p c) eqn:Hc.
    + split.
      * intros [= Hrun]. apply IH in Hrun as (g & s' & -> & Hg & Hall).
        exists (c :: g), s'. repeat split; simpl; [by f_equal|].
        by constructor.
      * intros (g & s' & Hs & Hg & Hall). f_equal. apply IH.
        destruct g as [|c' g]; [done|]. simpl in *.
        injection Hs as -> ->. injection Hg as Hg.
        apply Forall_cons in Hall as [_ Hall]. by exists g, s'.
    + split; [done|]. intros (g & s' & Hs & Hg & Hall).
      destruct g as [|c' g]; [done|]. simpl in *. injection Hs as -> ->.
      apply Forall_cons in Hall as [Hc' _]. congruence.
Qed.

Lemma try_down_exact k n rest :
  k ≤ n →
  try_down k n rest = if decide (k = n) then (λ r, n + r) <$> rest n else None.
Proof.
  intros Hk. destruct (decide (k = n)) as [->|Hne].
  - destruct n as [|n]; simpl.
    + by destruct (rest 0).
    + rewrite Nat.ltb_irrefl. destruct (rest (S n)); [done|].
      destruct n as [|n]; simpl; [done|].
      assert ((S n <? S (S n)) = true) as -> by (apply Nat.ltb_lt; lia). done.
  - destruct k as [|k]; simpl.
    + destruct n; [done|]. done.
    + assert ((S k <? n) = true) as -> by (apply Nat.ltb_lt; lia). done.
Qed.

(** On a pattern of exact items the matcher succeeds exactly on the
    strings that conform to it. *)
Lemma match_items_exact p s :
  Forall exact p → is_Some (match_items p s) ↔ conforms p s.
Proof.
  intros Hp. revert s. induction Hp as [|it p Hit Hp IH]; intros s; simpl.
  - split; [done|]. by eexists.
  - unfold exact in Hit. rewrite Hit.
    rewrite try_down_exact by apply run_le.
    destruct (decide (run (cls it) (Some (lo it)) s = lo it)) as [Hrun|Hrun].
    + apply run_full in Hrun as Hshape. destruct Hshape as (g & s' & -> & Hg & Hall).
      rewrite <- Hg, drop_app_length. rewrite fmap_is_Some, IH. split.
      * intros Hrest. by exists g, s'.
      * intros (g' & s'' & Hs & Hg' & _ & Hrest).
        apply app_inj_1 in Hs as [_ <-]; [done|lia].
    + split; [by intros [? ?]|].
      intros (g & s' & Hs & Hg & Hall & _). destruct Hrun.
      apply run_full. by exists g, s'.
Qed.

(** The record-start anchor: eight, four, four, four and twelve
    lower-case hexadecimal digits separated by hyphens, then a comma. *)
Lemma is_record_start_shape line :
  is_record_start line = true ↔ conforms uuid_pattern line.
Proof.
  unfold is_record_start, matches.
  rewrite <- match_items_exact by (repeat constructor).
  destruct (match_items uuid_pattern line).
  - split; [by eexists|done].
  - split; [done|by intros [? ?]].
Qed.

(** Every match reported by [finditer] is a match of the pattern at its
    start position, and ends where this match ends. *)
Lemma finditer_from_sound p pos skip s m :
  m ∈ finditer_from p pos skip s →
  ∃ k, m_start m = pos + k ∧ skip ≤ k ∧ k ≤ length s
       ∧ match_items p (drop k s) = Some (m_end m - m_start m)
       ∧ m_start m ≤ m_end m.
Proof.
  revert pos skip. induction s as [|c s IH]; intros pos skip.
  - destruct skip as [|skip]; simpl; [|by intros ?%elem_of_nil].
    destruct (match_items p []) as [n|] eqn:Hm; [|by intros ?%elem_of_nil].
    intros ->%list_elem_of_singleton. exists 0. simpl.
    repeat split; try lia. rewrite Hm. f_equal. lia.
  - destruct skip as [|skip]; simpl.
    + destruct (match_items p (c :: s)) as [n|] eqn:Hm.
      * intros [->|Hin]%elem_of_cons.
        -- exists 0. simpl. repeat split; try lia. rewrite Hm. f_equal. lia.
        -- apply IH in Hin as (k & Hstart & _ & Hk & Hmatch & Hle).
           exists (S k). simpl. repeat split; try done; lia.
      * intros Hin. apply IH in Hin as (k & Hstart & _ & Hk & Hmatch & Hle).
        exists (S k). simpl. repeat split; try done; lia.
    + intros Hin. apply IH in Hin as (k & Hstart & Hskip & Hk & Hmatch & Hle).
      exists (S k). simpl. repeat split; try done; lia.
Qed.

Lemma finditer_sound p s m :
  m ∈ finditer p s →
  m_start m ≤ length s
  ∧ match_items p (drop (m_start m) s) = Some (m_end m - m_start m)
  ∧ m_start m ≤ m_end m.
Proof.
  intros Hin. apply finditer_from_sound in Hin as (k & -> & _ & ? & ? & ?).
  done.
Qed.

(** ** The segmenter *)

Lemma segment_from_concat cur body :
  concat (segment_from cur body) =
  match cur with
  | [] => drop_orphans (rstrip_newline <$> body)
  | _ :: _ => cur ++ (rstrip_newline <$> body)
  end.
Proof.
  revert cur. induction body as [|raw body IH]; intros cur; simpl.
  - destruct cur; simpl; by rewrite ?app_nil_r.
  - destruct (is_record_start (rstrip_newline raw)) eqn:Hstart.
    + rewrite concat_app, IH. destruct cur; simpl; [done|].
      by rewrite app_nil_r.
    + destruct cur as [|c cur]; rewrite IH; [done|].
      simpl. by rewrite <- app_assoc.
Qed.

Lemma logical_record_snoc g l :
  logical_record g → is_record_start l = false → logical_record (g ++ [l]).
Proof.
  intros (h & t & -> & Hh & Ht) Hl. exists h, (t ++ [l]).
  split; [done|]. split; [done|]. apply Forall_app. by split; [|constructor].
Qed.

Lemma segment_from_logical cur body :
  cur = [] ∨ logical_record cur →
  Forall logical_record (segment_from cur body).
Proof.
  revert cur. induction body as [|raw body IH]; intros cur Hcur; simpl.
  - destruct cur; [constructor|]. destruct Hcur as [?|?]; [done|].
    by repeat constructor.
  - destruct (is_record_start (rstrip_newline raw)) eqn:Hstart.
    + apply Forall_app. split.
      * destruct cur; [constructor|]. destruct Hcur as [?|?]; [done|].
        by repeat constructor.
      * apply IH. right. exists (rstrip_newline raw), []. by repeat split.
    + destruct cur as [|c cur]; [by apply IH; left|].
      apply IH. right. destruct Hcur as [?|?]; [done|].
      by apply logical_record_snoc.
Qed.

(** Every loop is the segmenter followed by the treatment of each group. *)

Lemma final_loop_segments st body :
  FixCsvFinal.records (FixCsvFinal.finish (foldl FixCsvFinal.step st body)) =
  FixCsvFinal.records st
  ++ omap resolve_final (segment_from (FixCsvFinal.current_record_lines st) body).
Proof.
  revert st. induction body as [|raw body IH]; intros [recs cur n]; simpl.
  - unfold FixCsvFinal.finish, FixCsvFinal.flush, resolve_final; simpl.
    destruct cur as [|c cur]; simpl; [by rewrite app_nil_r|].
    destruct (FixCsvFinal.process_record_lines (c :: cur)) as [[|f fs]|];
      simpl; by rewrite ?app_nil_r.
  - rewrite IH. unfold FixCsvFinal.step; simpl.
    destruct (is_record_start (rstrip_newline raw)) eqn:Hstart; simpl.
    + rewrite omap_app. destruct cur as [|c cur]; simpl; [done|].
      unfold FixCsvFinal.flush, resolve_final; simpl.
      destruct (FixCsvFinal.process_record_lines (c :: cur)) as [[|f fs]|];
        simpl; by rewrite <- ?app_assoc.
    + by destruct cur.
Qed.

Lemma competitor_check_records ids st rec :
  FixCompetitorCsv.records (FixCompetitorCsv.check_foreign_key ids st rec) =
  FixCompetitorCsv.records st ++ option_list (has_valid_parent ids rec).
Proof.
  unfold FixCompetitorCsv.check_foreign_key, has_valid_parent.
  destruct (decide _); simpl; by rewrite ?app_nil_r.
Qed.

Lemma competitor_loop_segments ids st body :
  FixCompetitorCsv.records
    (FixCompetitorCsv.finish ids (foldl (FixCompetitorCsv.step ids) st body)) =
  FixCompetitorCsv.records st
  ++ omap (resolve_competitor ids)
          (segment_from (FixCompetitorCsv.current_record_lines st) body).
Proof.
  revert st. induction body as [|raw body IH]; intros st; simpl.
  - unfold FixCompetitorCsv.finish, FixCompetitorCsv.process_final,
      resolve_competitor.
    destruct (FixCompetitorCsv.current_record_lines st) as [|c cur] eqn:Hcur;
      simpl; [by rewrite app_nil_r|].
    destruct (FixCompetitorCsv.accepted_shape _) as [rec|]; simpl.
    + rewrite competitor_check_records.
      by destruct (has_valid_parent ids rec).
    + by rewrite app_nil_r.
  - rewrite IH. unfold FixCompetitorCsv.step; simpl.
    destruct (is_record_start (rstrip_newline raw)) eqn:Hstart; simpl.
    + rewrite omap_app.
      destruct (FixCompetitorCsv.current_record_lines st) as [|c cur] eqn:Hcur;
        simpl; [done|].
      unfold FixCompetitorCsv.process_previous, resolve_competitor.
      rewrite Hcur.
      destruct (FixCompetitorCsv.accepted_shape _) as [rec|]; simpl.
      * rewrite competitor_check_records.
        destruct (has_valid_parent ids rec); simpl; by rewrite <- ?app_assoc.
      * done.
    + destruct (FixCompetitorCsv.current_record_lines st) eqn:Hcur; simpl;
        by rewrite ?Hcur.
Qed.

Lemma competitor_final_check_records ids st rec :
  FixCompetitorCsvFinal.records
    (FixCompetitorCsvFinal.check_foreign_key ids st rec) =
  FixCompetitorCsvFinal.records st ++ option_list (has_valid_parent ids rec).
Proof.
  unfold FixCompetitorCsvFinal.check_foreign_key, has_valid_parent.
  destruct (decide _); simpl; by rewrite ?app_nil_r.
Qed.

Lemma competitor_final_process_records ids st :
  FixCompetitorCsvFinal.records (FixCompetitorCsvFinal.process_record ids st) =
  FixCompetitorCsvFinal.records st
  ++ option_list (resolve_competitor_final ids
                    (FixCompetitorCsvFinal.current_record_lines st)).
Proof.
  unfold FixCompetitorCsvFinal.process_record, resolve_competitor_final.
  destruct (FixCompetitorCsv.accepted_shape _) as [rec|]; simpl.
  - apply competitor_final_check_records.
  - by rewrite app_nil_r.
Qed.

Lemma competitor_final_process_current ids st :
  FixCompetitorCsvFinal.current_record_lines
    (FixCompetitorCsvFinal.process_record ids st) =
  FixCompetitorCsvFinal.current_record_lines st.
Proof.
  unfold FixCompetitorCsvFinal.process_record,
    FixCompetitorCsvFinal.check_foreign_key.
  destruct (FixCompetitorCsv.accepted_shape _); [|done].
  by destruct (decide _).
Qed.

Lemma competitor_final_loop_segments ids st body :
  FixCompetitorCsvFinal.records
    (FixCompetitorCsvFinal.finish ids
       (foldl (FixCompetitorCsvFinal.step ids) st body)) =
  FixCompetitorCsvFinal.records st
  ++ omap (resolve_competitor_final ids)
          (segment_from (FixCompetitorCsvFinal.current_record_lines st) body).
Proof.
  revert st. induction body as [|raw body IH]; intros st; simpl.
  - unfold FixCompetitorCsvFinal.finish.
    destruct (FixCompetitorCsvFinal.current_record_lines st) as [|c cur] eqn:Hcur;
      simpl; [by rewrite app_nil_r|].
    rewrite competitor_final_process_records, Hcur.
    by destruct (resolve_competitor_final ids (c :: cur)).
  - rewrite IH. unfold FixCompetitorCsvFinal.step; simpl.
    destruct (is_record_start (rstrip_newline raw)) eqn:Hstart; simpl.
    + rewrite omap_app.
      destruct (FixCompetitorCsvFinal.current_record_lines st) as [|c cur] eqn:Hcur;
        simpl; [done|].
      rewrite competitor_final_process_records, Hcur.
      destruct (resolve_competitor_final ids (c :: cur)); simpl;
        by rewrite <- ?app_assoc, ?app_nil_r.
    + destruct (FixCompetitorCsvFinal.current_record_lines st) eqn:Hcur; simpl;
        by rewrite ?Hcur.
Qed.

Lemma clean_process_records st :
  CreateCleanCsv.records (CreateCleanCsv.process_record st) =
  CreateCleanCsv.records st
  ++ option_list (resolve_clean (CreateCleanCsv.current_record_lines st)).
Proof.
  unfold CreateCleanCsv.process_record, resolve_clean.
  destruct (CreateCleanCsv.accepted_shape _); simpl; by rewrite ?app_nil_r.
Qed.

Lemma clean_loop_unlimited st body :
  CreateCleanCsv.loop None st body = foldl CreateCleanCsv.step st body.
Proof.
  revert st. induction body as [|raw body IH]; intros st; simpl; [done|].
  apply IH.
Qed.

Lemma clean_loop_segments st body :
  CreateCleanCsv.records
    (CreateCleanCsv.finish (foldl CreateCleanCsv.step st body)) =
  CreateCleanCsv.records st
  ++ omap resolve_clean
          (segment_from (CreateCleanCsv.current_record_lines st) body).
Proof.
  revert st. induction body as [|raw body IH]; intros [recs cur n]; simpl.
  - unfold CreateCleanCsv.finish; simpl.
    destruct cur as [|c cur]; simpl; [by rewrite app_nil_r|].
    rewrite clean_process_records; simpl.
    by destruct (resolve_clean (c :: cur)).
  - rewrite IH. unfold CreateCleanCsv.step; simpl.
    destruct (is_record_start (rstrip_newline raw)) eqn:Hstart; simpl.
    + rewrite omap_app. destruct cur as [|c cur]; simpl; [done|].
      rewrite clean_process_records; simpl.
      destruct (resolve_clean (c :: cur)); simpl;
        by rewrite <- ?app_assoc, ?app_nil_r.
    + by destruct cur.
Qed.

(** A record-start line begins with a hexadecimal digit, which is not
    white space: the text of an open record is never blank. *)

Lemma try_down_Some k lo rest r :
  try_down k lo rest = Some r → lo ≤ k.
Proof.
  revert r. induction k as [|k IH]; intros r; simpl.
  - destruct lo; simpl; [lia|done].
  - destruct (S k <? lo) eqn:Hlt; [done|].
    apply Nat.ltb_ge in Hlt. lia.
Qed.

Lemma run_pos p limit s :
  0 < run p limit s → ∃ c s', s = c :: s' ∧ p c = true.
Proof.
  destruct s as [|c s']; simpl.
  - destruct limit as [[|?]|]; lia.
  - destruct limit as [[|?]|]; simpl; [lia| |];
      destruct (p c) eqn:Hp; try lia; eauto.
Qed.

Lemma lower_hex_not_space c : is_lower_hex c = true → isspace c = false.
Proof. destruct c as [[] [] [] [] [] [] [] []]; by vm_compute. Qed.

Lemma record_start_head line :
  is_record_start line = true →
  ∃ c rest, line = c :: rest ∧ isspace c = false.
Proof.
  unfold is_record_start, matches. intros H.
  destruct (match_items uuid_pattern line) as [n|] eqn:Hm; [|done].
  simpl in Hm. apply try_down_Some in Hm.
  destruct (run_pos is_lower_hex (Some 8) line) as (c & rest & -> & Hc); [lia|].
  exists c, rest. split; [done|]. by apply lower_hex_not_space.
Qed.

Lemma lstrip_by_snoc_nonempty p s c :
  p c = false → lstrip_by p (s ++ [c]) ≠ [].
Proof.
  intros Hc. induction s as [|x s IH]; simpl.
  - by rewrite Hc.
  - destruct (p x); [done|]. done.
Qed.

Lemma strip_nonblank c rest :
  isspace c = false → strip (c :: rest) ≠ [].
Proof.
  intros Hc. unfold strip, strip_by, rstrip_by; simpl. rewrite Hc.
  rewrite reverse_cons. intros Hnil.
  apply (f_equal reverse) in Hnil. rewrite reverse_involutive in Hnil.
  by apply (lstrip_by_snoc_nonempty isspace (reverse rest) c).
Qed.

Lemma join_snoc sep p ps l :
  join sep ((p :: ps) ++ [l]) = join sep (p :: ps) ++ sep ++ l.
Proof.
  revert p. induction ps as [|q ps IH]; intros p; [done|].
  change (join sep ((p :: q :: ps) ++ [l]))
    with (p ++ sep ++ join sep ((q :: ps) ++ [l])).
  rewrite IH. change (join sep (p :: q :: ps)) with (p ++ sep ++ join sep (q :: ps)).
  by rewrite <- !app_assoc.
Qed.

Lemma join_logical_record g :
  logical_record g →
  ∃ c rest, join [" "] g = c :: rest ∧ isspace c = false.
Proof.
  intros (h & t & -> & Hh & _).
  destruct (record_start_head h Hh) as (c & rest & -> & Hc).
  destruct t as [|l t]; simpl; eauto.
Qed.

Lemma simple_save_group st g :
  logical_record g → FixCsvSimple.current_record st = join [" "] g →
  FixCsvSimple.fixed_lines (FixCsvSimple.save st) =
  FixCsvSimple.fixed_lines st ++ [resolve_simple g].
Proof.
  intros Hg Hcur. unfold FixCsvSimple.save, resolve_simple. rewrite Hcur.
  destruct (join_logical_record g Hg) as (c & rest & -> & Hc).
  pose proof (strip_nonblank c rest Hc).
  by destruct (strip (c :: rest)).
Qed.

Lemma simple_loop_segments st cur body :
  cur = [] ∨ logical_record cur →
  FixCsvSimple.current_record st = join [" "] cur →
  FixCsvSimple.fixed_lines (FixCsvSimple.save (foldl FixCsvSimple.step st body)) =
  FixCsvSimple.fixed_lines st ++ (resolve_simple <$> segment_from cur body).
Proof.
  revert st cur. induction body as [|raw body IH]; intros st cur Hcur Hst; simpl.
  - destruct Hcur as [->|Hg].
    + unfold FixCsvSimple.save. rewrite Hst. simpl. by rewrite app_nil_r.
    + rewrite (simple_save_group st cur Hg Hst).
      destruct Hg as (h & t & -> & _). done.
  - unfold FixCsvSimple.step at 2.
    destruct (is_record_start (rstrip_newline raw)) eqn:Hstart.
    + rewrite (IH _ [rstrip_newline raw]); simpl; [| |done].
      * rewrite fmap_app, app_assoc. f_equal.
        destruct Hcur as [->|Hg].
        -- unfold FixCsvSimple.save. rewrite Hst. simpl. by rewrite app_nil_r.
        -- rewrite (simple_save_group st cur Hg Hst).
           destruct Hg as (h & t & -> & _). done.
      * right. exists (rstrip_newline raw), []. by repeat split.
    + destruct Hcur as [->|Hg].
      * rewrite Hst. simpl. by apply IH; [left|].
      * destruct (join_logical_record cur Hg) as (c & rest & Hj & Hc).
        rewrite Hst, Hj. pose proof Hg as (h & t & -> & _).
        rewrite (IH _ ((h :: t) ++ [rstrip_newline raw])); [done| |].
        -- right. by apply logical_record_snoc.
        -- simpl FixCsvSimple.current_record. by rewrite join_snoc, Hj.
Qed.

(** Inside the loop, before the final record is handled: the groups are
    the closed ones, already treated, followed by the open one. *)

Lemma final_loop_invariant st body :
  ∃ closed,
    segment_from (FixCsvFinal.current_record_lines st) body =
      closed ++ flushed (FixCsvFinal.current_record_lines
                           (foldl FixCsvFinal.step st body))
    ∧ FixCsvFinal.records (foldl FixCsvFinal.step st body) =
      FixCsvFinal.records st ++ omap resolve_final closed.
Proof.
  revert st. induction body as [|raw body IH]; intros [recs cur n]; simpl.
  - exists []. by rewrite app_nil_r.
  - unfold FixCsvFinal.step at 2 4; simpl.
    destruct (is_record_start (rstrip_newline raw)) eqn:Hstart.
    + match goal with
      | |- context [foldl FixCsvFinal.step ?s body] =>
          destruct (IH s) as (closed & Hseg & Hrec)
      end.
      simpl in Hseg. rewrite Hseg, Hrec. simpl.
      exists (flushed cur ++ closed). split; [by rewrite app_assoc|].
      rewrite omap_app, app_assoc. f_equal.
      destruct cur as [|c cur]; simpl; [by rewrite app_nil_r|].
      unfold FixCsvFinal.flush, resolve_final; simpl.
      destruct (FixCsvFinal.process_record_lines (c :: cur)) as [[|f fs]|];
        simpl; by rewrite ?app_nil_r.
    + destruct cur as [|c cur];
        match goal with
        | |- context [foldl FixCsvFinal.step ?s body] => apply (IH s)
        end.
Qed.

Lemma competitor_loop_invariant ids st body :
  ∃ closed,
    segment_from (FixCompetitorCsv.current_record_lines st) body =
      closed ++ flushed (FixCompetitorCsv.current_record_lines
                           (foldl (FixCompetitorCsv.step ids) st body))
    ∧ FixCompetitorCsv.records (foldl (FixCompetitorCsv.step ids) st body) =
      FixCompetitorCsv.records st ++ omap (resolve_competitor ids) closed.
Proof.
  revert st. induction body as [|raw body IH]; intros [recs cur t v f m]; simpl.
  - exists []. by rewrite app_nil_r.
  - unfold FixCompetitorCsv.step at 2 4; simpl.
    destruct (is_record_start (rstrip_newline raw)) eqn:Hstart.
    + match goal with
      | |- context [foldl (FixCompetitorCsv.step ids) ?s body] =>
          destruct (IH s) as (closed & Hseg & Hrec)
      end.
      simpl in Hseg. rewrite Hseg, Hrec. simpl.
      exists (flushed cur ++ closed). split; [by rewrite app_assoc|].
      rewrite omap_app, app_assoc. f_equal.
      destruct cur as [|c cur]; simpl; [by rewrite app_nil_r|].
      unfold FixCompetitorCsv.process_previous, resolve_competitor; simpl.
      destruct (FixCompetitorCsv.accepted_shape _) as [rec|]; simpl.
      * rewrite competitor_check_records; simpl.
        by destruct (has_valid_parent ids rec).
      * by rewrite app_nil_r.
    + destruct cur as [|c cur];
        match goal with
        | |- context [foldl (FixCompetitorCsv.step ids) ?s body] =>
            apply (IH s)
        end.
Qed.

(** C3: the record segmenter.  For every sequence of lines after the
    header, the groups formed by the loops of [fix_csv_final] and
    [fix_competitor_csv] are those of [segment_records]: put end to end
    they are the lines (newline stripped) from the first record-start line
    on, so a line that comes before any record start is discarded and
    nothing else is lost; each group starts with a line matching the
    UUID-comma anchor and has no other such line, so a record opens
    exactly at the anchors and the other lines are appended to the open
    record.  During the loop the groups are the closed ones, already
    resolved, followed by the open record; at the end of the input the
    open record is resolved as well.  The anchor is the pattern of the
    scripts: groups of 8, 4, 4, 4 and 12 lower-case hexadecimal digits
    separated by hyphens and followed by a comma, at the start of the
    line. *)
Theorem record_segmenter_correct (ids : gset str) (header : str)
    (body : list str) :
  (∀ line, is_record_start line = true ↔ conforms uuid_pattern line)
  ∧ concat (segment_records body) = drop_orphans (rstrip_newline <$> body)
  ∧ Forall logical_record (segment_records body)
  ∧ (∃ closed,
       segment_records body =
         closed ++ flushed (FixCsvFinal.current_record_lines
                              (FixCsvFinal.loop body))
       ∧ FixCsvFinal.records (FixCsvFinal.loop body) =
         omap resolve_final closed)
  ∧ FixCsvFinal.records <$> FixCsvFinal.fix_csv_final (header :: body) =
    Some (omap resolve_final (segment_records body))
  ∧ (∃ closed,
       segment_records body =
         closed ++ flushed (FixCompetitorCsv.current_record_lines
                              (FixCompetitorCsv.loop ids body))
       ∧ FixCompetitorCsv.records (FixCompetitorCsv.loop ids body) =
         omap (resolve_competitor ids) closed)
  ∧ FixCompetitorCsv.records
      (FixCompetitorCsv.fix_competitor_csv ids (header :: body)) =
    omap (resolve_competitor ids) (segment_records body).
Proof.
  unfold segment_records.
  split; [apply is_record_start_shape|]. repeat split.
  - apply segment_from_concat.
  - apply segment_from_logical. by left.
  - apply (final_loop_invariant FixCsvFinal.init).
  - simpl. f_equal. apply (final_loop_segments FixCsvFinal.init).
  - apply (competitor_loop_invariant ids FixCompetitorCsv.init).
  - apply (competitor_loop_segments ids FixCompetitorCsv.init).
Qed.

(** C9, as amended: when [create_clean_csv] runs without a record limit
    ([max_records] left to [None], its default), the four anchor-based
    scripts form the same groups from the lines after the header, those of
    [segment_records]; [fix_csv_simple] keeps each group as one line, the
    others pass it to their resolver. *)
Theorem segmenters_agree (ids : gset str) (header : str) (body : list str) :
  FixCsvSimple.fixed_lines <$> FixCsvSimple.fix_csv_simple (header :: body) =
    Some (strip header :: (resolve_simple <$> segment_records body))
  ∧ FixCsvFinal.records <$> FixCsvFinal.fix_csv_final (header :: body) =
    Some (omap resolve_final (segment_records body))
  ∧ CreateCleanCsv.records
      (CreateCleanCsv.create_clean_csv None (header :: body)) =
    omap resolve_clean (segment_records body)
  ∧ FixCompetitorCsv.records
      (FixCompetitorCsv.fix_competitor_csv ids (header :: body)) =
    omap (resolve_competitor ids) (segment_records body).
Proof.
  unfold segment_records. repeat split.
  - simpl. f_equal.
    by rewrite (simple_loop_segments _ [] body); [|left|].
  - simpl. f_equal. apply (final_loop_segments FixCsvFinal.init).
  - unfold CreateCleanCsv.create_clean_csv. simpl.
    rewrite clean_loop_unlimited.
    apply (clean_loop_segments CreateCleanCsv.init).
  - apply (competitor_loop_segments ids FixCompetitorCsv.init).
Qed.

(** C9, as stated, fails: with [max_records = 1] [create_clean_csv]
    leaves its loop after the second of three one-line records and never
    sees the third. *)
Lemma segmenters_disagree_under_limit :
  let lines := [Sample.header; Sample.llm_line; Sample.llm_line;
                Sample.llm_line] in
  CreateCleanCsv.records (CreateCleanCsv.create_clean_csv (Some 1) lines)
  ≠ omap resolve_clean (segment_records (drop 1 lines))
  ∧ length (CreateCleanCsv.records
              (CreateCleanCsv.create_clean_csv (Some 1) lines)) = 2
  ∧ length (segment_records (drop 1 lines)) = 3.
Proof.
  split; [|split]; [|by vm_compute..].
  intros H. apply (f_equal length) in H. by vm_compute in H.
Qed.

(** ** Arity of the accepted records *)

Lemma process_record_lines_length lines r :
  FixCsvFinal.process_record_lines lines = Some r → length r = 13.
Proof.
  unfold FixCsvFinal.process_record_lines.
  destruct (length (split "," (strip (join [" "] lines))) <? 13) eqn:Hlen;
    [done|].
  apply Nat.ltb_ge in Hlen.
  destruct (last_two _) as [[second_last last]|]; [|done].
  destruct (FixCsvFinal.split_text _) as [response_only summary_text].
  intros [= <-].
  rewrite length_take, length_app, length_take.
  change (length [response_only; summary_text;
                  strip (join [","] (slice second_last last
                           (drop 8 (split "," (strip (join [" "] lines))))));
                  strip (join [","] (slice last (last + 1)
                           (drop 8 (split "," (strip (join [" "] lines))))));
                  strip (join [","] (drop (last + 1)
                           (drop 8 (split "," (strip (join [" "] lines))))))])
    with 5.
  lia.
Qed.

Lemma resolve_final_length g r : resolve_final g = Some r → length r = 13.
Proof.
  unfold resolve_final.
  destruct (FixCsvFinal.process_record_lines g) as [[|f fs]|] eqn:H; try done.
  intros [= <-]. by apply (process_record_lines_length g).
Qed.

Lemma accepted_shape_length r rec :
  FixCompetitorCsv.accepted_shape r = Some rec → r = Some rec ∧ length rec = 14.
Proof.
  unfold FixCompetitorCsv.accepted_shape. destruct r as [rec'|]; [|done].
  destruct (decide (length rec' = 14)); [|done]. by intros [= <-].
Qed.

Lemma has_valid_parent_Some ids rec rec' :
  has_valid_parent ids rec = Some rec' →
  rec' = rec ∧ default [] (rec !! 2) ∈ ids.
Proof.
  unfold has_valid_parent. destruct (decide _); [|done]. by intros [= <-].
Qed.

Lemma resolve_competitor_Some ids g rec :
  resolve_competitor ids g = Some rec →
  FixCompetitorCsv.parse_competitor_record g = Some rec
  ∧ length rec = 14 ∧ default [] (rec !! 2) ∈ ids.
Proof.
  unfold resolve_competitor. intros H.
  apply bind_Some in H as (rec' & Hshape & Hfk).
  apply accepted_shape_length in Hshape as [Hparse Hlen].
  apply has_valid_parent_Some in Hfk as [-> Hin]. done.
Qed.

Lemma resolve_competitor_final_Some ids g rec :
  resolve_competitor_final ids g = Some rec →
  FixCompetitorCsvFinal.parse_competitor_record_robust g = Some rec
  ∧ length rec = 14 ∧ default [] (rec !! 2) ∈ ids.
Proof.
  unfold resolve_competitor_final. intros H.
  apply bind_Some in H as (rec' & Hshape & Hfk).
  apply accepted_shape_length in Hshape as [Hparse Hlen].
  apply has_valid_parent_Some in Hfk as [-> Hin]. done.
Qed.

Lemma clean_records_arity max_records st body :
  Forall (λ r, length r = 13) (CreateCleanCsv.records st) →
  Forall (λ r, length r = 13)
    (CreateCleanCsv.records
       (CreateCleanCsv.finish (CreateCleanCsv.loop max_records st body))).
Proof.
  assert (Hproc : ∀ st, Forall (λ r : record, length r = 13)
                          (CreateCleanCsv.records st) →
            Forall (λ r : record, length r = 13)
              (CreateCleanCsv.records (CreateCleanCsv.process_record st))).
  { intros st' H. unfold CreateCleanCsv.process_record,
      CreateCleanCsv.accepted_shape.
    destruct (CreateCleanCsv.parse_record_lines _) as [rec|]; [|done].
    destruct (decide (length rec = 13)); [|done]. simpl.
    apply Forall_app. split; [done|]. by repeat constructor. }
  assert (Hfin : ∀ st, Forall (λ r : record, length r = 13)
                         (CreateCleanCsv.records st) →
            Forall (λ r : record, length r = 13)
              (CreateCleanCsv.records (CreateCleanCsv.finish st))).
  { intros st' H. unfold CreateCleanCsv.finish.
    destruct (CreateCleanCsv.current_record_lines st'); [done|].
    by apply Hproc. }
  revert st. induction body as [|raw body IH]; intros st H; simpl.
  - by apply Hfin.
  - destruct (CreateCleanCsv.limit_reached max_records st); [by apply Hfin|].
    apply IH. unfold CreateCleanCsv.step.
    destruct (is_record_start _); simpl.
    + destruct (CreateCleanCsv.current_record_lines st); [done|].
      by apply Hproc.
    + by destruct (CreateCleanCsv.current_record_lines st).
Qed.

(** C5: every record accepted for the writer has exactly as many fields as
    the schema has columns: 13 in [fix_csv_final] and [create_clean_csv]
    (LLM analysis results), whatever the record limit, and 14 in
    [fix_competitor_csv] and [fix_competitor_csv_final] (competitor
    analysis results). *)
Theorem accepted_records_have_schema_arity (ids : gset str)
    (max_records : option nat) (header : str) (body : list str) :
  Forall (λ r, length r = 13)
    (from_option FixCsvFinal.records []
       (FixCsvFinal.fix_csv_final (header :: body)))
  ∧ Forall (λ r, length r = 13)
      (CreateCleanCsv.records
         (CreateCleanCsv.create_clean_csv max_records (header :: body)))
  ∧ Forall (λ r, length r = 14)
      (FixCompetitorCsv.records
         (FixCompetitorCsv.fix_competitor_csv ids (header :: body)))
  ∧ Forall (λ r, length r = 14)
      (FixCompetitorCsvFinal.records
         (FixCompetitorCsvFinal.fix_competitor_csv_final ids (header :: body))).
Proof.
  repeat split.
  - simpl. rewrite (final_loop_segments FixCsvFinal.init). simpl.
    apply Forall_forall. intros r Hr.
    apply list_elem_of_omap in Hr as (g & _ & Hg).
    by apply (resolve_final_length g).
  - by apply clean_records_arity.
  - unfold FixCompetitorCsv.fix_competitor_csv, FixCompetitorCsv.loop.
    change (drop 1 (header :: body)) with body.
    rewrite (competitor_loop_segments ids FixCompetitorCsv.init). simpl.
    apply Forall_forall. intros r Hr.
    apply list_elem_of_omap in Hr as (g & _ & Hg).
    by apply resolve_competitor_Some in Hg as (_ & ? & _).
  - unfold FixCompetitorCsvFinal.fix_competitor_csv_final,
      FixCompetitorCsvFinal.loop.
    change (drop 1 (header :: body)) with body.
    rewrite (competitor_final_loop_segments ids FixCompetitorCsvFinal.init).
    simpl. apply Forall_forall. intros r Hr.
    apply list_elem_of_omap in Hr as (g & _ & Hg).
    by apply resolve_competitor_final_Some in Hg as (_ & ? & _).
Qed.

(** ** Counters and the foreign key in the competitor scripts *)

Lemma check_foreign_key_consistent ids st rec :
  consistent st → consistent (FixCompetitorCsv.check_foreign_key ids st rec).
Proof.
  unfold consistent, counters_consistent, FixCompetitorCsv.check_foreign_key.
  intros [Htotal Hlen]. destruct (decide _); simpl;
    rewrite ?length_app; simpl; lia.
Qed.

Lemma process_previous_consistent ids st :
  consistent st → consistent (FixCompetitorCsv.process_previous ids st).
Proof.
  intros H. unfold FixCompetitorCsv.process_previous.
  destruct (FixCompetitorCsv.accepted_shape _); [|done].
  by apply check_foreign_key_consistent.
Qed.

Lemma finish_consistent ids st :
  consistent st → consistent (FixCompetitorCsv.finish ids st).
Proof.
  intros H. unfold FixCompetitorCsv.finish, FixCompetitorCsv.process_final.
  destruct (FixCompetitorCsv.current_record_lines st); [done|].
  destruct (FixCompetitorCsv.accepted_shape _); [|done].
  by apply check_foreign_key_consistent.
Qed.

Lemma step_consistent ids st raw :
  consistent st → consistent (FixCompetitorCsv.step ids st raw).
Proof.
  intros H. unfold FixCompetitorCsv.step.
  destruct (is_record_start _).
  - destruct (FixCompetitorCsv.current_record_lines st); [done|].
    by apply (process_previous_consistent ids) in H.
  - by destruct (FixCompetitorCsv.current_record_lines st).
Qed.

Lemma foldl_step_consistent ids st body :
  consistent st → consistent (foldl (FixCompetitorCsv.step ids) st body).
Proof.
  revert st. induction body as [|raw body IH]; intros st H; simpl; [done|].
  by apply IH, step_consistent.
Qed.

Lemma check_foreign_key_consistent_final ids st rec :
  consistent_final st →
  consistent_final (FixCompetitorCsvFinal.check_foreign_key ids st rec).
Proof.
  unfold consistent_final, counters_consistent,
    FixCompetitorCsvFinal.check_foreign_key.
  intros [Htotal Hlen]. destruct (decide _); simpl;
    rewrite ?length_app; simpl; lia.
Qed.

Lemma process_record_consistent_final ids st :
  consistent_final st →
  consistent_final (FixCompetitorCsvFinal.process_record ids st).
Proof.
  intros H. unfold FixCompetitorCsvFinal.process_record.
  destruct (FixCompetitorCsv.accepted_shape _); [|done].
  by apply check_foreign_key_consistent_final.
Qed.

Lemma finish_consistent_final ids st :
  consistent_final st → consistent_final (FixCompetitorCsvFinal.finish ids st).
Proof.
  intros H. unfold FixCompetitorCsvFinal.finish.
  destruct (FixCompetitorCsvFinal.current_record_lines st); [done|].
  by apply process_record_consistent_final.
Qed.

Lemma step_consistent_final ids st raw :
  consistent_final st →
  consistent_final (FixCompetitorCsvFinal.step ids st raw).
Proof.
  intros H. unfold FixCompetitorCsvFinal.step.
  destruct (is_record_start _).
  - destruct (FixCompetitorCsvFinal.current_record_lines st); [done|].
    by apply (process_record_consistent_final ids) in H.
  - by destruct (FixCompetitorCsvFinal.current_record_lines st).
Qed.

Lemma foldl_step_consistent_final ids st body :
  consistent_final st →
  consistent_final (foldl (FixCompetitorCsvFinal.step ids) st body).
Proof.
  revert st. induction body as [|raw body IH]; intros st H; simpl; [done|].
  by apply IH, step_consistent_final.
Qed.

Lemma segment_from_nonempty c cur body : segment_from (c :: cur) body ≠ [].
Proof.
  revert c cur. induction body as [|raw body IH]; intros c cur; simpl; [done|].
  destruct (is_record_start (rstrip_newline raw)); [done|apply IH].
Qed.

Lemma competitor_check_counts ids st rec :
  let st' := FixCompetitorCsv.check_foreign_key ids st rec in
  FixCompetitorCsv.total_processed st' = S (FixCompetitorCsv.total_processed st)
  ∧ FixCompetitorCsv.malformed_records st' = FixCompetitorCsv.malformed_records st
  ∧ FixCompetitorCsv.current_record_lines st' =
    FixCompetitorCsv.current_record_lines st.
Proof.
  unfold FixCompetitorCsv.check_foreign_key. simpl.
  by destruct (decide (_ ∈ ids)).
Qed.

Lemma competitor_previous_counts ids st :
  let cur := FixCompetitorCsv.current_record_lines st in
  let st' := FixCompetitorCsv.process_previous ids st in
  FixCompetitorCsv.total_processed st' =
    FixCompetitorCsv.total_processed st + length (List.filter well_shaped [cur])
  ∧ FixCompetitorCsv.malformed_records st' =
    FixCompetitorCsv.malformed_records st
    + length (List.filter (λ g, negb (well_shaped g)) [cur]).
Proof.
  unfold FixCompetitorCsv.process_previous, well_shaped. simpl.
  destruct (FixCompetitorCsv.accepted_shape _) as [rec|] eqn:Hshape.
  - rewrite bool_decide_eq_true_2 by by eexists. simpl.
    destruct (competitor_check_counts ids st rec) as (-> & -> & _). lia.
  - rewrite bool_decide_eq_false_2 by by intros [? ?]. simpl. lia.
Qed.

Lemma competitor_counts_invariant ids st body :
  let st' := FixCompetitorCsv.finish ids
               (foldl (FixCompetitorCsv.step ids) st body) in
  let groups := segment_from (FixCompetitorCsv.current_record_lines st) body in
  FixCompetitorCsv.total_processed st' =
    FixCompetitorCsv.total_processed st + length (List.filter well_shaped groups)
  ∧ FixCompetitorCsv.malformed_records st' =
    FixCompetitorCsv.malformed_records st
    + length (List.filter (λ g, negb (well_shaped g)) (removelast groups)).
Proof.
  revert st. induction body as [|raw body IH]; intros [recs cur t v f m].
  - cbn [foldl segment_from FixCompetitorCsv.current_record_lines
         FixCompetitorCsv.total_processed FixCompetitorCsv.malformed_records].
    unfold FixCompetitorCsv.finish.
    cbn [FixCompetitorCsv.current_record_lines].
    destruct cur as [|c cur]; [simpl; lia|].
    unfold FixCompetitorCsv.process_final, well_shaped.
    cbn [FixCompetitorCsv.current_record_lines flushed removelast List.filter].
    destruct (FixCompetitorCsv.accepted_shape _) as [rec|] eqn:Hshape.
    + rewrite bool_decide_eq_true_2 by by eexists.
      destruct (competitor_check_counts ids (FixCompetitorCsv.State recs (c :: cur) t v f m) rec)
        as (-> & -> & _). simpl. lia.
    + rewrite bool_decide_eq_false_2 by by intros [? ?]. simpl. lia.
  - cbn [foldl segment_from FixCompetitorCsv.current_record_lines
         FixCompetitorCsv.total_processed FixCompetitorCsv.malformed_records].
    unfold FixCompetitorCsv.step at 2 4.
    cbn [FixCompetitorCsv.current_record_lines].
    destruct (is_record_start (rstrip_newline raw)) eqn:Hstart.
    + match goal with
      | |- context [foldl (FixCompetitorCsv.step ids) ?s body] =>
          destruct (IH s) as [Ht Hm]
      end.
      rewrite Ht, Hm. clear Ht Hm.
      unfold FixCompetitorCsv.open_record.
      cbn [FixCompetitorCsv.current_record_lines
           FixCompetitorCsv.total_processed FixCompetitorCsv.malformed_records].
      rewrite removelast_app by apply segment_from_nonempty.
      rewrite !List.filter_app, !length_app.
      destruct cur as [|c cur];
        [cbn [flushed List.filter length FixCompetitorCsv.total_processed
              FixCompetitorCsv.malformed_records]; lia|].
      destruct (competitor_previous_counts ids
                  (FixCompetitorCsv.State recs (c :: cur) t v f m)) as [-> ->].
      cbn [flushed FixCompetitorCsv.current_record_lines
           FixCompetitorCsv.total_processed FixCompetitorCsv.malformed_records].
      lia.
    + destruct cur as [|c cur].
      * apply (IH (FixCompetitorCsv.State recs [] t v f m)).
      * apply (IH (FixCompetitorCsv.append_line
                     (FixCompetitorCsv.State recs (c :: cur) t v f m)
                     (rstrip_newline raw))).
Qed.

Lemma competitor_final_check_counts ids st rec :
  let st' := FixCompetitorCsvFinal.check_foreign_key ids st rec in
  FixCompetitorCsvFinal.total_processed st' =
    S (FixCompetitorCsvFinal.total_processed st)
  ∧ FixCompetitorCsvFinal.current_record_lines st' =
    FixCompetitorCsvFinal.current_record_lines st.
Proof.
  unfold FixCompetitorCsvFinal.check_foreign_key. simpl.
  by destruct (decide (_ ∈ ids)).
Qed.

Lemma competitor_final_process_counts ids st :
  let cur := FixCompetitorCsvFinal.current_record_lines st in
  FixCompetitorCsvFinal.total_processed
    (FixCompetitorCsvFinal.process_record ids st) =
  FixCompetitorCsvFinal.total_processed st
  + length (List.filter well_shaped_robust [cur]).
Proof.
  unfold FixCompetitorCsvFinal.process_record, well_shaped_robust. simpl.
  destruct (FixCompetitorCsv.accepted_shape _) as [rec|] eqn:Hshape.
  - rewrite bool_decide_eq_true_2 by by eexists. simpl.
    destruct (competitor_final_check_counts ids st rec) as (-> & _). lia.
  - rewrite bool_decide_eq_false_2 by by intros [? ?]. simpl. lia.
Qed.

Lemma competitor_final_counts_invariant ids st body :
  FixCompetitorCsvFinal.total_processed
    (FixCompetitorCsvFinal.finish ids
       (foldl (FixCompetitorCsvFinal.step ids) st body)) =
  FixCompetitorCsvFinal.total_processed st
  + length (List.filter well_shaped_robust
              (segment_from (FixCompetitorCsvFinal.current_record_lines st)
                 body)).
Proof.
  revert st. induction body as [|raw body IH]; intros [recs cur t v f].
  - cbn [foldl segment_from FixCompetitorCsvFinal.current_record_lines
         FixCompetitorCsvFinal.total_processed].
    unfold FixCompetitorCsvFinal.finish.
    cbn [FixCompetitorCsvFinal.current_record_lines].
    destruct cur as [|c cur]; [simpl; lia|].
    apply (competitor_final_process_counts ids
             (FixCompetitorCsvFinal.State recs (c :: cur) t v f)).
  - cbn [foldl segment_from FixCompetitorCsvFinal.current_record_lines
         FixCompetitorCsvFinal.total_processed].
    unfold FixCompetitorCsvFinal.step at 2.
    cbn [FixCompetitorCsvFinal.current_record_lines].
    destruct (is_record_start (rstrip_newline raw)) eqn:Hstart.
    + rewrite IH.
      cbn [FixCompetitorCsvFinal.current_record_lines
           FixCompetitorCsvFinal.total_processed].
      rewrite List.filter_app, length_app.
      destruct cur as [|c cur];
        [cbn [flushed List.filter length
              FixCompetitorCsvFinal.total_processed]; lia|].
      rewrite (competitor_final_process_counts ids
                 (FixCompetitorCsvFinal.State recs (c :: cur) t v f)).
      cbn [flushed FixCompetitorCsvFinal.current_record_lines
           FixCompetitorCsvFinal.total_processed].
      lia.
    + destruct cur as [|c cur].
      * apply (IH (FixCompetitorCsvFinal.State recs [] t v f)).
      * apply (IH (FixCompetitorCsvFinal.State recs
                     ((c :: cur) ++ [rstrip_newline raw]) t v f)).
Qed.

(** C10: in both competitor scripts the counters agree after any number
    [n] of loop iterations and when the script ends:
    [total_processed = valid_records + fk_violations] and
    [len(records) = valid_records].  A record that reaches the foreign-key
    check adds one to [total_processed] and to exactly one of
    [valid_records] (and is then appended to [records]) and
    [fk_violations] (and is then not).  Every resolved record reaches
    this check: when the open record resolves to 14 fields, the loop at
    the next record-start line and the code after the loop both are the
    foreign-key check of this record, and at the end of each script
    [total_processed] is the number of logical records of the file that
    its resolver resolves to 14 fields. *)
Theorem competitor_counters_consistent (ids : gset str) (lines : list str)
    (n : nat) :
  consistent (FixCompetitorCsv.loop ids (take n (drop 1 lines)))
  ∧ consistent (FixCompetitorCsv.fix_competitor_csv ids lines)
  ∧ consistent_final (FixCompetitorCsvFinal.loop ids (take n (drop 1 lines)))
  ∧ consistent_final (FixCompetitorCsvFinal.fix_competitor_csv_final ids lines)
  ∧ (∀ st rec,
       let st' := FixCompetitorCsv.check_foreign_key ids st rec in
       FixCompetitorCsv.total_processed st' =
         S (FixCompetitorCsv.total_processed st)
       ∧ ((FixCompetitorCsv.valid_records st' =
             S (FixCompetitorCsv.valid_records st)
           ∧ FixCompetitorCsv.fk_violations st' =
             FixCompetitorCsv.fk_violations st
           ∧ FixCompetitorCsv.records st' =
             FixCompetitorCsv.records st ++ [rec])
          ∨ (FixCompetitorCsv.valid_records st' =
               FixCompetitorCsv.valid_records st
             ∧ FixCompetitorCsv.fk_violations st' =
               S (FixCompetitorCsv.fk_violations st)
             ∧ FixCompetitorCsv.records st' = FixCompetitorCsv.records st)))
  ∧ (∀ st rec,
       let st' := FixCompetitorCsvFinal.check_foreign_key ids st rec in
       FixCompetitorCsvFinal.total_processed st' =
         S (FixCompetitorCsvFinal.total_processed st)
       ∧ ((FixCompetitorCsvFinal.valid_records st' =
             S (FixCompetitorCsvFinal.valid_records st)
           ∧ FixCompetitorCsvFinal.fk_violations st' =
             FixCompetitorCsvFinal.fk_violations st
           ∧ FixCompetitorCsvFinal.records st' =
             FixCompetitorCsvFinal.records st ++ [rec])
          ∨ (FixCompetitorCsvFinal.valid_records st' =
               FixCompetitorCsvFinal.valid_records st
             ∧ FixCompetitorCsvFinal.fk_violations st' =
               S (FixCompetitorCsvFinal.fk_violations st)
             ∧ FixCompetitorCsvFinal.records st' =
               FixCompetitorCsvFinal.records st)))
  ∧ (∀ st raw rec,
       FixCompetitorCsv.current_record_lines st ≠ [] →
       FixCompetitorCsv.accepted_shape
         (FixCompetitorCsv.parse_competitor_record
            (FixCompetitorCsv.current_record_lines st)) = Some rec →
       (is_record_start (rstrip_newline raw) = true →
        FixCompetitorCsv.step ids st raw =
        FixCompetitorCsv.open_record
          (FixCompetitorCsv.check_foreign_key ids st rec)
          (rstrip_newline raw))
       ∧ FixCompetitorCsv.finish ids st =
         FixCompetitorCsv.check_foreign_key ids st rec)
  ∧ (∀ st raw rec,
       FixCompetitorCsvFinal.current_record_lines st ≠ [] →
       FixCompetitorCsv.accepted_shape
         (FixCompetitorCsvFinal.parse_competitor_record_robust
            (FixCompetitorCsvFinal.current_record_lines st)) = Some rec →
       (is_record_start (rstrip_newline raw) = true →
        let st' := FixCompetitorCsvFinal.check_foreign_key ids st rec in
        FixCompetitorCsvFinal.step ids st raw =
        FixCompetitorCsvFinal.State
          (FixCompetitorCsvFinal.records st') [rstrip_newline raw]
          (FixCompetitorCsvFinal.total_processed st')
          (FixCompetitorCsvFinal.valid_records st')
          (FixCompetitorCsvFinal.fk_violations st'))
       ∧ FixCompetitorCsvFinal.finish ids st =
         FixCompetitorCsvFinal.check_foreign_key ids st rec)
  ∧ FixCompetitorCsv.total_processed
      (FixCompetitorCsv.fix_competitor_csv ids lines)
    = length (List.filter well_shaped (segment_records (drop 1 lines)))
  ∧ FixCompetitorCsvFinal.total_processed
      (FixCompetitorCsvFinal.fix_competitor_csv_final ids lines)
    = length (List.filter well_shaped_robust
                (segment_records (drop 1 lines))).
Proof.
  assert (Hinit : consistent FixCompetitorCsv.init) by done.
  assert (Hinit' : consistent_final FixCompetitorCsvFinal.init) by done.
  split; [|split; [|split; [|split; [|split; [|split; [|split; [|split;
    [|split]]]]]]]].
  - by apply foldl_step_consistent.
  - by apply finish_consistent, foldl_step_consistent.
  - by apply foldl_step_consistent_final.
  - by apply finish_consistent_final, foldl_step_consistent_final.
  - intros st rec. unfold FixCompetitorCsv.check_foreign_key.
    destruct (decide _); simpl; split; auto.
  - intros st rec. unfold FixCompetitorCsvFinal.check_foreign_key.
    destruct (decide _); simpl; split; auto.
  - intros st raw rec Hopen Hshape. split.
    + intros Hstart. unfold FixCompetitorCsv.step. rewrite Hstart.
      destruct (FixCompetitorCsv.current_record_lines st) eqn:Hcur; [done|].
      unfold FixCompetitorCsv.process_previous.
      rewrite Hcur. by rewrite Hshape.
    + unfold FixCompetitorCsv.finish.
      destruct (FixCompetitorCsv.current_record_lines st) eqn:Hcur; [done|].
      unfold FixCompetitorCsv.process_final.
      rewrite Hcur. by rewrite Hshape.
  - intros st raw rec Hopen Hshape. split.
    + intros Hstart. unfold FixCompetitorCsvFinal.step. rewrite Hstart.
      destruct (FixCompetitorCsvFinal.current_record_lines st) eqn:Hcur;
        [done|].
      unfold FixCompetitorCsvFinal.process_record.
      rewrite Hcur. by rewrite Hshape.
    + unfold FixCompetitorCsvFinal.finish.
      destruct (FixCompetitorCsvFinal.current_record_lines st) eqn:Hcur;
        [done|].
      unfold FixCompetitorCsvFinal.process_record.
      rewrite Hcur. by rewrite Hshape.
  - by destruct (competitor_counts_invariant ids FixCompetitorCsv.init
                   (drop 1 lines)) as [Ht _].
  - apply (competitor_final_counts_invariant ids FixCompetitorCsvFinal.init).
Qed.

(** C10 at the sample record: a state whose open record is the sample
    competitor record, with its parent among the valid identifiers.  The
    code after the loop is the foreign-key check of this record and
    counts it as valid. *)
Lemma competitor_counters_consistent_witness :
  let ids : gset str := {[ Sample.parent_id ]} in
  let st := FixCompetitorCsv.State [] [Sample.competitor_line] 0 0 0 0 in
  FixCompetitorCsv.finish ids st =
    FixCompetitorCsv.check_foreign_key ids st Sample.competitor_record
  ∧ FixCompetitorCsv.total_processed (FixCompetitorCsv.finish ids st) = 1
  ∧ FixCompetitorCsv.valid_records (FixCompetitorCsv.finish ids st) = 1
  ∧ FixCompetitorCsv.fk_violations (FixCompetitorCsv.finish ids st) = 0.
Proof.
  intros ids st.
  assert (Hfinish : FixCompetitorCsv.finish ids st =
            FixCompetitorCsv.check_foreign_key ids st Sample.competitor_record).
  { refine (proj2 (proj1 (proj2 (proj2 (proj2 (proj2 (proj2 (proj2
              (competitor_counters_consistent ids [] 0)))))))
              st [] Sample.competitor_record _ _)).
    - discriminate.
    - vm_compute. reflexivity. }
  split; [exact Hfinish|]. rewrite Hfinish.
  unfold FixCompetitorCsv.check_foreign_key.
  rewrite decide_True; [by repeat split|].
  apply elem_of_singleton. vm_compute. reflexivity.
Defined.

(** The records written by the competitor scripts all have a valid
    parent. *)
Lemma competitor_records_have_parent ids lines rec :
  rec ∈ FixCompetitorCsv.records (FixCompetitorCsv.fix_competitor_csv ids lines)
  ∨ rec ∈ FixCompetitorCsvFinal.records
            (FixCompetitorCsvFinal.fix_competitor_csv_final ids lines) →
  default [] (rec !! 2) ∈ ids.
Proof.
  intros [Hin|Hin].
  - unfold FixCompetitorCsv.fix_competitor_csv, FixCompetitorCsv.loop in Hin.
    rewrite (competitor_loop_segments ids FixCompetitorCsv.init) in Hin.
    simpl in Hin. apply list_elem_of_omap in Hin as (g & _ & Hg).
    by apply resolve_competitor_Some in Hg as (_ & _ & ?).
  - unfold FixCompetitorCsvFinal.fix_competitor_csv_final,
      FixCompetitorCsvFinal.loop in Hin.
    rewrite (competitor_final_loop_segments ids FixCompetitorCsvFinal.init)
      in Hin.
    simpl in Hin. apply list_elem_of_omap in Hin as (g & _ & Hg).
    by apply resolve_competitor_final_Some in Hg as (_ & _ & ?).
Qed.

(** C6: a competitor record that resolves to 14 fields and whose
    [llm_analysis_id] (field 2) is not in the set of valid parent
    identifiers is not appended to [records]; [fk_violations] and
    [total_processed] both grow by one and [valid_records] stays.  This
    holds where the loop treats the previous record and where the final
    record is treated, in [fix_competitor_csv] and in
    [fix_competitor_csv_final]; no validation takes part in it.  Such a
    record is in the output of neither script. *)
Theorem foreign_key_violation_rejected (ids : gset str) (rec : record)
    (key : str) :
  length rec = 14 → rec !! 2 = Some key → key ∉ ids →
  (∀ st,
     FixCompetitorCsv.parse_competitor_record
       (FixCompetitorCsv.current_record_lines st) = Some rec →
     ∀ st', (st' = FixCompetitorCsv.process_previous ids st
             ∨ st' = FixCompetitorCsv.process_final ids st) →
     FixCompetitorCsv.records st' = FixCompetitorCsv.records st
     ∧ FixCompetitorCsv.fk_violations st' =
       S (FixCompetitorCsv.fk_violations st)
     ∧ FixCompetitorCsv.total_processed st' =
       S (FixCompetitorCsv.total_processed st)
     ∧ FixCompetitorCsv.valid_records st' = FixCompetitorCsv.valid_records st
     ∧ FixCompetitorCsv.malformed_records st' =
       FixCompetitorCsv.malformed_records st)
  ∧ (∀ st,
       FixCompetitorCsvFinal.parse_competitor_record_robust
         (FixCompetitorCsvFinal.current_record_lines st) = Some rec →
       let st' := FixCompetitorCsvFinal.process_record ids st in
       FixCompetitorCsvFinal.records st' = FixCompetitorCsvFinal.records st
       ∧ FixCompetitorCsvFinal.fk_violations st' =
         S (FixCompetitorCsvFinal.fk_violations st)
       ∧ FixCompetitorCsvFinal.total_processed st' =
         S (FixCompetitorCsvFinal.total_processed st)
       ∧ FixCompetitorCsvFinal.valid_records st' =
         FixCompetitorCsvFinal.valid_records st)
  ∧ (∀ lines,
       (rec ∉ FixCompetitorCsv.records
                (FixCompetitorCsv.fix_competitor_csv ids lines))
       ∧ (rec ∉ FixCompetitorCsvFinal.records
                  (FixCompetitorCsvFinal.fix_competitor_csv_final ids lines))).
Proof.
  intros Hlen Hkey Hnotin.
  assert (Hdef : default [] (rec !! 2) ∉ ids).
  { unfold record, str in *. by rewrite Hkey. }
  split; [|split].
  - intros st Hparse st' Hst'.
    assert (st' = FixCompetitorCsv.check_foreign_key ids st rec) as ->.
    { destruct Hst' as [->| ->];
        unfold FixCompetitorCsv.process_previous,
          FixCompetitorCsv.process_final;
        rewrite Hparse; simpl; by destruct (decide (length rec = 14)). }
    unfold FixCompetitorCsv.check_foreign_key.
    by destruct (decide _).
  - intros st Hparse. unfold FixCompetitorCsvFinal.process_record.
    rewrite Hparse. simpl. destruct (decide (length rec = 14)); [|done].
    unfold FixCompetitorCsvFinal.check_foreign_key.
    by destruct (decide _).
  - intros lines. split; intros Hin; apply Hdef;
      apply (competitor_records_have_parent ids lines); auto.
Qed.

(** C6 at a concrete record: [Sample.competitor_line] resolves to 14
    fields with parent [Sample.parent_id], which is not in the set. *)
Lemma foreign_key_violation_rejected_witness :
  let ids : gset str := {[ Sample.other_id ]} in
  let st := FixCompetitorCsv.State [] [Sample.competitor_line] 0 0 0 0 in
  let st' := FixCompetitorCsv.process_previous ids st in
  FixCompetitorCsv.records st' = []
  ∧ FixCompetitorCsv.fk_violations st' = 1
  ∧ FixCompetitorCsv.total_processed st' = 1
  ∧ FixCompetitorCsv.valid_records st' = 0
  ∧ FixCompetitorCsv.malformed_records st' = 0.
Proof.
  intros ids st st'.
  refine (proj1 (foreign_key_violation_rejected ids Sample.competitor_record
                   Sample.parent_id _ _ _) st _ st' _).
  - reflexivity.
  - reflexivity.
  - intros Hin. apply elem_of_singleton in Hin. by vm_compute in Hin.
  - by vm_compute.
  - by left.
Defined.

(** ** The sanitizer of fix_llm_csv.py *)

Import FixLlmCsv.

Lemma length_replace_nonempty c new s :
  0 < length new → length s ≤ length (replace c new s).
Proof.
  intros Hnew. induction s as [|x s IH]; simpl; [lia|].
  rewrite length_app. destruct (decide (x = c)); simpl; lia.
Qed.

Lemma length_escape text : length text ≤ length (escape text).
Proof.
  unfold escape.
  etrans; [|apply length_replace_nonempty; simpl; lia].
  etrans; [|apply length_replace_nonempty; simpl; lia].
  apply length_replace_nonempty; simpl; lia.
Qed.

(** C8, as amended: for every text field that is longer than 50,000
    characters once its NUL characters are removed (so, for every field
    longer than 50,000 characters that has no NUL character),
    [clean_text_field] returns exactly the first 50,000 characters of the
    escaped text followed by the truncation marker and nothing more,
    50,015 characters in all; it does not fail, and it logs one
    warning. *)
Theorem long_text_truncated (text : str) :
  (max_text_length < len (remove_nul text))%Z →
  let kept := take (Z.to_nat max_text_length) (escape (remove_nul text)) in
  clean_text_field text =
    (kept ++ truncation_marker,
     [TruncatedLongTextField (max_text_length + len truncation_marker)])
  ∧ len kept = max_text_length
  ∧ len (fst (clean_text_field text)) = (max_text_length + 15)%Z.
Proof.
  intros Hlong kept.
  pose proof (length_escape (remove_nul text)) as Hesc.
  assert (Hkept : len kept = max_text_length).
  { unfold kept, len in *. rewrite length_take.
    unfold max_text_length in *. lia. }
  assert (Hclean : clean_text_field text =
    (kept ++ truncation_marker,
     [TruncatedLongTextField (max_text_length + len truncation_marker)])).
  { unfold clean_text_field.
    destruct text as [|c text]; [by vm_compute in Hlong|].
    destruct (max_text_length <? _)%Z eqn:Hcmp.
    - fold kept. do 3 f_equal. unfold len in *.
      rewrite length_app, Nat2Z.inj_add. by rewrite Hkept.
    - apply Z.ltb_ge in Hcmp. unfold len in *. lia. }
  split; [done|]. split; [done|].
  rewrite Hclean. simpl fst. unfold len in *.
  rewrite length_app, Nat2Z.inj_add, Hkept. reflexivity.
Qed.

(** C8 at a text of 50,001 letters. *)
Lemma long_text_truncated_witness :
  (max_text_length < len (remove_nul Sample.long_text))%Z
  ∧ clean_text_field Sample.long_text =
      (take (Z.to_nat max_text_length) (escape (remove_nul Sample.long_text))
         ++ truncation_marker,
       [TruncatedLongTextField (max_text_length + len truncation_marker)])
  ∧ len (fst (clean_text_field Sample.long_text)) = (max_text_length + 15)%Z.
Proof.
  assert (H : (max_text_length < len (remove_nul Sample.long_text))%Z)
    by (vm_compute; reflexivity).
  split; [exact H|].
  split; [exact (proj1 (long_text_truncated Sample.long_text H))|].
  exact (proj2 (proj2 (long_text_truncated Sample.long_text H))).
Defined.

(** C8, as stated, fails: a field of 50,001 characters whose last one is
    NUL is cleaned to 50,000 characters, without marker and without
    warning. *)
Lemma long_text_with_nul_not_truncated :
  (max_text_length < len Sample.long_text_with_nul)%Z
  ∧ len (fst (clean_text_field Sample.long_text_with_nul)) = max_text_length
  ∧ snd (clean_text_field Sample.long_text_with_nul) = [].
Proof. split; [|split]; vm_compute; reflexivity. Qed.

(** ** The split of the text span *)

Lemma rfind_from_Some i sub s j :
  rfind_from i sub s = Some j →
  ∃ k, j = i + k ∧ k ≤ length s ∧ startswith sub (drop k s) = true
       ∧ ∀ k', k < k' ≤ length s → startswith sub (drop k' s) = false.
Proof.
  revert i j. induction s as [|c s IH]; intros i j; simpl.
  - destruct sub; [|done]. intros [= <-]. exists 0.
    repeat split; [lia|lia|]. intros k'. lia.
  - destruct (rfind_from (S i) sub s) as [j'|] eqn:Hrec.
    + intros [= <-]. destruct (IH _ _ Hrec) as (k & -> & Hk & Hat & Hlast).
      exists (S k). repeat split; [lia|lia|done|].
      intros [|k'] Hk'; [lia|]. simpl. apply Hlast. lia.
    + destruct (startswith sub (c :: s)) eqn:Hhere; [|done].
      intros [= <-]. exists 0. repeat split; [lia|lia|done|].
      intros [|k'] Hk'; [lia|]. simpl.
      clear Hhere IH. revert i k' Hrec Hk'.
      induction s as [|c' s IH]; intros i k' Hrec Hk'; simpl in *.
      * destruct sub; [done|]. by destruct k'.
      * destruct (rfind_from (S (S i)) sub s) eqn:Hrec'; [done|].
        destruct (startswith sub (c' :: s)) eqn:Hhere; [done|].
        destruct k' as [|k']; [done|]. simpl. apply (IH (S i)); [done|lia].
Qed.

Lemma rfind_from_None i sub s :
  rfind_from i sub s = None →
  ∀ k, k ≤ length s → startswith sub (drop k s) = false.
Proof.
  revert i. induction s as [|c s IH]; intros i; simpl.
  - destruct sub; [done|]. intros _ k _. by destruct k.
  - destruct (rfind_from (S i) sub s) eqn:Hrec; [done|].
    destruct (startswith sub (c :: s)) eqn:Hhere; [done|].
    intros _ [|k] Hk; [done|]. simpl. apply (IH (S i)); [done|lia].
Qed.

Lemma find_from_Some i sub s j :
  find_from i sub s = Some j →
  ∃ k, j = i + k ∧ k ≤ length s ∧ startswith sub (drop k s) = true.
Proof.
  revert i j. induction s as [|c s IH]; intros i j; simpl.
  - destruct (startswith sub []) eqn:Hhere; [|done].
    intros [= <-]. exists 0. repeat split; [lia|lia|done].
  - destruct (startswith sub (c :: s)) eqn:Hhere.
    + intros [= <-]. exists 0. repeat split; [lia|lia|done].
    + intros Hrec. destruct (IH _ _ Hrec) as (k & -> & Hk & Hat).
      exists (S k). repeat split; [lia|lia|done].
Qed.

Lemma find_from_None i sub s :
  find_from i sub s = None →
  ∀ k, k ≤ length s → startswith sub (drop k s) = false.
Proof.
  revert i. induction s as [|c s IH]; intros i; simpl.
  - destruct (startswith sub []) eqn:Hhere; [done|].
    intros _ k _. by destruct k.
  - destruct (startswith sub (c :: s)) eqn:Hhere; [done|].
    intros Hrec [|k] Hk; [done|]. simpl. apply (IH (S i)); [done|lia].
Qed.

(** [sub in s] holds exactly when [s.rfind(sub)] finds an occurrence. *)
Lemma contains_rfind sub s :
  contains sub s = true ↔ is_Some (rfind sub s).
Proof.
  unfold contains, find, rfind. split.
  - destruct (find_from 0 sub s) as [j|] eqn:Hfind; [|done]. intros _.
    destruct (find_from_Some _ _ _ _ Hfind) as (k & _ & Hk & Hat).
    destruct (rfind_from 0 sub s) eqn:Hrfind; [done|].
    by rewrite (rfind_from_None _ _ _ Hrfind k Hk) in Hat.
  - intros [j Hrfind].
    destruct (rfind_from_Some _ _ _ _ Hrfind) as (k & _ & Hk & Hat & _).
    destruct (find_from 0 sub s) eqn:Hfind; [done|].
    by rewrite (find_from_None _ _ _ Hfind k Hk) in Hat.
Qed.

(** [rfind] gives the last occurrence. *)
Lemma rfind_last sub s i :
  rfind sub s = Some i →
  i ≤ length s ∧ startswith sub (drop i s) = true
  ∧ ∀ k, i < k ≤ length s → startswith sub (drop k s) = false.
Proof.
  intros H. by destruct (rfind_from_Some _ _ _ _ H) as (k & -> & ? & ? & ?).
Qed.

(** The competitor parsers and [create_clean_csv] split the text span at
    the last joint and strip the quotes around both parts; without a
    joint the whole span, quotes stripped, is the response text. *)
Lemma split_text_span_spec (span : str) :
  match rfind joint span with
  | Some i =>
      split_text_span span =
        (strip_chars [dq] (take i span), strip_chars [dq] (drop (i + 3) span))
  | None => split_text_span span = (strip_chars [dq] span, [])
  end.
Proof.
  unfold split_text_span, rsplit1.
  destruct (rfind joint span) as [i|] eqn:Hrfind.
  - assert (contains joint span = true) as -> by by apply contains_rfind.
    done.
  - destruct (contains joint span) eqn:Hc; [|done].
    apply contains_rfind in Hc as [? Hc]. by rewrite Hc in Hrfind.
Qed.

(** [fix_csv_final] splits at the same place, but strips white space, not
    quotes, from the right part. *)
Lemma split_text_final_spec (span : str) :
  match rfind joint span with
  | Some i =>
      FixCsvFinal.split_text span =
        (strip_chars [dq] (take i span), strip (drop (i + 3) span))
  | None => FixCsvFinal.split_text span = (strip_chars [dq] span, [])
  end.
Proof.
  unfold FixCsvFinal.split_text, rsplit1.
  by destruct (rfind joint span).
Qed.

(** C1, where the code departs from it: on the text span of the
    scenario, [process_record_lines] of fix_csv_final.py leaves the
    closing quote on [summary_text], while the split of the three other
    resolvers strips it ([split_text_span_spec] is their general
    behaviour). *)
Theorem final_split_keeps_closing_quote :
  Sample.text_span = dq :: lit "hello" ++ joint ++ lit "world" ++ [dq]
  ∧ rfind joint Sample.text_span = Some 6
  ∧ FixCsvFinal.split_text Sample.text_span = (lit "hello", lit "world" ++ [dq])
  ∧ split_text_span Sample.text_span = (lit "hello", lit "world").
Proof. split; [|split; [|split]]; vm_compute; reflexivity. Qed.

(** C4, where the code departs from it: the line of the scenario, as a
    one-line record, resolves to 13 fields in both resolvers of the LLM
    analysis results; [parse_record_lines] of create_clean_csv.py gives
    [response_text = hello] and [summary_text = world], but
    [process_record_lines] of fix_csv_final.py gives [world] followed by
    the closing double quote as [summary_text]. *)
Theorem scenario_resolution :
  CreateCleanCsv.parse_record_lines [Sample.llm_line] =
    Some [lit "a1b2c3d4-e5f6-7890-abcd-ef1234567890"; lit "pid";
          lit "chatgpt"; lit "wid"; lit "true"; lit "1"; lit "0.50";
          lit "0.90"; lit "hello"; lit "world";
          lit "2025-01-01 00:00:00.000000+00";
          lit "2025-01-01 00:00:00.000000+00"; lit ""]
  ∧ FixCsvFinal.process_record_lines [Sample.llm_line] =
    Some [lit "a1b2c3d4-e5f6-7890-abcd-ef1234567890"; lit "pid";
          lit "chatgpt"; lit "wid"; lit "true"; lit "1"; lit "0.50";
          lit "0.90"; lit "hello"; lit "world" ++ [dq];
          lit "2025-01-01 00:00:00.000000+00";
          lit "2025-01-01 00:00:00.000000+00"; lit ""].
Proof. split; vm_compute; reflexivity. Qed.

(** ** The timestamp anchors *)

(** The parts found by [fix_csv_final] are those that contain a date and
    time. *)
Lemma timestamp_positions_from_spec i parts k :
  k ∈ FixCsvFinal.timestamp_positions_from i parts ↔
  ∃ j part, k = i + j ∧ parts !! j = Some part
            ∧ search datetime_items part = true.
Proof.
  revert i. induction parts as [|p parts IH]; intros i; simpl.
  - split; [by intros ?%elem_of_nil|]. by intros (j & part & _ & ? & _).
  - rewrite elem_of_app, IH. split.
    + intros [Hhere|(j & part & -> & Hj & Hs)].
      * destruct (search datetime_items p) eqn:Hs; [|by apply elem_of_nil in Hhere].
        apply list_elem_of_singleton in Hhere as ->.
        exists 0, p. split; [lia|done].
      * exists (S j), part. split; [lia|done].
    + intros ([|j] & part & -> & Hj & Hs); simpl in Hj.
      * left. injection Hj as ->. rewrite Hs, Nat.add_0_r.
        by apply list_elem_of_singleton.
      * right. exists j, part. split; [lia|done].
Qed.

(** C2, as amended.  [parse_competitor_record] (fix_competitor_csv.py)
    scans the text after the eight fixed columns, and
    [parse_record_lines] (create_clean_csv.py) scans the whole joined
    record, for every occurrence, from left to right and not overlapping,
    of the pattern [\d{4}-\d{2}-\d{2} \d{2}:\d{2}:\d{2}\.\d+\+\d{2}]; each
    drops the record when it has fewer than 14 (resp. 8) comma-separated
    parts or when there are fewer than two matches, and otherwise takes
    the second-to-last match as [analyzed_at] (field 10) and the last as
    [created_at] (field 11).  [process_record_lines] (fix_csv_final.py)
    looks instead for the comma-separated parts after the eight fixed
    columns that contain [\d{4}-\d{2}-\d{2} \d{2}:\d{2}:\d{2}]; it drops
    the record when it has fewer than 13 comma-separated parts or when
    there are fewer than two such parts, and otherwise takes the parts
    from the second-to-last such part up to the last as [analyzed_at] and
    the last such part as [created_at]. *)
Theorem timestamp_anchors (lines : list str) :
  let full_line := strip (join [" "] lines) in
  let parts := split "," full_line in
  let text := FixCompetitorCsv.remaining_text_of lines in
  let rest := drop 8 parts in
  (length (finditer timestamp_pattern text) < 2 →
     FixCompetitorCsv.parse_competitor_record lines = None)
  ∧ (∀ ms a c,
       finditer timestamp_pattern text = ms ++ [a; c] → 14 ≤ length parts →
       ∃ r, FixCompetitorCsv.parse_competitor_record lines = Some r
            ∧ r !! 10 = Some (group text a) ∧ r !! 11 = Some (group text c))
  ∧ (length (finditer timestamp_pattern full_line) < 2 →
       CreateCleanCsv.parse_record_lines lines = None)
  ∧ (∀ ms a c,
       finditer timestamp_pattern full_line = ms ++ [a; c] →
       8 ≤ length parts →
       ∃ r, CreateCleanCsv.parse_record_lines lines = Some r
            ∧ r !! 10 = Some (group full_line a)
            ∧ r !! 11 = Some (group full_line c))
  ∧ (length (FixCsvFinal.timestamp_positions rest) < 2 →
       FixCsvFinal.process_record_lines lines = None)
  ∧ (∀ ps i j,
       FixCsvFinal.timestamp_positions rest = ps ++ [i; j] →
       13 ≤ length parts →
       ∃ r, FixCsvFinal.process_record_lines lines = Some r
            ∧ r !! 10 = Some (strip (join [","] (slice i j rest)))
            ∧ r !! 11 = Some (strip (join [","] (slice j (j + 1) rest))))
  ∧ (length parts < 14 →
       FixCompetitorCsv.parse_competitor_record lines = None)
  ∧ (length parts < 8 → CreateCleanCsv.parse_record_lines lines = None)
  ∧ (length parts < 13 → FixCsvFinal.process_record_lines lines = None).
Proof.
  intros full_line parts text rest.
  split; [|split; [|split; [|split; [|split; [|split; [|split; [|split]]]]]]].
  - intros Hfew. unfold FixCompetitorCsv.parse_competitor_record.
    fold full_line parts. destruct (length parts <? 14); [done|].
    fold rest. change (join [","] rest) with text.
    by rewrite last_two_short.
  - intros ms a c Hms Hlen. unfold FixCompetitorCsv.parse_competitor_record.
    fold full_line parts.
    destruct (length parts <? 14) eqn:Hlt; [apply Nat.ltb_lt in Hlt; lia|].
    fold rest. change (join [","] rest) with text.
    rewrite Hms, last_two_snoc.
    destruct (split_text_span _) as [response_text summary_text].
    destruct (trailing_fields _) as [prompt_id analysis_session_id].
    eexists. split; [done|]. by split.
  - intros Hfew. unfold CreateCleanCsv.parse_record_lines.
    fold full_line. by rewrite last_two_short.
  - intros ms a c Hms Hlen. unfold CreateCleanCsv.parse_record_lines.
    fold full_line parts. rewrite Hms, last_two_snoc.
    destruct (8 <=? length parts) eqn:Hle; [|apply Nat.leb_gt in Hle; lia].
    destruct (split_text_span _) as [response_text summary_text].
    eexists. split; [done|]. by split.
  - intros Hfew. unfold FixCsvFinal.process_record_lines.
    fold full_line parts. destruct (length parts <? 13); [done|].
    fold rest. by rewrite last_two_short.
  - intros ps i j Hps Hlen. unfold FixCsvFinal.process_record_lines.
    fold full_line parts.
    destruct (length parts <? 13) eqn:Hlt; [apply Nat.ltb_lt in Hlt; lia|].
    fold rest. rewrite Hps, last_two_snoc.
    destruct (FixCsvFinal.split_text _) as [response_only summary_text].
    eexists. split; [done|].
    assert (Hfixed : length (take 8 parts) = 8) by (rewrite length_take; lia).
    unfold record. split.
    + rewrite lookup_take_lt by lia. rewrite lookup_app_r by lia.
      by rewrite Hfixed.
    + rewrite lookup_take_lt by lia. rewrite lookup_app_r by lia.
      by rewrite Hfixed.
  - intros Hlen. unfold FixCompetitorCsv.parse_competitor_record.
    fold full_line parts.
    destruct (length parts <? 14) eqn:Hlt; [done|].
    apply Nat.ltb_ge in Hlt. lia.
  - intros Hlen. unfold CreateCleanCsv.parse_record_lines.
    fold full_line parts.
    destruct (last_two _) as [[analyzed_at_match created_at_match]|]; [|done].
    destruct (8 <=? length parts) eqn:Hle; [|done].
    apply Nat.leb_le in Hle. lia.
  - intros Hlen. unfold FixCsvFinal.process_record_lines.
    fold full_line parts.
    destruct (length parts <? 13) eqn:Hlt; [done|].
    apply Nat.ltb_ge in Hlt. lia.
Qed.

(** C2 at the sample records: two timestamps after the prefix of the
    competitor record and of the LLM record. *)
Lemma timestamp_anchors_witness :
  (finditer timestamp_pattern
     (FixCompetitorCsv.remaining_text_of [Sample.competitor_line]) =
     [] ++ [Match 21 50; Match 51 80]
   ∧ 14 ≤ length (split "," (strip (join [" "] [Sample.competitor_line]))))
  ∧ (∃ r, FixCompetitorCsv.parse_competitor_record [Sample.competitor_line]
          = Some r
          ∧ r !! 10 = Some (lit "2025-01-01 00:00:00.000000+00")
          ∧ r !! 11 = Some (lit "2025-01-02 00:00:00.000000+00"))
  ∧ (length (finditer timestamp_pattern
               (FixCompetitorCsv.remaining_text_of
                  [Sample.llm_line_short_timestamps])) < 2
     ∧ FixCompetitorCsv.parse_competitor_record
         [Sample.llm_line_short_timestamps] = None).
Proof.
  assert (H1 : finditer timestamp_pattern
     (FixCompetitorCsv.remaining_text_of [Sample.competitor_line]) =
     [] ++ [Match 21 50; Match 51 80]) by (vm_compute; reflexivity).
  assert (H2 : 14 ≤ length (split "," (strip (join [" "]
                                [Sample.competitor_line]))))
    by (vm_compute; lia).
  assert (H3 : length (finditer timestamp_pattern
               (FixCompetitorCsv.remaining_text_of
                  [Sample.llm_line_short_timestamps])) < 2)
    by (vm_compute; lia).
  split; [by split|]. split.
  - exact (proj1 (proj2 (timestamp_anchors [Sample.competitor_line]))
             [] (Match 21 50) (Match 51 80) H1 H2).
  - split; [exact H3|].
    exact (proj1 (timestamp_anchors [Sample.llm_line_short_timestamps]) H3).
Defined.

(** C2, as stated, fails in fix_csv_final.py: the text after the fixed
    prefix of this record has no match of the timestamp pattern, its two
    timestamps having neither fraction nor zone, and the record is
    resolved all the same. *)
Lemma short_timestamps_resolved :
  finditer timestamp_pattern
    (FixCompetitorCsv.remaining_text_of [Sample.llm_line_short_timestamps])
  = []
  ∧ FixCsvFinal.process_record_lines [Sample.llm_line_short_timestamps] =
    Some [lit "a1b2c3d4-e5f6-7890-abcd-ef1234567890"; lit "pid";
          lit "chatgpt"; lit "wid"; lit "true"; lit "1"; lit "0.50";
          lit "0.90"; lit "hello"; lit "world" ++ [dq];
          lit "2025-01-01 00:00:00"; lit "2025-01-02 00:00:00"; lit ""].
Proof. split; vm_compute; reflexivity. Qed.

(** ** The validator of fix_llm_csv.py *)

Section ValidatorFacts.

Context (uuid_parses : str → bool) (py_int : str → option Z).
Context {float : Type} (py_float : str → option float).
Context (float_between : Z → Z → float → bool).

Local Abbreviation check_values := (check_values py_int py_float float_between).
Local Abbreviation validate_row_locals :=
  (validate_row_locals uuid_parses py_int py_float float_between).
Local Abbreviation validate_row :=
  (validate_row uuid_parses py_int py_float float_between).
Local Abbreviation process_parsed_row :=
  (process_parsed_row uuid_parses py_int py_float float_between).

Lemma warned_add_error w m v1 v2 :
  warned w v1 v2 → warned w (add_error m v1) (add_error m v2).
Proof.
  intros (Hvalid & Herr & Hw). unfold warned; simpl.
  by rewrite Herr.
Qed.

Lemma warned_add_warning w m v1 v2 :
  warned w v1 v2 → warned w (add_warning m v1) (add_warning m v2).
Proof.
  intros (Hvalid & Herr & Hw). unfold warned; simpl.
  split; [done|]. split; [done|]. apply elem_of_app. by left.
Qed.

Lemma warned_check_rank w value v1 v2 :
  warned w v1 v2 →
  warned w (check_rank py_int value v1) (check_rank py_int value v2).
Proof.
  intros H. unfold check_rank. destruct (nonblank value); [|done].
  destruct (py_int value) as [n|]; [|by apply warned_add_warning].
  destruct (n <? -1)%Z; [by apply warned_add_error|done].
Qed.

Lemma warned_check_score w field lo hi value v1 v2 :
  warned w v1 v2 →
  warned w (check_score py_float float_between field lo hi value v1)
           (check_score py_float float_between field lo hi value v2).
Proof.
  intros H. unfold check_score. destruct (nonblank value); [|done].
  destruct (py_float value) as [x|]; [|by apply warned_add_warning].
  destruct (float_between lo hi x); [done|by apply warned_add_error].
Qed.

(** The checks that follow the optional UUID read neither
    [analysis_session_id] nor the warnings recorded so far. *)
Lemma warned_check_values w m1 m2 v1 v2 :
  (∀ k, k ≠ "analysis_session_id"%string → get m1 k = get m2 k) →
  warned w v1 v2 → warned w (check_values m1 v1) (check_values m2 v2).
Proof.
  intros Hget H. unfold FixLlmCsv.check_values.
  rewrite !(Hget "llm_provider"%string), !(Hget "is_mentioned"%string),
    !(Hget "rank_position"%string), !(Hget "sentiment_score"%string),
    !(Hget "confidence_score"%string) by done.
  apply warned_check_score, warned_check_score, warned_check_rank.
  destruct (bool_decide _); [|apply warned_add_warning];
    (destruct (decide _); [|apply warned_add_error]); done.
Qed.

(** The columns other than the last do not depend on the last field. *)
Lemma get_other_column (fields : list str) (x y : str) (k : string) :
  length fields = 12 → k ≠ "analysis_session_id"%string →
  get (list_to_map (zip expected_columns (fields ++ [x]))) k =
  get (list_to_map (zip expected_columns (fields ++ [y]))) k.
Proof.
  intros Hlen Hk.
  do 12 (destruct fields as [|? fields]; [done|]). destruct fields; [|done].
  unfold get, expected_columns.
  cbn [app zip zip_with list_to_map foldr fst snd].
  rewrite !lookup_insert. cbn [fst snd].
  repeat (case_decide; [done|]). done.
Qed.

(** C7, where the code departs from it.  For a row of 13 fields whose
    [analysis_session_id] is not empty and is not a UUID, [validate_row]
    records a warning, and its verdict and errors are those of the same
    row with an empty [analysis_session_id]: the row is not rejected for
    it.  The empty string is assigned in [row_dict] only, a dictionary
    local to [validate_row]; the list [row] is not changed, and
    [process_file] writes it with [analysis_session_id] as it was read,
    not with the empty string. *)
Theorem invalid_session_id_written_unchanged (line_num : Z) (st : state)
    (row : record) (session : str) :
  length row = 13 → row !! 12 = Some session → session ≠ [] →
  is_valid_uuid uuid_parses session = false →
  warned (InvalidOptionalUuid "analysis_session_id" (take 50 session))
    (validate_row row) (validate_row (<[12 := []]> row))
  ∧ snd (validate_row_locals row) !! "analysis_session_id"%string = Some []
  ∧ ∃ row', written (process_parsed_row line_num st row) = written st ++ [row']
            ∧ row' !! 12 = Some session
            ∧ length row' = 13.
Proof.
  intros Hlen Hsession Hne Hinvalid.
  do 13 (destruct row as [|? row]; [done|]). destruct row; [|done].
  injection Hsession as ->. clear Hlen.
  destruct session as [|c session]; [done|]. clear Hne.
  split; [|split].
  - unfold FixLlmCsv.validate_row, FixLlmCsv.validate_row_locals.
    cbn [length expected_columns list_insert fst].
    destruct (decide (13 ≠ 13)) as [?|_]; [done|].
    match goal with
    | |- context [get ?m "analysis_session_id"] =>
        change (get m "analysis_session_id") with (c :: session)
    end.
    match goal with
    | |- context [get ?m "analysis_session_id"] =>
        change (get m "analysis_session_id") with (@nil ascii)
    end.
    rewrite Hinvalid. cbn [fst].
    apply warned_check_values.
    + intros k Hk. unfold get at 1. rewrite lookup_insert_ne by done.
      apply (get_other_column [s; s0; s1; s2; s3; s4; s5; s6; s7; s8; s9; s10]
               (c :: session) [] k); done.
    + split; [done|]. split; [done|]. unfold add_warning at 1.
      cbn [warnings].
      apply elem_of_app. right. by apply list_elem_of_singleton.
  - unfold FixLlmCsv.validate_row_locals.
    cbn [length expected_columns].
    destruct (decide (13 ≠ 13)) as [?|_]; [done|].
    match goal with
    | |- context [get ?m "analysis_session_id"] =>
        change (get m "analysis_session_id") with (c :: session)
    end.
    rewrite Hinvalid. cbn [snd]. by rewrite lookup_insert_eq.
  - unfold FixLlmCsv.process_parsed_row, clean_text_fields.
    destruct (clean_text_field _) as [response_text log8].
    destruct (clean_text_field _) as [summary_text log9].
    eexists. split; [by destruct (is_valid _)|]. by split.
Qed.

End ValidatorFacts.

(** C7 at [Sample.row_with_bad_session], with the canonical form
    8-4-4-4-12 of lower-case hexadecimal digits for [uuid.UUID]. *)
Lemma invalid_session_id_written_unchanged_witness :
  let uuid_parses := λ s : str, matches uuid_items s && (length s =? 36) in
  let py_int := λ _ : str, @None Z in
  let py_float := λ _ : str, @None unit in
  let float_between := λ (_ _ : Z) (_ : unit), true in
  let row := Sample.row_with_bad_session in
  (length row = 13 ∧ row !! 12 = Some (lit "not-a-uuid")
   ∧ lit "not-a-uuid" ≠ []
   ∧ is_valid_uuid uuid_parses (lit "not-a-uuid") = false)
  ∧ ∃ row', written (process_parsed_row uuid_parses py_int py_float
                       float_between 2 (State [] 0 0 []) row) = [] ++ [row']
            ∧ row' !! 12 = Some (lit "not-a-uuid")
            ∧ length row' = 13.
Proof.
  intros uuid_parses py_int py_float float_between row.
  assert (H1 : length row = 13) by reflexivity.
  assert (H2 : row !! 12 = Some (lit "not-a-uuid")) by reflexivity.
  assert (H3 : lit "not-a-uuid" ≠ []) by discriminate.
  assert (H4 : is_valid_uuid uuid_parses (lit "not-a-uuid") = false)
    by (vm_compute; reflexivity).
  split; [done|].
  exact (proj2 (proj2 (invalid_session_id_written_unchanged uuid_parses py_int
                         py_float float_between 2 (State [] 0 0 []) row
                         (lit "not-a-uuid") H1 H2 H3 H4))).
Defined.

(** * Further properties of the scripts *)

(** ** [fix_malformed_csv_line] *)

Lemma find_date_part_bounds i n rest j :
  find_date_part i n rest = Some j → i ≤ j ∧ j + 2 < n.
Proof.
  revert i. induction rest as [|part rest IH]; intros i; simpl; [done|].
  destruct ((i + 2 <? n) && matches date_items part) eqn:Hhere.
  - intros [= <-]. apply andb_true_iff in Hhere as [Hlt _].
    apply Nat.ltb_lt in Hlt. lia.
  - intros H. apply IH in H. lia.
Qed.

(** X1: [fix_malformed_csv_line] gives up on a line with fewer than 13
    comma-separated parts; on any other line it returns exactly 13
    fields, of which the first eight are the first eight parts and the
    last three are the last three parts of the line, white space
    stripped. *)
Theorem fix_malformed_csv_line_shape (line : str) :
  let parts := split "," line in
  let n := length parts in
  if n <? 13 then fix_malformed_csv_line line = None
  else ∃ row, fix_malformed_csv_line line = Some row
              ∧ length row = 13
              ∧ (∀ i, i < 8 → row !! i = strip <$> parts !! i)
              ∧ (∀ k, k < 3 → row !! (10 + k) = strip <$> parts !! (n - 3 + k)).
Proof.
  intros parts n. unfold fix_malformed_csv_line. fold parts n.
  destruct (n <? 13) eqn:Hn; [done|]. apply Nat.ltb_ge in Hn.
  eexists. split; [done|].
  set (summary_start := match find_date_part _ _ _ with
                        | Some i => i - 1 | None => n - 4 end).
  assert (Hp : ∀ i, i < n → ∃ p, parts !! i = Some p).
  { intros i Hi. by apply lookup_lt_is_Some_2. }
  unfold record. split; [|split].
  - rewrite length_take, !length_app, length_fmap, length_seq. simpl. lia.
  - intros i Hi. rewrite lookup_take_lt by lia.
    rewrite <- !app_assoc. rewrite lookup_app_l by (rewrite length_fmap, length_seq; lia).
    rewrite list_lookup_fmap, lookup_seq_lt by lia. simpl.
    unfold stripped_or_empty. by destruct (Hp i) as [p ->]; [lia|].
  - intros k Hk. rewrite lookup_take_lt by lia.
    rewrite lookup_app_r by (rewrite !length_app, length_fmap, length_seq; simpl; lia).
    rewrite !length_app, length_fmap, length_seq. simpl length.
    replace (10 + k - (8 + 1 + 1)) with k by lia.
    destruct (Hp (n - 3 + k)) as [p Hlook]; [lia|]. rewrite Hlook.
    destruct k as [|[|[|k]]]; try lia; cbn -[Nat.leb Nat.sub].
    + assert ((3 <=? n) = true) as -> by (apply Nat.leb_le; lia).
      replace (n - 3 + 0) with (n - 3) in Hlook by lia.
      unfold str in *. by rewrite Hlook.
    + assert ((2 <=? n) = true) as -> by (apply Nat.leb_le; lia).
      replace (n - 3 + 1) with (n - 2) in Hlook by lia.
      unfold str in *. by rewrite Hlook.
    + assert ((1 <=? n) = true) as -> by (apply Nat.leb_le; lia).
      replace (n - 3 + 2) with (n - 1) in Hlook by lia.
      unfold str in *. by rewrite Hlook.
Qed.

(** X2: on a line of exactly 13 comma-separated parts whose tenth part
    (the summary) does not start with a date, [fix_malformed_csv_line]
    returns the 13 parts, white space stripped, in their order. *)
Theorem fix_malformed_csv_line_well_formed (line : str) :
  length (split "," line) = 13 →
  (∀ p, split "," line !! 9 = Some p → matches date_items p = false) →
  fix_malformed_csv_line line = Some (strip <$> split "," line).
Proof.
  intros Hlen Hsummary. unfold fix_malformed_csv_line.
  destruct (split "," line) as [|p0 parts]; [done|].
  do 12 (destruct parts as [|? parts]; [done|]). destruct parts; [|done].
  specialize (Hsummary _ eq_refl).
  cbn -[strip matches join]. rewrite Hsummary.
  cbn -[strip matches join].
  match goal with
  | |- context [if matches date_items ?x then _ else _] =>
      destruct (matches date_items x)
  end; cbn -[strip]; done.
Qed.

(** X2 at the line of the scenario. *)
Lemma fix_malformed_csv_line_well_formed_witness :
  (length (split "," Sample.llm_line) = 13
   ∧ ∀ p, split "," Sample.llm_line !! 9 = Some p →
          matches date_items p = false)
  ∧ fix_malformed_csv_line Sample.llm_line =
    Some (strip <$> split "," Sample.llm_line).
Proof.
  assert (H1 : length (split "," Sample.llm_line) = 13) by reflexivity.
  assert (H2 : ∀ p, split "," Sample.llm_line !! 9 = Some p →
                    matches date_items p = false).
  { intros p Hp. vm_compute in Hp. injection Hp as <-. reflexivity. }
  split; [done|].
  exact (fix_malformed_csv_line_well_formed Sample.llm_line H1 H2).
Defined.

(** ** [clean_text_field] *)

Lemma elem_of_replace c new s x :
  x ∈ replace c new s → x ∈ new ∨ (x ∈ s ∧ x ≠ c).
Proof.
  induction s as [|y s IH]; simpl; [by intros ?%elem_of_nil|].
  rewrite elem_of_app. intros [Hhere|Hrest].
  - destruct (decide (y = c)); [by left|].
    apply list_elem_of_singleton in Hhere as ->. right.
    split; [by left|done].
  - destruct (IH Hrest) as [?|[? ?]]; [by left|]. right.
    split; [by right|done].
Qed.

Lemma replace_absent c new s : c ∉ s → replace c new s = s.
Proof.
  induction s as [|y s IH]; simpl; [done|].
  intros Hnotin. apply not_elem_of_cons in Hnotin as [Hne Hnotin].
  destruct (decide (y = c)); [congruence|]. simpl. by rewrite IH.
Qed.

Lemma escaped_text_has_no_control text x :
  x ∈ escape (remove_nul text) → x ≠ "000" ∧ x ≠ "010" ∧ x ≠ "013".
Proof.
  unfold escape, remove_nul. intros H.
  apply elem_of_replace in H as [H|[H _]].
  { apply elem_of_cons in H as [->|H]; [done|].
    by apply list_elem_of_singleton in H as ->. }
  apply elem_of_replace in H as [H|[H Hcr]].
  { apply elem_of_cons in H as [->|H]; [done|].
    by apply list_elem_of_singleton in H as ->. }
  apply elem_of_replace in H as [H|[H Hlf]].
  { apply elem_of_cons in H as [->|H]; [done|].
    by apply list_elem_of_singleton in H as ->. }
  apply elem_of_replace in H as [H|[H Hnul]]; [by apply elem_of_nil in H|].
  done.
Qed.

(** X3: whatever the text, the result of [clean_text_field] contains no
    NUL character, no line feed and no carriage return. *)
Theorem clean_text_field_has_no_control (text : str) :
  Forall (λ x, x ≠ "000" ∧ x ≠ "010" ∧ x ≠ "013") (clean_text_field text).1.
Proof.
  apply Forall_forall. intros x.
  unfold clean_text_field. destruct text as [|c text]; simpl fst.
  { by intros ?%elem_of_nil. }
  destruct (max_text_length <? _)%Z; simpl fst.
  - rewrite elem_of_app. intros [H|H].
    + apply subseteq_take in H. by apply escaped_text_has_no_control in H.
    + revert H. unfold truncation_marker, lit. simpl.
      rewrite !elem_of_cons.
      intros H. repeat (destruct H as [->|H]; [done|]).
      by apply elem_of_nil in H.
  - apply escaped_text_has_no_control.
Qed.

(** X4: whatever the text, the result of [clean_text_field] has at most
    50,000 characters plus the 15 of the truncation marker. *)
Theorem clean_text_field_bounded (text : str) :
  (len (clean_text_field text).1 ≤ max_text_length + len truncation_marker)%Z.
Proof.
  unfold clean_text_field. destruct text as [|c text]; [done|].
  destruct (max_text_length <? _)%Z eqn:Hcmp; simpl fst.
  - unfold len. rewrite length_app, length_take, Nat2Z.inj_add.
    unfold max_text_length. lia.
  - apply Z.ltb_ge in Hcmp. unfold len in *.
    change (Z.of_nat (length truncation_marker)) with 15%Z. lia.
Qed.

(** X5: a text of at most 50,000 characters that has no NUL, no line
    feed, no carriage return and no double quote is returned as it is,
    and nothing is logged. *)
Theorem clean_text_field_plain (text : str) :
  Forall (λ c, c ∉ ["000"; "010"; "013"; dq]) text →
  (len text ≤ max_text_length)%Z →
  clean_text_field text = (text, []).
Proof.
  intros Hplain Hlen.
  assert (Habsent : ∀ c, c ∈ ["000"; "010"; "013"; dq] → c ∉ text).
  { intros c Hc Hin. eapply Forall_forall in Hplain; [|done]. done. }
  assert (Hesc : escape (remove_nul text) = text).
  { unfold escape, remove_nul.
    rewrite (replace_absent "000") by (apply Habsent; set_solver).
    rewrite (replace_absent "010") by (apply Habsent; set_solver).
    rewrite (replace_absent "013") by (apply Habsent; set_solver).
    rewrite (replace_absent dq) by (apply Habsent; set_solver). done. }
  unfold clean_text_field. destruct text as [|c text]; [done|].
  rewrite Hesc.
  destruct (max_text_length <? _)%Z eqn:Hcmp; [|done].
  apply Z.ltb_lt in Hcmp. lia.
Qed.

(** X5 at the response text of the scenario. *)
Lemma clean_text_field_plain_witness :
  (Forall (λ c, c ∉ ["000"; "010"; "013"; dq]) (lit "hello")
   ∧ (len (lit "hello") ≤ max_text_length)%Z)
  ∧ clean_text_field (lit "hello") = (lit "hello", []).
Proof.
  assert (H1 : Forall (λ c, c ∉ ["000"; "010"; "013"; dq]) (lit "hello")).
  { repeat constructor; intros H;
      repeat (apply elem_of_cons in H as [H|H]; [discriminate H|]);
      by apply elem_of_nil in H. }
  assert (H2 : (len (lit "hello") ≤ max_text_length)%Z) by (vm_compute; discriminate).
  split; [done|]. exact (clean_text_field_plain (lit "hello") H1 H2).
Defined.

(** ** [validate_row] *)

Section VerdictFacts.

Context (uuid_parses : str → bool) (py_int : str → option Z).
Context {float : Type} (py_float : str → option float).
Context (float_between : Z → Z → float → bool).

Lemma coherent_add_error m v : coherent (add_error m v).
Proof.
  unfold coherent; simpl. split; [done|].
  intros H. by apply app_eq_nil in H as [_ ?].
Qed.

Lemma coherent_add_warning m v : coherent v → coherent (add_warning m v).
Proof. done. Qed.

Lemma coherent_check_required_uuid row_dict v field :
  coherent v → coherent (check_required_uuid uuid_parses row_dict v field).
Proof.
  intros H. unfold check_required_uuid.
  destruct (is_valid_uuid _ _); [done|apply coherent_add_error].
Qed.

Lemma coherent_check_rank value v :
  coherent v → coherent (check_rank py_int value v).
Proof.
  intros H. unfold check_rank. destruct (nonblank value); [|done].
  destruct (py_int value) as [n|]; [|done].
  destruct (n <? -1)%Z; [apply coherent_add_error|done].
Qed.

Lemma coherent_check_score field lo hi value v :
  coherent v →
  coherent (check_score py_float float_between field lo hi value v).
Proof.
  intros H. unfold check_score. destruct (nonblank value); [|done].
  destruct (py_float value) as [x|]; [|done].
  destruct (float_between lo hi x); [done|apply coherent_add_error].
Qed.

Lemma coherent_check_values row_dict v :
  coherent v →
  coherent (check_values py_int py_float float_between row_dict v).
Proof.
  intros H. unfold check_values.
  apply coherent_check_score, coherent_check_score, coherent_check_rank.
  destruct (bool_decide _); [|apply coherent_add_warning];
    (destruct (decide _); [done|apply coherent_add_error]).
Qed.

(** X6: for every row, [validate_row] answers [is_valid = True] exactly
    when its list of errors is empty; warnings never change the verdict.
    So the test [validation['is_valid'] or len(validation['errors']) == 0]
    of [process_file] is the test of [is_valid] alone. *)
Theorem validate_row_verdict (row : record) :
  let v := validate_row uuid_parses py_int py_float float_between row in
  (is_valid v = true ↔ errors v = [])
  ∧ is_valid v || bool_decide (length (errors v) = 0) = is_valid v.
Proof.
  intros v.
  assert (Hv : coherent v).
  { unfold v, validate_row, validate_row_locals.
    destruct (decide _); [apply coherent_add_error|].
    set (row_dict := list_to_map _).
    assert (Huuid : coherent
              (foldl (check_required_uuid uuid_parses row_dict)
                 (Validation true [] []) ["id"; "prompt_id"; "website_id"]%string)).
    { simpl. do 3 apply coherent_check_required_uuid. done. }
    destruct (get row_dict "analysis_session_id") as [|c session]; cbn [fst].
    - by apply coherent_check_values.
    - destruct (is_valid_uuid uuid_parses (c :: session)); cbn [fst].
      + by apply coherent_check_values.
      + by apply coherent_check_values, coherent_add_warning. }
  split; [exact Hv|].
  destruct (is_valid v) eqn:Hvalid; [done|]. simpl.
  apply bool_decide_eq_false. intros Hlen.
  apply nil_length_inv in Hlen. apply Hv in Hlen. congruence.
Qed.

End VerdictFacts.

(** ** The split of a well-formed text span *)

Lemma rfind_unique sub s i :
  i ≤ length s → startswith sub (drop i s) = true →
  (∀ k, i < k ≤ length s → startswith sub (drop k s) = false) →
  rfind sub s = Some i.
Proof.
  intros Hi Hat Hlast. destruct (rfind sub s) as [j|] eqn:Hrfind.
  - apply rfind_last in Hrfind as (Hj & Hatj & Hlastj). f_equal.
    destruct (decide (j < i)) as [Hlt|Hge].
    { rewrite Hlastj in Hat by lia. done. }
    destruct (decide (i < j)) as [Hlt|Hge'].
    { rewrite Hlast in Hatj by lia. done. }
    lia.
  - unfold rfind in Hrfind.
    by rewrite (rfind_from_None _ _ _ Hrfind i Hi) in Hat.
Qed.

Lemma lstrip_by_fixed p s :
  (∀ c, head s = Some c → p c = false) → lstrip_by p s = s.
Proof.
  destruct s as [|c s]; [done|]. intros H. simpl. by rewrite (H c).
Qed.

Lemma rstrip_by_fixed p s :
  (∀ c, last s = Some c → p c = false) → rstrip_by p s = s.
Proof.
  intros H. unfold rstrip_by. rewrite lstrip_by_fixed.
  - apply reverse_involutive.
  - intros c Hc. apply H. by rewrite <- head_reverse.
Qed.

Lemma rstrip_by_snoc p s c :
  p c = true → rstrip_by p (s ++ [c]) = rstrip_by p s.
Proof.
  intros Hc. unfold rstrip_by. rewrite reverse_app. simpl. by rewrite Hc.
Qed.

(** X8: the split of the competitor parsers and of [create_clean_csv]
    recovers both fields of a well-formed text span: when the response [r]
    and the summary [s] neither begin nor end with a double quote and the
    quoted summary contains no quote-comma-quote joint, the span made of
    the quoted [r], a comma and the quoted [s] is split into [(r, s)]. *)
Theorem split_text_span_round_trip (r s : str) :
  head r ≠ Some dq → last r ≠ Some dq →
  head s ≠ Some dq → last s ≠ Some dq →
  contains joint (dq :: s ++ [dq]) = false →
  split_text_span (dq :: r ++ joint ++ s ++ [dq]) = (r, s).
Proof.
  intros Hr1 Hr2 Hs1 Hs2 Hnojoint.
  set (span := dq :: r ++ joint ++ s ++ [dq]).
  assert (Hquote : ∀ c, char_in [dq] c = true ↔ c = dq).
  { intros c. unfold char_in. rewrite bool_decide_eq_true.
    apply list_elem_of_singleton. }
  assert (Hnot : ∀ c, c ≠ dq → char_in [dq] c = false).
  { intros c Hc. destruct (char_in [dq] c) eqn:E; [|done].
    by apply Hquote in E. }
  assert (Hdrop : drop (S (length r)) span = joint ++ s ++ [dq]).
  { unfold span. simpl. by rewrite drop_app_length. }
  assert (Hspan : length span = length r + length s + 5).
  { unfold span, joint. simpl. rewrite length_app. simpl.
    rewrite length_app. simpl. lia. }
  assert (Hrfind : rfind joint span = Some (S (length r))).
  { apply rfind_unique.
    - lia.
    - rewrite Hdrop. done.
    - intros k Hk.
      replace k with (S (length r) + (k - S (length r))) by lia.
      rewrite <- drop_drop, Hdrop.
      destruct (k - S (length r)) as [|[|k']] eqn:Hk'; [lia| |].
      + by destruct s.
      + change (drop (S (S k')) (joint ++ s ++ [dq]))
          with (drop k' (dq :: s ++ [dq])).
        unfold contains, find in Hnojoint.
        destruct (find_from 0 joint (dq :: s ++ [dq])) eqn:Hfind; [done|].
        apply (find_from_None _ _ _ Hfind).
        rewrite Hspan in Hk. simpl. rewrite length_app. simpl. lia. }
  pose proof (split_text_span_spec span) as Hspec. rewrite Hrfind in Hspec.
  rewrite Hspec. f_equal.
  - unfold span. change (take (S (length r)) (dq :: r ++ joint ++ s ++ [dq]))
      with (dq :: take (length r) (r ++ joint ++ s ++ [dq])).
    rewrite take_app_length. unfold strip_chars, strip_by. simpl.
    rewrite lstrip_by_fixed.
    + apply rstrip_by_fixed. intros c Hc. apply Hnot. congruence.
    + intros c Hc. apply Hnot. congruence.
  - replace (S (length r) + 3) with (S (length r) + length joint) by done.
    rewrite <- drop_drop, Hdrop, drop_app_length.
    unfold strip_chars, strip_by.
    destruct s as [|c s'].
    + done.
    + rewrite lstrip_by_fixed.
      * rewrite rstrip_by_snoc by by apply Hquote.
        apply rstrip_by_fixed. intros c' Hc'. apply Hnot. congruence.
      * simpl. intros c' [= <-]. apply Hnot. simpl in Hs1. congruence.
Qed.

(** X8 at the text span of the scenario. *)
Lemma split_text_span_round_trip_witness :
  (head (lit "hello") ≠ Some dq ∧ last (lit "hello") ≠ Some dq
   ∧ head (lit "world") ≠ Some dq ∧ last (lit "world") ≠ Some dq
   ∧ contains joint (dq :: lit "world" ++ [dq]) = false)
  ∧ split_text_span (dq :: lit "hello" ++ joint ++ lit "world" ++ [dq]) =
    (lit "hello", lit "world").
Proof.
  assert (H1 : head (lit "hello") ≠ Some dq) by discriminate.
  assert (H2 : last (lit "hello") ≠ Some dq) by discriminate.
  assert (H3 : head (lit "world") ≠ Some dq) by discriminate.
  assert (H4 : last (lit "world") ≠ Some dq) by discriminate.
  assert (H5 : contains joint (dq :: lit "world" ++ [dq]) = false)
    by reflexivity.
  split; [done|].
  exact (split_text_span_round_trip (lit "hello") (lit "world") H1 H2 H3 H4 H5).
Defined.

(** ** Counting records *)

Lemma length_segment_from cur body :
  length (segment_from cur body) =
  length (flushed cur)
  + length (List.filter is_record_start (rstrip_newline <$> body)).
Proof.
  revert cur. induction body as [|raw body IH]; intros cur; simpl; [lia|].
  change (list_fmap str str rstrip_newline body)
    with (rstrip_newline <$> body).
  destruct (is_record_start (rstrip_newline raw)) eqn:Hstart.
  - rewrite length_app, IH. simpl. lia.
  - destruct cur as [|c cur]; rewrite IH; [done|].
    by destruct cur.
Qed.

Lemma length_omap_le {A B} (f : A → option B) (l : list A) :
  length (omap f l) ≤ length l.
Proof.
  induction l as [|x l IH]; [done|].
  change (omap f (x :: l))
    with (match f x with Some y => y :: omap f l | None => omap f l end).
  destruct (f x); simpl; lia.
Qed.

Lemma final_count_invariant st body :
  FixCsvFinal.record_count st = length (FixCsvFinal.records st) →
  let st' := FixCsvFinal.finish (foldl FixCsvFinal.step st body) in
  FixCsvFinal.record_count st' = length (FixCsvFinal.records st').
Proof.
  assert (Hflush : ∀ st,
    FixCsvFinal.record_count st = length (FixCsvFinal.records st) →
    FixCsvFinal.record_count (FixCsvFinal.flush st) =
    length (FixCsvFinal.records (FixCsvFinal.flush st))).
  { intros st' H. unfold FixCsvFinal.flush.
    destruct (FixCsvFinal.process_record_lines _) as [[|f fs]|]; try done.
    simpl. rewrite length_app. simpl. lia. }
  revert st. induction body as [|raw body IH]; intros st H; simpl.
  - unfold FixCsvFinal.finish.
    destruct (FixCsvFinal.current_record_lines st); [done|]. by apply Hflush.
  - apply IH. unfold FixCsvFinal.step.
    destruct (is_record_start _); simpl.
    + destruct (FixCsvFinal.current_record_lines st); [done|]. by apply Hflush.
    + by destruct (FixCsvFinal.current_record_lines st).
Qed.

Lemma clean_count_invariant max_records st body :
  CreateCleanCsv.processed st = length (CreateCleanCsv.records st) →
  let st' := CreateCleanCsv.finish (CreateCleanCsv.loop max_records st body) in
  CreateCleanCsv.processed st' = length (CreateCleanCsv.records st').
Proof.
  assert (Hproc : ∀ st,
    CreateCleanCsv.processed st = length (CreateCleanCsv.records st) →
    CreateCleanCsv.processed (CreateCleanCsv.process_record st) =
    length (CreateCleanCsv.records (CreateCleanCsv.process_record st))).
  { intros st' H. unfold CreateCleanCsv.process_record.
    destruct (CreateCleanCsv.accepted_shape _); [|done].
    simpl. rewrite length_app. simpl. lia. }
  assert (Hfin : ∀ st,
    CreateCleanCsv.processed st = length (CreateCleanCsv.records st) →
    CreateCleanCsv.processed (CreateCleanCsv.finish st) =
    length (CreateCleanCsv.records (CreateCleanCsv.finish st))).
  { intros st' H. unfold CreateCleanCsv.finish.
    destruct (CreateCleanCsv.current_record_lines st'); [done|].
    by apply Hproc. }
  revert st. induction body as [|raw body IH]; intros st H; simpl.
  - by apply Hfin.
  - destruct (CreateCleanCsv.limit_reached max_records st); [by apply Hfin|].
    apply IH. unfold CreateCleanCsv.step.
    destruct (is_record_start _); simpl.
    + destruct (CreateCleanCsv.current_record_lines st); [done|].
      by apply Hproc.
    + by destruct (CreateCleanCsv.current_record_lines st).
Qed.

Lemma simple_count_invariant st body :
  length (FixCsvSimple.fixed_lines st) = S (FixCsvSimple.record_count st) →
  let st' := FixCsvSimple.save (foldl FixCsvSimple.step st body) in
  length (FixCsvSimple.fixed_lines st') = S (FixCsvSimple.record_count st').
Proof.
  assert (Hsave : ∀ st,
    length (FixCsvSimple.fixed_lines st) = S (FixCsvSimple.record_count st) →
    length (FixCsvSimple.fixed_lines (FixCsvSimple.save st)) =
    S (FixCsvSimple.record_count (FixCsvSimple.save st))).
  { intros st' H. unfold FixCsvSimple.save.
    destruct (strip _); [done|]. simpl. rewrite length_app. simpl. lia. }
  revert st. induction body as [|raw body IH]; intros st H; simpl.
  - by apply Hsave.
  - apply IH. unfold FixCsvSimple.step.
    destruct (is_record_start _); simpl; [by apply Hsave|].
    by destruct (FixCsvSimple.current_record st).
Qed.

(** X9: the number that each script returns and prints is the number of
    records it writes: [record_count] of [fix_csv_final] and [processed]
    of [create_clean_csv] (with or without a record limit) equal
    [len(records)], and [fix_csv_simple] writes its header line and
    [record_count] record lines. *)
Theorem returned_counts_match_output (max_records : option nat)
    (header : str) (body : list str) :
  (∀ st, FixCsvFinal.fix_csv_final (header :: body) = Some st →
         FixCsvFinal.record_count st = length (FixCsvFinal.records st))
  ∧ (let st := CreateCleanCsv.create_clean_csv max_records (header :: body) in
     CreateCleanCsv.processed st = length (CreateCleanCsv.records st))
  ∧ (∀ st, FixCsvSimple.fix_csv_simple (header :: body) = Some st →
           length (FixCsvSimple.fixed_lines st) =
           S (FixCsvSimple.record_count st)).
Proof.
  split; [|split].
  - intros st [= <-]. by apply (final_count_invariant FixCsvFinal.init).
  - by apply (clean_count_invariant max_records CreateCleanCsv.init).
  - intros st [= <-]. by apply simple_count_invariant.
Qed.

(** X9 on a file of two records. *)
Lemma returned_counts_match_output_witness :
  let lines := [Sample.header; Sample.llm_line; Sample.llm_line] in
  ∃ st, FixCsvFinal.fix_csv_final lines = Some st
        ∧ FixCsvFinal.record_count st = length (FixCsvFinal.records st)
        ∧ FixCsvFinal.record_count st = 2.
Proof.
  intros lines.
  exists (FixCsvFinal.finish (FixCsvFinal.loop [Sample.llm_line; Sample.llm_line])).
  split; [reflexivity|]. split.
  - exact (proj1 (returned_counts_match_output None Sample.header
                    [Sample.llm_line; Sample.llm_line]) _ eq_refl).
  - by vm_compute.
Defined.

(** X10: [fix_csv_simple] writes exactly one record line for each line of
    the input that matches the record-start anchor, so it drops no
    record; the resolving scripts write at most one record for each such
    line.  In particular a file without any record-start line gives no
    record. *)
Theorem one_record_per_record_start (ids : gset str)
    (max_records : option nat) (header : str) (body : list str) :
  let starts :=
    length (List.filter is_record_start (rstrip_newline <$> body)) in
  (FixCsvSimple.record_count <$>
     FixCsvSimple.fix_csv_simple (header :: body)) = Some starts
  ∧ length (from_option FixCsvFinal.records []
              (FixCsvFinal.fix_csv_final (header :: body)))
    ≤ starts
  ∧ length (CreateCleanCsv.records
              (CreateCleanCsv.create_clean_csv None (header :: body)))
    ≤ starts
  ∧ length (FixCompetitorCsv.records
              (FixCompetitorCsv.fix_competitor_csv ids (header :: body)))
    ≤ starts
  ∧ length (FixCompetitorCsvFinal.records
              (FixCompetitorCsvFinal.fix_competitor_csv_final ids
                 (header :: body)))
    ≤ starts.
Proof.
  intros starts.
  assert (Hgroups : length (segment_from [] body) = starts).
  { by rewrite length_segment_from. }
  split; [|split; [|split; [|split]]].
  - simpl. f_equal.
    pose proof (simple_count_invariant
                  (FixCsvSimple.State [strip header] [] 0) body eq_refl) as Hc.
    simpl in Hc.
    rewrite (simple_loop_segments _ [] body) in Hc; [|by left|done].
    simpl in Hc. rewrite length_fmap in Hc. lia.
  - simpl. rewrite (final_loop_segments FixCsvFinal.init). simpl.
    rewrite <- Hgroups. apply length_omap_le.
  - unfold CreateCleanCsv.create_clean_csv.
    change (drop 1 (header :: body)) with body.
    rewrite clean_loop_unlimited, (clean_loop_segments CreateCleanCsv.init).
    simpl. rewrite <- Hgroups. apply length_omap_le.
  - unfold FixCompetitorCsv.fix_competitor_csv, FixCompetitorCsv.loop.
    change (drop 1 (header :: body)) with body.
    rewrite (competitor_loop_segments ids FixCompetitorCsv.init).
    simpl. rewrite <- Hgroups. apply length_omap_le.
  - unfold FixCompetitorCsvFinal.fix_competitor_csv_final,
      FixCompetitorCsvFinal.loop.
    change (drop 1 (header :: body)) with body.
    rewrite (competitor_final_loop_segments ids FixCompetitorCsvFinal.init).
    simpl. rewrite <- Hgroups. apply length_omap_le.
Qed.

(** ** The record limit of [create_clean_csv] *)

Lemma clean_process_record_grows st :
  length (CreateCleanCsv.records (CreateCleanCsv.process_record st))
  ≤ S (length (CreateCleanCsv.records st)).
Proof.
  rewrite clean_process_records, length_app.
  destruct (resolve_clean _); simpl; lia.
Qed.

Lemma clean_loop_within_limit m st body :
  length (CreateCleanCsv.records st) ≤ S m →
  length (CreateCleanCsv.records (CreateCleanCsv.loop (Some (S m)) st body))
  ≤ S m.
Proof.
  revert st. induction body as [|raw body IH]; intros st Hst; [done|].
  cbn [CreateCleanCsv.loop]. unfold CreateCleanCsv.limit_reached.
  destruct (S m <=? length (CreateCleanCsv.records st)) eqn:Hlimit; [done|].
  apply Nat.leb_gt in Hlimit. apply IH. unfold CreateCleanCsv.step.
  destruct (is_record_start _); simpl.
  - destruct (CreateCleanCsv.current_record_lines st); [lia|].
    pose proof (clean_process_record_grows st). lia.
  - destruct (CreateCleanCsv.current_record_lines st); simpl; lia.
Qed.

(** X11: with a record limit [max_records = m > 0], [create_clean_csv]
    returns at most [m + 1] records, not [m]: the loop stops once [m]
    records are collected, and the record that is open at that moment is
    still resolved after the loop.  The bound is reached: with [m = 1]
    and three one-line records, two are returned. *)
Theorem create_clean_csv_limit (m : nat) (lines : list str) :
  length (CreateCleanCsv.records
            (CreateCleanCsv.create_clean_csv (Some (S m)) lines)) ≤ S m + 1
  ∧ length (CreateCleanCsv.records
              (CreateCleanCsv.create_clean_csv (Some 1)
                 [Sample.header; Sample.llm_line; Sample.llm_line;
                  Sample.llm_line])) = 2.
Proof.
  split; [|by vm_compute].
  unfold CreateCleanCsv.create_clean_csv, CreateCleanCsv.finish.
  pose proof (clean_loop_within_limit m CreateCleanCsv.init (drop 1 lines))
    as Hloop.
  destruct (CreateCleanCsv.current_record_lines _).
  - simpl in Hloop. lia.
  - etrans; [apply clean_process_record_grows|]. simpl in Hloop. lia.
Qed.

(** ** Resynchronisation *)

Lemma segment_from_app cur body1 body2 :
  (∀ raw, head body2 = Some raw → is_record_start (rstrip_newline raw) = true) →
  segment_from cur (body1 ++ body2) =
  segment_from cur body1 ++ segment_from [] body2.
Proof.
  intros Hstart. revert cur.
  induction body1 as [|raw body1 IH]; intros cur; simpl.
  - destruct body2 as [|raw body2]; simpl; [by rewrite app_nil_r|].
    by rewrite (Hstart raw).
  - destruct (is_record_start (rstrip_newline raw)).
    + by rewrite IH, app_assoc.
    + destruct cur; apply IH.
Qed.

(** X12: the scripts resynchronise on every record-start line.  When the
    lines after the header are cut in front of a line that matches the
    anchor, the records written for the whole file are those written for
    the first piece followed by those written for the second piece:
    whatever comes before a record-start line, a malformed record
    included, has no effect on the records resolved from it on. *)
Theorem records_of_pieces (ids : gset str) (header : str)
    (body1 body2 : list str) :
  (∀ raw, head body2 = Some raw → is_record_start (rstrip_newline raw) = true) →
  from_option FixCsvFinal.records []
    (FixCsvFinal.fix_csv_final (header :: body1 ++ body2)) =
  from_option FixCsvFinal.records []
    (FixCsvFinal.fix_csv_final (header :: body1))
  ++ from_option FixCsvFinal.records []
       (FixCsvFinal.fix_csv_final (header :: body2))
  ∧ CreateCleanCsv.records
      (CreateCleanCsv.create_clean_csv None (header :: body1 ++ body2)) =
    CreateCleanCsv.records
      (CreateCleanCsv.create_clean_csv None (header :: body1))
    ++ CreateCleanCsv.records
         (CreateCleanCsv.create_clean_csv None (header :: body2))
  ∧ FixCompetitorCsv.records
      (FixCompetitorCsv.fix_competitor_csv ids (header :: body1 ++ body2)) =
    FixCompetitorCsv.records
      (FixCompetitorCsv.fix_competitor_csv ids (header :: body1))
    ++ FixCompetitorCsv.records
         (FixCompetitorCsv.fix_competitor_csv ids (header :: body2)).
Proof.
  intros Hstart. split; [|split].
  - simpl. rewrite !(final_loop_segments FixCsvFinal.init). simpl.
    by rewrite segment_from_app, omap_app.
  - unfold CreateCleanCsv.create_clean_csv.
    change (drop 1 (header :: body1 ++ body2)) with (body1 ++ body2).
    change (drop 1 (header :: body1)) with body1.
    change (drop 1 (header :: body2)) with body2.
    rewrite !clean_loop_unlimited, !(clean_loop_segments CreateCleanCsv.init).
    simpl. by rewrite segment_from_app, omap_app.
  - unfold FixCompetitorCsv.fix_competitor_csv, FixCompetitorCsv.loop.
    change (drop 1 (header :: body1 ++ body2)) with (body1 ++ body2).
    change (drop 1 (header :: body1)) with body1.
    change (drop 1 (header :: body2)) with body2.
    rewrite !(competitor_loop_segments ids FixCompetitorCsv.init).
    simpl. by rewrite segment_from_app, omap_app.
Qed.

(** X12 with a malformed record in front of the record of the scenario. *)
Lemma records_of_pieces_witness :
  let bad := lit "a1b2c3d4-e5f6-7890-abcd-ef1234567890,too,short" in
  (∀ raw, head [Sample.llm_line] = Some raw →
          is_record_start (rstrip_newline raw) = true)
  ∧ from_option FixCsvFinal.records []
      (FixCsvFinal.fix_csv_final (Sample.header :: [bad] ++ [Sample.llm_line]))
    = from_option FixCsvFinal.records []
        (FixCsvFinal.fix_csv_final (Sample.header :: [bad]))
      ++ from_option FixCsvFinal.records []
           (FixCsvFinal.fix_csv_final (Sample.header :: [Sample.llm_line])).
Proof.
  intros bad.
  assert (H : ∀ raw, head [Sample.llm_line] = Some raw →
                     is_record_start (rstrip_newline raw) = true).
  { intros raw [= <-]. by vm_compute. }
  split; [exact H|].
  exact (proj1 (records_of_pieces ∅ Sample.header [bad] [Sample.llm_line] H)).
Defined.

(** ** What the matcher accepts *)

Lemma try_down_inv k lo rest r :
  try_down k lo rest = Some r →
  ∃ j r', lo ≤ j ≤ k ∧ rest j = Some r' ∧ r = j + r'.
Proof.
  induction k as [|k IH]; simpl.
  - destruct (0 <? lo) eqn:Hlt; [done|]. apply Nat.ltb_ge in Hlt.
    destruct (rest 0) as [r'|] eqn:Hrest; [|done].
    intros [= <-]. exists 0, r'. repeat split; [lia|lia|done].
  - destruct (S k <? lo) eqn:Hlt; [done|]. apply Nat.ltb_ge in Hlt.
    destruct (rest (S k)) as [r'|] eqn:Hrest.
    + intros [= <-]. exists (S k), r'. repeat split; [lia|lia|done].
    + intros H. destruct (IH H) as (j & r' & Hj & Hr & ->).
      exists j, r'. repeat split; [lia|lia|done].
Qed.

Lemma run_prefix p limit s j :
  j ≤ run p limit s →
  j ≤ length s ∧ Forall (λ c, p c = true) (take j s)
  ∧ ∀ h, limit = Some h → j ≤ h.
Proof.
  revert limit j. induction s as [|c s IH]; intros limit j; simpl.
  - destruct limit as [[|h]|]; intros Hj; assert (j = 0) as -> by lia;
      repeat split; try done; intros ? [= <-]; lia.
  - destruct limit as [[|h]|]; simpl.
    + intros Hj. assert (j = 0) as -> by lia.
      repeat split; [lia|done|]. intros ? [= <-]. lia.
    + destruct (p c) eqn:Hc.
      * destruct j as [|j]; intros Hj.
        { repeat split; [lia|done|]. intros ? [= <-]. lia. }
        destruct (IH (Some h) j) as (Hlen & Hall & Hlim); [lia|].
        repeat split; [lia|by constructor|].
        intros ? [= <-]. specialize (Hlim h eq_refl). lia.
      * intros Hj. assert (j = 0) as -> by lia.
        repeat split; [lia|done|]. intros ? [= <-]. lia.
    + destruct (p c) eqn:Hc.
      * destruct j as [|j]; intros Hj.
        { repeat split; [lia|done|done]. }
        destruct (IH None j) as (Hlen & Hall & _); [lia|].
        repeat split; [lia|by constructor|done].
      * intros Hj. assert (j = 0) as -> by lia.
        repeat split; [lia|done|done].
Qed.

(** A successful match covers a prefix that the pattern accepts. *)
Lemma match_items_sound p s n :
  match_items p s = Some n → n ≤ length s ∧ accepts p (take n s).
Proof.
  revert s n. induction p as [|it p IH]; intros s n; simpl.
  - intros [= <-]. split; [lia|done].
  - intros H. apply try_down_inv in H as (j & r & Hj & Hrest & ->).
    destruct (run_prefix (cls it) (hi it) s j) as (Hlen & Hall & Hlim); [lia|].
    apply IH in Hrest as [Hr Hacc]. rewrite length_drop in Hr.
    split; [lia|]. exists (take j s), (take r (drop j s)).
    split; [by rewrite take_take_drop|].
    rewrite length_take. repeat split; [lia| |done|done].
    intros h Hh. specialize (Hlim h Hh). lia.
Qed.

Lemma accepts_app p q s :
  accepts (p ++ q) s ↔ ∃ a b, s = a ++ b ∧ accepts p a ∧ accepts q b.
Proof.
  revert s. induction p as [|it p IH]; intros s; simpl.
  - split.
    + intros H. by exists [], s.
    + by intros (a & b & -> & -> & H).
  - split.
    + intros (g & s' & -> & Hlo & Hhi & Hall & Hrest).
      apply IH in Hrest as (a & b & -> & Ha & Hb).
      exists (g ++ a), b. split; [by rewrite app_assoc|].
      split; [|done]. by exists g, a.
    + intros (a & b & -> & (g & a' & -> & Hlo & Hhi & Hall & Ha) & Hb).
      exists g, (a' ++ b). split; [by rewrite app_assoc|].
      repeat split; try done. apply IH. by exists a', b.
Qed.

Lemma accepts_chr c s : accepts [chr c] s ↔ s = [c].
Proof.
  simpl. split.
  - intros (g & s' & -> & Hlo & Hhi & Hall & ->).
    specialize (Hhi 1 eq_refl). rewrite app_nil_r.
    destruct g as [|x [|y g]]; simpl in *; try lia.
    apply Forall_cons in Hall as [Hx _]. apply Ascii.eqb_eq in Hx. by subst.
  - intros ->. exists [c], []. repeat split; simpl; try done.
    + intros h [= <-]. lia.
    + repeat constructor. apply Ascii.eqb_refl.
Qed.

(** A field taken by [match_field]: the field is accepted by the
    pattern and is followed by a comma and by the text that remains. *)
Lemma match_field_Some p s field remaining :
  FixCompetitorCsvFinal.match_field p s = Some (field, remaining) →
  accepts p field ∧ s = field ++ "," :: remaining.
Proof.
  unfold FixCompetitorCsvFinal.match_field.
  destruct (match_items (p ++ [chr ","]) s) as [n|] eqn:Hm; [|done].
  intros [= <- <-]. apply match_items_sound in Hm as [Hn Hacc].
  apply accepts_app in Hacc as (a & b & Hsplit & Ha & Hb).
  apply accepts_chr in Hb as ->.
  assert (Hlen : n = length a + 1).
  { apply (f_equal length) in Hsplit.
    rewrite length_take, length_app in Hsplit. simpl in Hsplit. lia. }
  assert (Hfield : take (n - 1) s = a).
  { replace (n - 1) with (length a) by lia.
    rewrite <- (take_app_length a [","]) at 2. rewrite <- Hsplit, take_take.
    f_equal. lia. }
  split; [by rewrite Hfield|].
  rewrite Hfield. rewrite <- (take_drop n s) at 1. rewrite Hsplit.
  by rewrite <- app_assoc.
Qed.

Lemma group_accepts p s m : m ∈ finditer p s → accepts p (group s m).
Proof.
  intros Hin. apply finditer_sound in Hin as (_ & Hmatch & _).
  apply match_items_sound in Hmatch as [_ Hacc]. done.
Qed.

Lemma last_two_groups_accept p s a c :
  last_two (finditer p s) = Some (a, c) →
  accepts p (group s a) ∧ accepts p (group s c).
Proof.
  intros H. apply last_two_Some in H as [l' Hl].
  split; apply group_accepts; rewrite Hl; set_solver.
Qed.

Lemma accepts_not_comma field :
  accepts [not_comma1] field → field ≠ [] ∧ "," ∉ field.
Proof.
  simpl. intros (g & s' & -> & Hlo & _ & Hall & ->). rewrite app_nil_r.
  split; [by destruct g; simpl in *; [lia|]|].
  intros Hin. eapply Forall_forall in Hall; [|done]. done.
Qed.

Lemma match_boolean_Some s field remaining :
  FixCompetitorCsvFinal.match_boolean s = Some (field, remaining) →
  field = lit "true" ∨ field = lit "false".
Proof.
  unfold FixCompetitorCsvFinal.match_boolean.
  destruct (startswith (lit "true,") s); [intros [= <- _]; by left|].
  destruct (startswith (lit "false,") s); [intros [= <- _]; by right|done].
Qed.

(** X13: a record resolved by [parse_competitor_record_robust] has 14
    fields; its [id], [competitor_id] and [llm_analysis_id] are each a
    UUID (five groups of 8, 4, 4, 4 and 12 lower-case hexadecimal digits
    and nothing else), [is_mentioned] is [true] or [false], the provider,
    the rank and the two scores are not empty and have no comma, and
    [analyzed_at] and [created_at] are each exactly one timestamp. *)
Theorem robust_record_shape (lines : list str) (r : record) :
  FixCompetitorCsvFinal.parse_competitor_record_robust lines = Some r →
  length r = 14
  ∧ (∀ i, i ∈ [0; 1; 2] → ∃ f, r !! i = Some f ∧ accepts uuid_items f)
  ∧ (r !! 4 = Some (lit "true") ∨ r !! 4 = Some (lit "false"))
  ∧ (∀ i, i ∈ [3; 5; 6; 7] → ∃ f, r !! i = Some f ∧ f ≠ [] ∧ "," ∉ f)
  ∧ (∀ i, i ∈ [10; 11] →
          ∃ f, r !! i = Some f ∧ accepts timestamp_pattern f).
Proof.
  unfold FixCompetitorCsvFinal.parse_competitor_record_robust.
  destruct (FixCompetitorCsvFinal.match_field uuid_items _)
    as [[id_val rem1]|] eqn:H1; [|done]. cbn [mbind option_bind].
  destruct (FixCompetitorCsvFinal.match_field uuid_items rem1)
    as [[competitor_id rem2]|] eqn:H2; [|done]. cbn [mbind option_bind].
  destruct (FixCompetitorCsvFinal.match_field uuid_items rem2)
    as [[llm_analysis_id rem3]|] eqn:H3; [|done]. cbn [mbind option_bind].
  destruct (FixCompetitorCsvFinal.match_field [not_comma1] rem3)
    as [[llm_provider rem4]|] eqn:H4; [|done]. cbn [mbind option_bind].
  destruct (FixCompetitorCsvFinal.match_boolean rem4)
    as [[is_mentioned rem5]|] eqn:H5; [|done]. cbn [mbind option_bind].
  destruct (FixCompetitorCsvFinal.match_field [not_comma1] rem5)
    as [[rank_position rem6]|] eqn:H6; [|done]. cbn [mbind option_bind].
  destruct (FixCompetitorCsvFinal.match_field [not_comma1] rem6)
    as [[sentiment_score rem7]|] eqn:H7; [|done]. cbn [mbind option_bind].
  destruct (FixCompetitorCsvFinal.match_field [not_comma1] rem7)
    as [[confidence_score rem8]|] eqn:H8; [|done]. cbn [mbind option_bind].
  destruct (last_two (finditer timestamp_pattern rem8))
    as [[analyzed_at_match created_at_match]|] eqn:Hts; [|done].
  cbn [mbind option_bind].
  destruct (split_text_span _) as [response_text summary_text].
  destruct (trailing_fields _) as [prompt_id analysis_session_id].
  intros [= <-].
  apply match_field_Some in H1 as [H1 _], H2 as [H2 _], H3 as [H3 _],
    H4 as [H4 _], H6 as [H6 _], H7 as [H7 _], H8 as [H8 _].
  apply accepts_not_comma in H4, H6, H7, H8.
  apply match_boolean_Some in H5.
  apply last_two_groups_accept in Hts as [Ha Hc].
  split; [done|]. split; [|split; [|split]].
  - intros i Hi. repeat (apply elem_of_cons in Hi as [->|Hi]; [by eexists|]).
    by apply elem_of_nil in Hi.
  - destruct H5 as [-> | ->]; [by left|by right].
  - intros i Hi. repeat (apply elem_of_cons in Hi as [->|Hi]; [by eexists|]).
    by apply elem_of_nil in Hi.
  - intros i Hi. repeat (apply elem_of_cons in Hi as [->|Hi]; [by eexists|]).
    by apply elem_of_nil in Hi.
Qed.

(** X13 at the sample competitor record. *)
Lemma robust_record_shape_witness :
  FixCompetitorCsvFinal.parse_competitor_record_robust
    [Sample.competitor_line] = Some Sample.competitor_record
  ∧ length Sample.competitor_record = 14
  ∧ (∀ i, i ∈ [0; 1; 2] →
          ∃ f, Sample.competitor_record !! i = Some f ∧ accepts uuid_items f).
Proof.
  assert (H : FixCompetitorCsvFinal.parse_competitor_record_robust
                [Sample.competitor_line] = Some Sample.competitor_record)
    by (vm_compute; reflexivity).
  split; [exact H|].
  pose proof (robust_record_shape [Sample.competitor_line]
                Sample.competitor_record H) as (Hlen & Huuid & _).
  split; [exact Hlen|exact Huuid].
Defined.

(** X14: in every record resolved by [parse_competitor_record] and by
    [parse_record_lines], [analyzed_at] and [created_at] (fields 10 and
    11) are each exactly one timestamp: date, time, a dot followed by at
    least one digit, a plus sign and two digits, and nothing else. *)
Theorem resolved_timestamps_well_formed (lines : list str) (r : record) :
  FixCompetitorCsv.parse_competitor_record lines = Some r
  ∨ CreateCleanCsv.parse_record_lines lines = Some r →
  ∃ analyzed_at created_at,
    r !! 10 = Some analyzed_at ∧ r !! 11 = Some created_at
    ∧ accepts timestamp_pattern analyzed_at
    ∧ accepts timestamp_pattern created_at.
Proof.
  intros [H|H].
  - unfold FixCompetitorCsv.parse_competitor_record in H.
    destruct (length _ <? 14); [done|].
    destruct (last_two _) as [[a c]|] eqn:Hts; [|done].
    destruct (split_text_span _) as [response_text summary_text].
    destruct (trailing_fields _) as [prompt_id analysis_session_id].
    injection H as <-. apply last_two_groups_accept in Hts as [Ha Hc].
    by eexists _, _.
  - unfold CreateCleanCsv.parse_record_lines in H.
    destruct (last_two _) as [[a c]|] eqn:Hts; [|done].
    destruct (8 <=? length _); [|done].
    destruct (split_text_span _) as [response_text summary_text].
    injection H as <-. apply last_two_groups_accept in Hts as [Ha Hc].
    by eexists _, _.
Qed.

(** X14 at the record of the scenario. *)
Lemma resolved_timestamps_well_formed_witness :
  (∃ r, CreateCleanCsv.parse_record_lines [Sample.llm_line] = Some r)
  ∧ accepts timestamp_pattern (lit "2025-01-01 00:00:00.000000+00").
Proof.
  destruct (CreateCleanCsv.parse_record_lines [Sample.llm_line])
    as [r|] eqn:H; [|by vm_compute in H].
  split; [by exists r|].
  destruct (resolved_timestamps_well_formed [Sample.llm_line] r (or_intror H))
    as (a & c & Ha & Hc & Hacc & _).
  vm_compute in H. injection H as <-. by injection Ha as <-.
Defined.

(** ** White space *)

Lemma lstrip_by_head p s c : head (lstrip_by p s) = Some c → p c = false.
Proof.
  induction s as [|x s IH]; simpl; [done|].
  destruct (p x) eqn:Hx; [done|]. simpl. by intros [= <-].
Qed.

Lemma lstrip_by_snoc p l c :
  lstrip_by p (l ++ [c]) =
  match lstrip_by p l with
  | [] => if p c then [] else [c]
  | _ :: _ => lstrip_by p l ++ [c]
  end.
Proof.
  induction l as [|x l IH]; simpl; [done|].
  destruct (p x); [done|]. done.
Qed.

Lemma rstrip_by_cons p c s :
  rstrip_by p (c :: s) =
  match rstrip_by p s with
  | [] => if p c then [] else [c]
  | _ :: _ => c :: rstrip_by p s
  end.
Proof.
  unfold rstrip_by. rewrite reverse_cons, lstrip_by_snoc.
  destruct (lstrip_by p (reverse s)) as [|x l] eqn:Hl.
  - rewrite reverse_nil. by destruct (p c).
  - rewrite reverse_app. simpl.
    destruct (reverse (x :: l)) eqn:Hrev; [|done].
    apply (f_equal length) in Hrev. rewrite length_reverse in Hrev. done.
Qed.

Lemma rstrip_by_keep p u w :
  Forall (λ c, p c = false) u → rstrip_by p (u ++ w) = u ++ rstrip_by p w.
Proof.
  induction 1 as [|c u Hc _ IH]; [done|]. simpl.
  rewrite rstrip_by_cons, IH, Hc. by destruct (u ++ rstrip_by p w).
Qed.

Lemma rstrip_by_head p s c : head (rstrip_by p s) = Some c → head s = Some c.
Proof.
  destruct s as [|x s]; [done|]. rewrite rstrip_by_cons.
  destruct (rstrip_by p s); [|done]. by destruct (p x).
Qed.

Lemma rstrip_by_last p s c : last (rstrip_by p s) = Some c → p c = false.
Proof.
  unfold rstrip_by. rewrite last_reverse. apply lstrip_by_head.
Qed.

Lemma strip_by_ends p s :
  (∀ c, head (strip_by p s) = Some c → p c = false)
  ∧ (∀ c, last (strip_by p s) = Some c → p c = false).
Proof.
  unfold strip_by. split.
  - intros c Hc. apply rstrip_by_head in Hc. by apply lstrip_by_head in Hc.
  - apply rstrip_by_last.
Qed.

Lemma strip_by_fixed p s :
  (∀ c, head s = Some c → p c = false) →
  (∀ c, last s = Some c → p c = false) → strip_by p s = s.
Proof.
  intros Hhead Hlast. unfold strip_by.
  rewrite lstrip_by_fixed by done. by apply rstrip_by_fixed.
Qed.

Lemma strip_by_keep p u w :
  u ≠ [] → Forall (λ c, p c = false) u →
  strip_by p (u ++ w) = u ++ rstrip_by p w.
Proof.
  intros Hne Hu. unfold strip_by. rewrite lstrip_by_fixed.
  - by apply rstrip_by_keep.
  - destruct u as [|c u]; [done|]. simpl. intros ? [= <-].
    by apply Forall_cons in Hu as [? _].
Qed.

Lemma sub_spaces_plain b s : plain_spaces (FixCsvSimple.sub_spaces b s).
Proof.
  revert b. induction s as [|c s IH]; intros b; simpl; [constructor|].
  destruct (isspace c) eqn:Hc.
  - apply Forall_app. split; [|apply IH].
    destruct b; repeat constructor.
  - constructor; [congruence|apply IH].
Qed.

Lemma sub_spaces_single b s :
  no_double_space (FixCsvSimple.sub_spaces b s) = true
  ∧ (b = true →
     ∀ c, head (FixCsvSimple.sub_spaces b s) = Some c → isspace c = false).
Proof.
  revert b. induction s as [|c s IH]; intros b; simpl; [done|].
  destruct (isspace c) eqn:Hc.
  - destruct (IH true) as [Hsingle Hhead]. destruct b; simpl; [by auto|].
    split; [|done].
    destruct (FixCsvSimple.sub_spaces true s) as [|d s'] eqn:Hs; [done|].
    rewrite (Hhead eq_refl d) by done. by rewrite Hsingle.
  - destruct (IH false) as [Hsingle _]. simpl. split.
    + destruct (FixCsvSimple.sub_spaces false s); [done|].
      by rewrite Hc.
    + intros _ ? [= <-]. done.
Qed.

Lemma sub_spaces_keep b u w :
  Forall (λ c, isspace c = false) u → u ≠ [] →
  FixCsvSimple.sub_spaces b (u ++ w) = u ++ FixCsvSimple.sub_spaces false w.
Proof.
  intros Hu. revert b. induction Hu as [|c u Hc Hu IH]; intros b Hne; [done|].
  simpl. rewrite Hc. f_equal. destruct u as [|d u]; [done|]. by apply IH.
Qed.

Lemma sub_spaces_last b s z :
  last s = Some z → isspace z = false →
  last (FixCsvSimple.sub_spaces b s) = Some z.
Proof.
  revert b. induction s as [|c s IH]; intros b Hlast Hz; [done|].
  destruct s as [|d s].
  - simpl in Hlast. injection Hlast as ->. simpl. by rewrite Hz.
  - assert (Hrest : last (d :: s) = Some z) by done.
    change (FixCsvSimple.sub_spaces b (c :: d :: s))
      with (if isspace c
            then (if b then [] else [" "])
                 ++ FixCsvSimple.sub_spaces true (d :: s)
            else c :: FixCsvSimple.sub_spaces false (d :: s)).
    destruct (isspace c).
    + rewrite last_app, (IH true Hrest Hz). done.
    + specialize (IH false Hrest Hz).
      destruct (FixCsvSimple.sub_spaces false (d :: s)); [done|]. done.
Qed.

Lemma sub_spaces_fixed b s :
  plain_spaces s → no_double_space s = true →
  (b = true → ∀ c, head s = Some c → isspace c = false) →
  FixCsvSimple.sub_spaces b s = s.
Proof.
  intros Hplain. revert b. induction Hplain as [|c s Hc Hplain IH];
    intros b Hsingle Hhead; [done|].
  assert (Hrest : no_double_space s = true).
  { simpl in Hsingle. destruct s; [done|].
    by apply andb_true_iff in Hsingle as [_ ?]. }
  simpl. destruct (isspace c) eqn:Hsp.
  - destruct b; [by rewrite (Hhead eq_refl c) in Hsp|].
    rewrite (Hc eq_refl). simpl. f_equal. apply IH; [done|].
    intros _ d Hd. simpl in Hsingle. destruct s as [|d' s]; [done|].
    injection Hd as ->. rewrite Hsp in Hsingle. simpl in Hsingle.
    apply andb_true_iff in Hsingle as [Hd _]. by destruct (isspace d).
  - f_equal. by apply IH.
Qed.

(** What [fix_csv_simple] writes for a record is a tidy line. *)
Lemma clean_record_tidy s : tidy (FixCsvSimple.clean_record s).
Proof.
  unfold FixCsvSimple.clean_record.
  destruct (strip_by_ends isspace s) as [Hhead Hlast]. fold (strip s) in *.
  split; [apply sub_spaces_plain|]. split; [apply sub_spaces_single|]. split.
  - destruct (strip s) as [|c t]; [done|]. simpl.
    pose proof (Hhead c eq_refl) as Hc. rewrite Hc. by intros ? [= <-].
  - intros c Hc. destruct (last (strip s)) as [z|] eqn:Hz.
    + rewrite (sub_spaces_last false (strip s) z) in Hc by auto.
      injection Hc as <-. auto.
    + apply last_None in Hz. by rewrite Hz in Hc.
Qed.

(** A tidy line is left as it is. *)
Lemma clean_record_fixed s : tidy s → FixCsvSimple.clean_record s = s.
Proof.
  intros (Hplain & Hsingle & Hhead & Hlast). unfold FixCsvSimple.clean_record.
  unfold strip. rewrite strip_by_fixed by done.
  by apply sub_spaces_fixed.
Qed.

Lemma tidy_no_line_break s : tidy s → ("010" ∉ s) ∧ ("013" ∉ s).
Proof.
  intros [Hplain _]. split; intros Hin;
    eapply Forall_forall in Hplain; try done; by specialize (Hplain eq_refl).
Qed.

(** A string that conforms to a pattern of exact items starts with a
    string of which every character is in the class of some item, and
    what follows this string does not matter. *)
Lemma conforms_prefix p s :
  conforms p s →
  ∃ u rest, s = u ++ rest
            ∧ Forall (λ c, Exists (λ it, cls it c = true) p) u
            ∧ ∀ rest', conforms p (u ++ rest').
Proof.
  revert s. induction p as [|it p IH]; intros s; simpl.
  - intros _. by exists [], s.
  - intros (g & s' & -> & Hlen & Hall & Hrest).
    destruct (IH s' Hrest) as (u & rest & -> & Hu & Hany).
    exists (g ++ u), rest. split; [by rewrite app_assoc|]. split.
    + apply Forall_app. split.
      * eapply Forall_impl; [done|]. intros c Hc. by left.
      * eapply Forall_impl; [done|]. intros c Hc. by right.
    + intros rest'. exists g, (u ++ rest'). rewrite app_assoc. by repeat split.
Qed.

Lemma uuid_pattern_not_space c :
  Exists (λ it, cls it c = true) uuid_pattern → isspace c = false.
Proof.
  assert (Hitems : Forall (λ it, ∀ c, cls it c = true → isspace c = false)
                     uuid_pattern).
  { unfold uuid_pattern, uuid_items. cbn [app].
    repeat constructor; intros c' H; cbn [cls hex chr] in H;
      first [by apply lower_hex_not_space
            |by apply Ascii.eqb_eq in H as <-]. }
  intros (it & Hit & Hc)%Exists_exists.
  eapply Forall_forall in Hitems; [|done]. by apply Hitems.
Qed.

(** The line written for a logical record starts with the identifier and
    the comma of its first line. *)
Lemma resolve_simple_record_start g :
  logical_record g → is_record_start (resolve_simple g) = true.
Proof.
  intros (h & t & -> & Hh & _).
  apply is_record_start_shape in Hh.
  destruct (conforms_prefix _ _ Hh) as (u & rest & -> & Hu & Hany).
  assert (Hns : Forall (λ c, isspace c = false) u).
  { eapply Forall_impl; [done|]. apply uuid_pattern_not_space. }
  assert (Hne : u ≠ []).
  { intros ->. specialize (Hany []). simpl in Hany.
    destruct Hany as (g & s' & Hnil & Hlen & _).
    symmetry in Hnil. apply app_eq_nil in Hnil as [-> _]. done. }
  assert (Hjoin : ∃ w, join [" "] ((u ++ rest) :: t) = u ++ w).
  { destruct t; simpl; [by exists rest|].
    eexists. by rewrite <- app_assoc. }
  destruct Hjoin as [w Hjoin].
  apply is_record_start_shape.
  unfold resolve_simple, FixCsvSimple.clean_record.
  unfold str in *. rewrite Hjoin.
  unfold strip. rewrite strip_by_keep by done.
  rewrite sub_spaces_keep by done. apply Hany.
Qed.

(** X7: every record line written by [fix_csv_simple] is tidy: the only
    white-space character in it is the plain space, never two in a row and
    never at an end, so that it has no line feed and no carriage return
    and is one physical line; and it starts with the identifier and the
    comma of the record. *)
Theorem fix_csv_simple_lines_tidy (header : str) (body : list str) :
  Forall (λ line, tidy line ∧ ("010" ∉ line) ∧ ("013" ∉ line)
                  ∧ is_record_start line = true)
    (drop 1 (from_option FixCsvSimple.fixed_lines []
               (FixCsvSimple.fix_csv_simple (header :: body)))).
Proof.
  simpl. rewrite (simple_loop_segments _ [] body); [|by left|done]. simpl.
  apply Forall_fmap, Forall_forall. intros g Hg. simpl.
  pose proof (segment_from_logical [] body (or_introl eq_refl)) as Hlog.
  eapply Forall_forall in Hlog; [|done].
  pose proof (clean_record_tidy (join [" "] g)) as Htidy.
  split; [done|]. split; [by apply tidy_no_line_break|].
  split; [by apply tidy_no_line_break|].
  by apply resolve_simple_record_start.
Qed.

(** ** Writing a file and reading it again *)

Lemma readlines_from_line cur line rest :
  "010" ∉ line → "013" ∉ line →
  File.readlines_from cur (line ++ "010" :: rest) =
  (cur ++ line ++ ["010"]) :: File.readlines_from [] rest.
Proof.
  revert cur. induction line as [|c line IH]; intros cur Hlf Hcr; simpl.
  - done.
  - apply not_elem_of_cons in Hlf as [Hlf1 Hlf], Hcr as [Hcr1 Hcr].
    destruct (decide (c = "010")); [done|].
    destruct (decide (c = "013")); [done|].
    rewrite IH by done. by rewrite <- app_assoc.
Qed.

Lemma readlines_write_lines lines :
  Forall (λ line, ("010" ∉ line) ∧ ("013" ∉ line)) lines →
  File.readlines (File.write_lines lines) = (λ line, line ++ ["010"]) <$> lines.
Proof.
  unfold File.readlines.
  induction 1 as [|line lines [Hlf Hcr] _ IH]; [done|].
  change (File.write_lines (line :: lines))
    with ((line ++ ["010"]) ++ File.write_lines lines).
  rewrite <- app_assoc.
  change (["010"] ++ File.write_lines lines)
    with ("010" :: File.write_lines lines).
  rewrite readlines_from_line by done. rewrite IH. done.
Qed.

Lemma rstrip_newline_written line :
  (∀ c, last line = Some c → isspace c = false) →
  rstrip_newline (line ++ ["010"]) = line.
Proof.
  intros Hlast. unfold rstrip_newline, rstrip_chars.
  rewrite rstrip_by_snoc by done. apply rstrip_by_fixed.
  intros c Hc. specialize (Hlast c Hc).
  unfold char_in. apply bool_decide_eq_false. intros Hin.
  repeat (apply elem_of_cons in Hin as [->|Hin]; [done|]).
  by apply elem_of_nil in Hin.
Qed.

Lemma strip_written line :
  (∀ c, head line = Some c → isspace c = false) →
  (∀ c, last line = Some c → isspace c = false) →
  strip (line ++ ["010"]) = line.
Proof.
  intros Hhead Hlast. unfold strip, strip_by.
  destruct line as [|c line]; [done|].
  rewrite lstrip_by_fixed.
  - rewrite rstrip_by_snoc by done. by apply rstrip_by_fixed.
  - simpl. intros ? [= <-]. by apply Hhead.
Qed.

(** When every line starts a record, every line is a group. *)
Lemma segment_from_singletons cur body :
  Forall (λ raw, is_record_start (rstrip_newline raw) = true) body →
  segment_from cur body =
  flushed cur ++ ((λ raw, [rstrip_newline raw]) <$> body).
Proof.
  intros Hall. revert cur.
  induction Hall as [|raw body Hraw _ IH]; intros cur; simpl.
  - by rewrite app_nil_r.
  - rewrite Hraw, IH. done.
Qed.

Lemma omap_fmap_compose {A B C} (f : B → option C) (g : A → B) (l : list A) :
  omap f (g <$> l) = omap (λ x, f (g x)) l.
Proof.
  induction l as [|x l IH]; [done|].
  change (omap f (g <$> x :: l))
    with (match f (g x) with
          | Some y => y :: omap f (g <$> l)
          | None => omap f (g <$> l)
          end).
  by rewrite IH.
Qed.

(** The file written by [fix_csv_simple], as the next script reads it:
    the stripped header and one line for each logical record. *)
Lemma simple_output_read_back header body :
  "010" ∉ strip header → "013" ∉ strip header →
  File.readlines
    (File.write_lines
       (from_option FixCsvSimple.fixed_lines []
          (FixCsvSimple.fix_csv_simple (header :: body)))) =
  (strip header ++ ["010"])
  :: ((λ g, resolve_simple g ++ ["010"]) <$> segment_records body)
  ∧ Forall (λ raw, is_record_start (rstrip_newline raw) = true
                   ∧ ∃ g, raw = resolve_simple g ++ ["010"]
                          ∧ rstrip_newline raw = resolve_simple g
                          ∧ tidy (resolve_simple g))
      ((λ g, resolve_simple g ++ ["010"]) <$> segment_records body).
Proof.
  intros Hlf Hcr.
  pose proof (fix_csv_simple_lines_tidy header body) as Htidy.
  simpl in *. rewrite (simple_loop_segments _ [] body) in *;
    [|by left|done|by left|done].
  simpl in *. split.
  - rewrite readlines_write_lines.
    + simpl. by rewrite <- list_fmap_compose.
    + constructor; [done|]. eapply Forall_impl; [done|].
      by intros line (_ & ? & ? & _).
  - apply Forall_fmap, Forall_forall. intros g Hg. simpl.
    apply Forall_fmap in Htidy. eapply Forall_forall in Htidy; [|done].
    simpl in Htidy. destruct Htidy as (Ht & _ & _ & Hstart).
    assert (Hstrip : rstrip_newline (resolve_simple g ++ ["010"]) =
                     resolve_simple g).
    { apply rstrip_newline_written. apply Ht. }
    rewrite Hstrip. split; [done|]. by exists g.
Qed.

(** X19: the two scripts in a row.  [fix_csv_final] reads the file that
    [fix_csv_simple] writes; when the header has no line break inside, it
    finds in this file one logical record for each logical record of the
    original input, and what it writes is the result of its resolver on
    the one cleaned line that [fix_csv_simple] made of each of them. *)
Theorem simple_then_final (header : str) (body : list str) :
  "010" ∉ strip header → "013" ∉ strip header →
  let written :=
    from_option FixCsvSimple.fixed_lines []
      (FixCsvSimple.fix_csv_simple (header :: body)) in
  FixCsvFinal.records <$>
    FixCsvFinal.fix_csv_final (File.readlines (File.write_lines written)) =
  Some (omap (λ g, resolve_final [resolve_simple g]) (segment_records body)).
Proof.
  intros Hlf Hcr written.
  destruct (simple_output_read_back header body Hlf Hcr) as [Hread Hlines].
  unfold written. rewrite Hread. simpl. f_equal.
  rewrite (final_loop_segments FixCsvFinal.init). simpl.
  rewrite segment_from_singletons.
  - simpl. rewrite <- list_fmap_compose, omap_fmap_compose.
    apply list_omap_ext. apply Forall2_same_length_lookup_2; [done|].
    intros i g g' Hg Hg'. rewrite Hg in Hg'. injection Hg' as <-. simpl.
    eapply Forall_lookup_1 in Hlines;
      [|by rewrite list_lookup_fmap, Hg].
    destruct Hlines as (_ & g0 & Hraw & Hstrip & _).
    apply app_inj_tail in Hraw as [Hraw _]. by rewrite Hstrip, Hraw.
  - eapply Forall_impl; [done|]. by intros raw [? _].
Qed.

(** X20: [fix_csv_simple] is idempotent.  Run on the file that it wrote,
    it writes the same lines again (when the header has no line break
    inside). *)
Theorem fix_csv_simple_idempotent (header : str) (body : list str) :
  "010" ∉ strip header → "013" ∉ strip header →
  let written :=
    from_option FixCsvSimple.fixed_lines []
      (FixCsvSimple.fix_csv_simple (header :: body)) in
  FixCsvSimple.fixed_lines <$>
    FixCsvSimple.fix_csv_simple (File.readlines (File.write_lines written)) =
  Some written.
Proof.
  intros Hlf Hcr written.
  destruct (simple_output_read_back header body Hlf Hcr) as [Hread Hlines].
  unfold written. rewrite Hread. simpl. f_equal.
  rewrite !(simple_loop_segments _ [] _); [|by left|done|by left|done].
  simpl. f_equal.
  - destruct (strip_by_ends isspace header) as [Hhead Hlast].
    by apply strip_written.
  - rewrite segment_from_singletons.
    + simpl. rewrite <- !list_fmap_compose.
      apply list_fmap_ext. intros i g Hg. simpl.
      unfold segment_records in Hlines.
      eapply Forall_lookup_1 in Hlines;
        [|by rewrite list_lookup_fmap, Hg].
      destruct Hlines as (_ & g0 & Hraw & Hstrip & Htidy).
      apply app_inj_tail in Hraw as [Hraw _]. rewrite Hstrip.
      unfold resolve_simple at 1. simpl. rewrite Hraw in *.
      by apply clean_record_fixed.
    + eapply Forall_impl; [done|]. by intros raw [? _].
Qed.

(** X19 on the record of the scenario broken in two lines. *)
Lemma simple_then_final_witness :
  (("010" ∉ strip Sample.broken_header) ∧ ("013" ∉ strip Sample.broken_header))
  ∧ FixCsvFinal.records <$>
      FixCsvFinal.fix_csv_final
        (File.readlines
           (File.write_lines
              (from_option FixCsvSimple.fixed_lines []
                 (FixCsvSimple.fix_csv_simple
                    (Sample.broken_header :: Sample.broken_body))))) =
    Some (omap (λ g, resolve_final [resolve_simple g])
            (segment_records Sample.broken_body)).
Proof.
  assert (H1 : "010" ∉ strip Sample.broken_header)
    by (apply (bool_decide_unpack _); vm_compute; exact I).
  assert (H2 : "013" ∉ strip Sample.broken_header)
    by (apply (bool_decide_unpack _); vm_compute; exact I).
  split; [done|].
  exact (simple_then_final Sample.broken_header Sample.broken_body H1 H2).
Defined.

(** X20 on the same file. *)
Lemma fix_csv_simple_idempotent_witness :
  (("010" ∉ strip Sample.broken_header) ∧ ("013" ∉ strip Sample.broken_header))
  ∧ FixCsvSimple.fixed_lines <$>
      FixCsvSimple.fix_csv_simple
        (File.readlines
           (File.write_lines
              (from_option FixCsvSimple.fixed_lines []
                 (FixCsvSimple.fix_csv_simple
                    (Sample.broken_header :: Sample.broken_body))))) =
    Some (from_option FixCsvSimple.fixed_lines []
            (FixCsvSimple.fix_csv_simple
               (Sample.broken_header :: Sample.broken_body))).
Proof.
  assert (H1 : "010" ∉ strip Sample.broken_header)
    by (apply (bool_decide_unpack _); vm_compute; exact I).
  assert (H2 : "013" ∉ strip Sample.broken_header)
    by (apply (bool_decide_unpack _); vm_compute; exact I).
  split; [done|].
  exact (fix_csv_simple_idempotent Sample.broken_header Sample.broken_body
           H1 H2).
Defined.

(** ** The valid parent identifiers *)

Import ValidIds.

Lemma str_leb_total a b : str_leb a b = true ∨ str_leb b a = true.
Proof.
  revert b. induction a as [|x a IH]; intros [|y b]; simpl; auto.
  rewrite (Ascii.compare_antisym y x).
  destruct (Ascii.compare x y); simpl; auto.
Qed.

Lemma ascii_compare_Lt_trans x y z :
  Ascii.compare x y = Lt → Ascii.compare y z = Lt → Ascii.compare x z = Lt.
Proof.
  unfold Ascii.compare. rewrite !N.compare_lt_iff. lia.
Qed.

Lemma str_leb_trans a b c :
  str_leb a b = true → str_leb b c = true → str_leb a c = true.
Proof.
  revert b c. induction a as [|x a IH]; intros [|y b] [|z c]; simpl; try done.
  destruct (Ascii.compare x y) eqn:Hxy; [| |done].
  - apply Ascii.compare_eq_iff in Hxy as ->.
    destruct (Ascii.compare y z); [apply IH|done|done].
  - intros _. destruct (Ascii.compare y z) eqn:Hyz; [| |done].
    + apply Ascii.compare_eq_iff in Hyz as ->. by rewrite Hxy.
    + by rewrite (ascii_compare_Lt_trans x y z).
Qed.

Global Instance str_le_total : Total str_le.
Proof. intros a b. apply str_leb_total. Qed.

Global Instance str_le_trans : Transitive str_le.
Proof. intros a b c. apply str_leb_trans. Qed.

Lemma accepts_exact_conforms p s :
  Forall exact p → accepts p s → conforms p s ∧ length s = sum_list (lo <$> p).
Proof.
  intros Hp. revert s. induction Hp as [|it p Hit Hp IH]; intros s; simpl.
  - by intros ->.
  - intros (g & s' & -> & Hlo & Hhi & Hall & Hrest).
    destruct (IH s' Hrest) as [Hconf Hlen].
    specialize (Hhi (lo it) Hit). split.
    + exists g, s'. repeat split; [lia|done|done].
    + change (list_fmap item nat lo p) with (lo <$> p).
      rewrite length_app. lia.
Qed.

Lemma accepts_chars p s :
  accepts p s → Forall (λ c, Exists (λ it, cls it c = true) p) s.
Proof.
  revert s. induction p as [|it p IH]; intros s; simpl.
  - by intros ->.
  - intros (g & s' & -> & _ & _ & Hall & Hrest). apply Forall_app. split.
    + eapply Forall_impl; [done|]. intros c Hc. by left.
    + eapply Forall_impl; [by apply IH|]. intros c Hc. by right.
Qed.

Lemma uuid_items_not_space c :
  Exists (λ it, cls it c = true) uuid_items → isspace c = false.
Proof.
  intros H. apply uuid_pattern_not_space. unfold uuid_pattern.
  apply Exists_app. by left.
Qed.

(** What is known of an identifier that the UUID pattern accepts. *)
Lemma uuid_facts id :
  accepts uuid_items id →
  length id = 36
  ∧ Forall (λ c, isspace c = false) id
  ∧ is_uuid_line id = true
  ∧ strip (id ++ ["010"]) = id.
Proof.
  intros Hacc.
  assert (Hexact : Forall exact uuid_items) by (repeat constructor).
  destruct (accepts_exact_conforms _ _ Hexact Hacc) as [Hconf Hlen].
  simpl in Hlen.
  assert (Hns : Forall (λ c, isspace c = false) id).
  { eapply Forall_impl; [by apply accepts_chars|].
    apply uuid_items_not_space. }
  split; [done|]. split; [done|]. split.
  - unfold is_uuid_line.
    destruct (match_items uuid_items id) as [n|] eqn:Hm.
    + apply match_items_sound in Hm as [Hn Hacc'].
      destruct (accepts_exact_conforms _ _ Hexact Hacc') as [_ Hlen'].
      rewrite length_take in Hlen'. simpl in Hlen'.
      apply bool_decide_eq_true. left. apply drop_ge. lia.
    + apply (match_items_exact uuid_items id Hexact) in Hconf.
      rewrite Hm in Hconf. by destruct Hconf.
  - apply strip_written.
    + intros c Hc. destruct id as [|c' id]; [done|]. injection Hc as ->.
      by apply Forall_cons in Hns as [? _].
    + intros c Hc. apply last_Some in Hc as [l' ->].
      apply Forall_app in Hns as [_ Hns].
      by apply Forall_cons in Hns as [? _].
Qed.

Lemma leading_id_accepts line id :
  leading_id line = Some id →
  accepts uuid_items id ∧ ∃ rest, line = id ++ "," :: rest.
Proof.
  unfold leading_id.
  destruct (FixCompetitorCsvFinal.match_field uuid_items line)
    as [[f rest]|] eqn:Hm; [|done].
  intros [= <-]. apply match_field_Some in Hm as [? ?]. eauto.
Qed.

Lemma extract_llm_ids_accepts llm_lines id :
  id ∈ extract_llm_ids llm_lines → accepts uuid_items id.
Proof.
  unfold extract_llm_ids. rewrite elem_of_list_to_set, list_elem_of_omap.
  intros (line & _ & Hline).
  destruct (startswith (lit "id,") line); [done|].
  by apply leading_id_accepts in Hline as [? _].
Qed.

(** A line that starts with the name of the parent column does not start
    with a UUID: its first character is no hexadecimal digit. *)
Lemma header_has_no_leading_id line :
  startswith (lit "llm_analysis_id") line = true → leading_id line = None.
Proof.
  intros Hstart.
  destruct (leading_id line) as [id|] eqn:Hid; [|done]. exfalso.
  apply leading_id_accepts in Hid as [Hacc [rest ->]].
  destruct (uuid_facts id Hacc) as (Hlen & _ & _ & _).
  destruct id as [|c id]; [done|].
  cbn in Hstart. apply andb_true_iff in Hstart as [Hc _].
  apply bool_decide_eq_true in Hc as <-.
  cbn [accepts uuid_items] in Hacc.
  destruct Hacc as (g & s' & Hsplit & Hlo & _ & Hall' & _).
  destruct g as [|c g]; [cbn in Hlo; lia|].
  injection Hsplit as <- _. by apply Forall_cons in Hall' as [? _].
Qed.

(** X18: the identifier file and its two uses.  [extract_llm_ids] writes
    each identifier found at the start of a line of the LLM file once, in
    increasing order, and every one of them is a UUID.  The identifiers
    that [fix_competitor_csv] reads back from this file are exactly the
    identifiers extracted, and they are also exactly the identifiers that
    it takes from the LLM file itself when the identifier file is
    missing. *)
Theorem valid_ids_round_trip (llm_lines : list str) :
  let ids := extract_llm_ids llm_lines in
  load_valid_ids (File.readlines (id_file ids)) = ids
  ∧ fallback_ids llm_lines = ids
  ∧ StronglySorted str_le (sorted ids)
  ∧ NoDup (sorted ids)
  ∧ Forall (λ id, accepts uuid_items id ∧ length id = 36) (sorted ids).
Proof.
  intros ids.
  assert (Hperm : sorted ids ≡ₚ elements ids) by apply merge_sort_Permutation.
  assert (Hin : ∀ id, id ∈ sorted ids ↔ id ∈ ids).
  { intros id. by rewrite Hperm, elem_of_elements. }
  assert (Hall : Forall (λ id, accepts uuid_items id ∧ length id = 36)
                   (sorted ids)).
  { apply Forall_forall. intros id Hid%Hin.
    apply extract_llm_ids_accepts in Hid.
    split; [done|]. by apply uuid_facts. }
  split; [|split; [|split; [|split]]];
    [| |apply StronglySorted_merge_sort; apply _| |done].
  - unfold id_file. rewrite readlines_write_lines.
    + unfold load_valid_ids. rewrite <- list_fmap_compose.
      apply set_eq. intros id.
      rewrite elem_of_list_to_set, list_elem_of_filter, list_elem_of_fmap.
      split.
      * intros (_ & id' & -> & Hid'). simpl.
        eapply Forall_forall in Hall; [|done]. destruct Hall as [Hacc _].
        apply uuid_facts in Hacc as (_ & _ & _ & ->). by apply Hin.
      * intros Hid. apply Hin in Hid.
        eapply Forall_forall in Hall as Hacc; [|done].
        destruct Hacc as [Hacc _].
        apply uuid_facts in Hacc as (_ & _ & Hline & Hstrip).
        split; [done|]. exists id. by rewrite <- Hstrip at 1.
    + eapply Forall_impl; [done|]. intros id [Hacc _].
      apply uuid_facts in Hacc as (_ & Hns & _ & _).
      split; intros Hbad; eapply Forall_forall in Hns; try done;
        vm_compute in Hns; discriminate.
  - unfold ids, fallback_ids, extract_llm_ids. f_equal.
    apply list_omap_ext, Forall2_same_length_lookup_2; [done|].
    intros i line line' Hl Hl'. rewrite Hl in Hl'. injection Hl' as <-.
    destruct (startswith (lit "id,") line); [done|]. cbn [orb].
    destruct (startswith (lit "llm_analysis_id") line) eqn:Hstart; [|done].
    symmetry. by apply header_has_no_leading_id.
  - rewrite Hperm. apply NoDup_elements.
Qed.

(** ** The fields written by fix_competitor_csv_final.py *)

Lemma replace_nil_no_char c s : c ∉ replace c [] s.
Proof.
  induction s as [|x s IH]; simpl; [apply not_elem_of_nil|].
  destruct (decide (x = c)) as [->|Hne]; [done|].
  simpl. apply not_elem_of_cons. split; [congruence|done].
Qed.

Lemma replace_nil_plain c s : plain_spaces s → plain_spaces (replace c [] s).
Proof.
  unfold plain_spaces. induction 1 as [|x s Hx Hs IH]; simpl; [constructor|].
  destruct (decide (x = c)); [done|]. by constructor.
Qed.

Lemma elem_of_lstrip_by p s x : x ∈ lstrip_by p s → x ∈ s.
Proof.
  induction s as [|c s IH]; simpl; [done|].
  destruct (p c); [|done]. intros Hin. right. by apply IH.
Qed.

Lemma elem_of_strip_by p s x : x ∈ strip_by p s → x ∈ s.
Proof.
  unfold strip_by, rstrip_by. rewrite elem_of_reverse.
  intros Hin%elem_of_lstrip_by. rewrite elem_of_reverse in Hin.
  by apply elem_of_lstrip_by in Hin.
Qed.

Lemma elem_of_sub_spaces b s x :
  x ∈ FixCsvSimple.sub_spaces b s → x = " " ∨ x ∈ s.
Proof.
  revert b. induction s as [|c s IH]; intros b; simpl.
  - by intros ?%elem_of_nil.
  - destruct (isspace c).
    + rewrite elem_of_app. intros [Hin|Hin].
      * destruct b; [by apply elem_of_nil in Hin|].
        apply list_elem_of_singleton in Hin. by left.
      * apply IH in Hin as [?|?]; [by left|right; by right].
    + intros [->|Hin]%elem_of_cons; [right; by left|].
      apply IH in Hin as [?|?]; [by left|right; by right].
Qed.

Lemma clean_record_subset s x :
  x ∈ FixCsvSimple.clean_record s → x ≠ " " → x ∈ s.
Proof.
  unfold FixCsvSimple.clean_record.
  intros [->|Hin]%elem_of_sub_spaces Hne; [done|].
  by apply elem_of_strip_by in Hin.
Qed.

(** X17: the cleaning of a field before [writer.writerow] in
    fix_competitor_csv_final.py.  After [re.sub(r'\s+', ' ', field.strip())]
    the field has no carriage return and no line feed, so that of the three
    [replace] calls only the removal of NUL characters can change it: the
    cleaned field is the tidy field without its NUL characters.  It has no
    NUL character and no white space other than the plain space, and a row
    keeps its number of fields.  As the NUL characters are removed after
    the runs of white space have been collapsed, the cleaned field may
    still have two spaces in a row. *)
Theorem cleaned_field_spec (field : str) (record : list str) :
  FixCompetitorCsvFinalWriter.cleaned_field field
    = replace "000" [] (FixCsvSimple.clean_record field)
  ∧ Forall (λ c, c ≠ "000" ∧ (isspace c = true → c = " "))
      (FixCompetitorCsvFinalWriter.cleaned_field field)
  ∧ length (FixCompetitorCsvFinalWriter.cleaned_record record) = length record
  ∧ no_double_space
      (FixCompetitorCsvFinalWriter.cleaned_field (lit "a " ++ "000" :: lit " b"))
    = false.
Proof.
  assert (Heq : FixCompetitorCsvFinalWriter.cleaned_field field
                = replace "000" [] (FixCsvSimple.clean_record field)).
  { unfold FixCompetitorCsvFinalWriter.cleaned_field.
    fold (FixCsvSimple.clean_record field).
    pose proof (clean_record_tidy field) as [Hplain _].
    apply (replace_nil_plain "000") in Hplain.
    assert (Hcr : "013" ∉ replace "000" [] (FixCsvSimple.clean_record field)).
    { intros Hin. eapply Forall_forall in Hplain; [|done].
      by specialize (Hplain eq_refl). }
    rewrite (replace_absent "013") by done.
    apply replace_absent. intros Hin.
    eapply Forall_forall in Hplain; [|done]. by specialize (Hplain eq_refl). }
  split; [done|]. split; [|split].
  - rewrite Heq. apply Forall_forall. intros c Hc. split.
    + intros ->. by apply replace_nil_no_char in Hc.
    + pose proof (clean_record_tidy field) as [Hplain _].
      apply (replace_nil_plain "000") in Hplain.
      by eapply Forall_forall in Hplain.
  - unfold FixCompetitorCsvFinalWriter.cleaned_record. apply length_fmap.
  - vm_compute. reflexivity.
Qed.

(** X15: a field without NUL characters is written tidy: its white space
    is made of single plain spaces between other characters, and cleaning
    it a second time changes nothing. *)
Theorem cleaned_field_tidy (field : str) :
  "000" ∉ field →
  tidy (FixCompetitorCsvFinalWriter.cleaned_field field)
  ∧ FixCompetitorCsvFinalWriter.cleaned_field
      (FixCompetitorCsvFinalWriter.cleaned_field field)
    = FixCompetitorCsvFinalWriter.cleaned_field field.
Proof.
  intros Hnul.
  assert (Hclean : ∀ s, "000" ∉ s →
            FixCompetitorCsvFinalWriter.cleaned_field s
            = FixCsvSimple.clean_record s ∧ "000" ∉ FixCsvSimple.clean_record s).
  { intros s Hs.
    assert (Hout : "000" ∉ FixCsvSimple.clean_record s).
    { intros Hin. apply Hs. by apply clean_record_subset in Hin. }
    split; [|done].
    unfold FixCompetitorCsvFinalWriter.cleaned_field.
    fold (FixCsvSimple.clean_record s).
    pose proof (clean_record_tidy s) as Htidy.
    apply tidy_no_line_break in Htidy as [Hlf Hcr].
    rewrite (replace_absent "000") by done.
    rewrite (replace_absent "013") by done.
    by apply replace_absent. }
  destruct (Hclean field Hnul) as [-> Hout].
  split; [apply clean_record_tidy|].
  destruct (Hclean _ Hout) as [-> _].
  apply clean_record_fixed, clean_record_tidy.
Qed.

Lemma cleaned_field_tidy_witness :
  tidy (FixCompetitorCsvFinalWriter.cleaned_field (lit "  a   b "))
  ∧ FixCompetitorCsvFinalWriter.cleaned_field
      (FixCompetitorCsvFinalWriter.cleaned_field (lit "  a   b "))
    = FixCompetitorCsvFinalWriter.cleaned_field (lit "  a   b ").
Proof.
  apply (cleaned_field_tidy (lit "  a   b ")).
  vm_compute. intros Hin. repeat (apply elem_of_cons in Hin as [Hin|Hin]; [discriminate|]).
  by apply elem_of_nil in Hin.
Defined.

(** ** The counters of fix_competitor_csv.py and the records of the file *)

(** X16: what the counters of [fix_competitor_csv] count.  The file is cut
    into its records, one for each record-start line.  [total_processed]
    is the number of records that the parser resolves to 14 fields, and
    [malformed_records] is the number of the other records without the
    final record of the file: the code that treats the final record has
    no [else] branch, so that a malformed final record is counted
    nowhere.  Hence the counters printed in the report add up to the
    number of records of the file, or to one less. *)
Theorem competitor_counters_count_records (ids : gset str) (header : str)
    (body : list str) :
  let st := FixCompetitorCsv.fix_competitor_csv ids (header :: body) in
  let groups := segment_records body in
  let counted :=
    FixCompetitorCsv.total_processed st + FixCompetitorCsv.malformed_records st in
  FixCompetitorCsv.total_processed st = length (List.filter well_shaped groups)
  ∧ FixCompetitorCsv.malformed_records st =
    length (List.filter (λ g, negb (well_shaped g)) (removelast groups))
  ∧ counted ≤ length groups ≤ S counted
  ∧ (counted = length groups ↔ from_option well_shaped true (last groups) = true).
Proof.
  intros st groups counted.
  destruct (competitor_counts_invariant ids FixCompetitorCsv.init body)
    as [Ht Hm].
  change (FixCompetitorCsv.total_processed st
          = 0 + length (List.filter well_shaped groups)) in Ht.
  change (FixCompetitorCsv.malformed_records st
          = 0 + length (List.filter (λ g, negb (well_shaped g))
                          (removelast groups))) in Hm.
  split; [done|]. split; [done|].
  unfold counted. rewrite Ht, Hm. clear.
  assert (Hparts : ∀ l : list (list str),
            length (List.filter well_shaped l)
            + length (List.filter (λ g, negb (well_shaped g)) l) = length l).
  { induction l as [|g l IH]; simpl; [done|].
    destruct (well_shaped g); simpl; lia. }
  induction groups as [|g l _] using rev_ind; [simpl; split; [lia|done]|].
  rewrite removelast_last, last_snoc, List.filter_app, !length_app.
  specialize (Hparts l). simpl.
  destruct (well_shaped g); simpl; split; try lia; split; (done || lia).
Qed.

(** ** The sample of create_competitor_sample.py *)

Lemma load_step_invariant acc raw :
  let acc' := CreateCompetitorSample.load_step acc raw in
  size acc.1 ≤ CreateCompetitorSample.sample_limit →
  (acc.2 = false → size acc.1 < CreateCompetitorSample.sample_limit) →
  size acc'.1 ≤ CreateCompetitorSample.sample_limit
  ∧ (acc'.2 = false → size acc'.1 < CreateCompetitorSample.sample_limit)
  ∧ acc'.1 ⊆ acc.1 ∪ load_valid_ids [raw].
Proof.
  destruct acc as [ids stopped]. unfold CreateCompetitorSample.load_step.
  cbn [fst snd]. intros Hle Hlt.
  destruct stopped; [split; [done|]; split; [done|apply union_subseteq_l]|].
  specialize (Hlt eq_refl).
  destruct (is_uuid_line (strip raw)) eqn:Hline;
    [|split; [done|]; split; [done|apply union_subseteq_l]].
  cbn [fst snd].
  assert (Hsize : size ({[strip raw]} ∪ ids) ≤ S (size ids)).
  { rewrite size_union_alt, size_singleton.
    assert (Hsub : ids ∖ {[strip raw]} ⊆ ids)
      by by apply subseteq_difference_l.
    apply subseteq_size in Hsub. lia. }
  split; [lia|]. split.
  - intros Hstop. by apply bool_decide_eq_false in Hstop; lia.
  - unfold load_valid_ids. cbn [fmap list_fmap].
    rewrite filter_cons_True by done. cbn [list_to_set].
    intros x. rewrite !elem_of_union. tauto.
Qed.

Lemma load_sample_ids_invariant acc id_lines :
  let acc' := foldl CreateCompetitorSample.load_step acc id_lines in
  size acc.1 ≤ CreateCompetitorSample.sample_limit →
  (acc.2 = false → size acc.1 < CreateCompetitorSample.sample_limit) →
  size acc'.1 ≤ CreateCompetitorSample.sample_limit
  ∧ acc'.1 ⊆ acc.1 ∪ load_valid_ids id_lines.
Proof.
  revert acc. induction id_lines as [|raw id_lines IH]; intros acc; simpl.
  - intros Hle _. split; [done|apply union_subseteq_l].
  - intros Hle Hlt.
    destruct (load_step_invariant acc raw Hle Hlt) as (Hle' & Hlt' & Hsub).
    destruct (IH _ Hle' Hlt') as [Hsize Hincl]. split; [done|].
    assert (Hcons : load_valid_ids (raw :: id_lines)
                    = load_valid_ids [raw] ∪ load_valid_ids id_lines).
    { unfold load_valid_ids.
      change (strip <$> raw :: id_lines)
        with ([strip raw] ++ (strip <$> id_lines)).
      rewrite filter_app, list_to_set_app_L. done. }
    rewrite Hcons. intros x Hx.
    apply Hincl, elem_of_union in Hx as [Hx|Hx].
    + apply Hsub, elem_of_union in Hx as [Hx|Hx]; rewrite !elem_of_union; auto.
    + rewrite !elem_of_union; auto.
Qed.

Lemma sample_previous_invariant ids st :
  sample_invariant ids st →
  CreateCompetitorSample.stopped st = false →
  sample_invariant ids (CreateCompetitorSample.process_previous ids st).
Proof.
  intros (Hle & Hlt & Hall) Hrun. specialize (Hlt Hrun).
  unfold CreateCompetitorSample.process_previous.
  destruct (CreateCompetitorSample.current_record st) as [|c cur]; [done|].
  destruct (decide (3 ≤ _)) as [Hparts|]; [|done].
  destruct (decide (_ ∈ ids)) as [Hin|]; [|done].
  unfold sample_invariant.
  cbn [CreateCompetitorSample.sample_records CreateCompetitorSample.stopped].
  rewrite length_app. cbn [length]. split; [lia|]. split.
  - intros Hstop. apply bool_decide_eq_false in Hstop.
    cbn [length] in Hstop. lia.
  - apply Forall_app. split; [done|]. constructor; [|constructor].
    split; [done|]. split; [done|]. done.
Qed.

Lemma sample_step_invariant ids st raw :
  sample_invariant ids st →
  sample_invariant ids (CreateCompetitorSample.step ids st raw).
Proof.
  intros Hinv. unfold CreateCompetitorSample.step.
  destruct (CreateCompetitorSample.stopped st) eqn:Hrun; [done|].
  destruct (is_record_start (rstrip_newline raw)).
  - apply sample_previous_invariant in Hinv as Hinv'; [|done].
    destruct (CreateCompetitorSample.stopped
                (CreateCompetitorSample.process_previous ids st)) eqn:Hstop;
      [done|].
    destruct Hinv' as (Hle & Hlt & Hall). split; [done|]. split; [|done].
    intros _. by apply Hlt.
  - destruct Hinv as (Hle & Hlt & Hall). split; [done|]. split; [|done].
    intros _. by apply Hlt.
Qed.

Lemma sample_loop_invariant ids st body :
  sample_invariant ids st →
  sample_invariant ids (foldl (CreateCompetitorSample.step ids) st body).
Proof.
  revert st. induction body as [|raw body IH]; intros st Hinv; [done|].
  simpl. by apply IH, sample_step_invariant.
Qed.

(** X21: the sample of [create_sample].  At most 100 identifiers are
    loaded, each of them an identifier that [fix_competitor_csv] would
    load from the same file.  At most 100 sample records are made; each
    has 14 fields, its [llm_analysis_id] (field 2) is one of the loaded
    identifiers, and its fields from [is_mentioned] on are the fixed
    texts of the script. *)
Theorem sample_records_shape (id_lines : list str) (ids : gset str)
    (lines : list str) :
  let st := CreateCompetitorSample.create_sample ids lines in
  size (CreateCompetitorSample.load_sample_ids id_lines) ≤ 100
  ∧ CreateCompetitorSample.load_sample_ids id_lines ⊆ load_valid_ids id_lines
  ∧ length (CreateCompetitorSample.sample_records st) ≤ 100
  ∧ Forall (λ r, length r = 14
                 ∧ default [] (r !! 2) ∈ ids
                 ∧ drop 4 r =
                   [lit "false"; lit "0"; lit "0.00"; lit "0.95";
                    lit "Sample response text for testing";
                    lit "Sample summary text for testing";
                    lit "2025-09-17 12:00:00.000000+00";
                    lit "2025-09-17 12:00:00.000000+00"; []; []])
      (CreateCompetitorSample.sample_records st).
Proof.
  intros st.
  destruct (load_sample_ids_invariant (∅, false) id_lines) as [Hsize Hsub].
  { cbn [fst]. rewrite size_empty. unfold CreateCompetitorSample.sample_limit. lia. }
  { intros _. cbn [fst]. rewrite size_empty.
    unfold CreateCompetitorSample.sample_limit. lia. }
  split; [done|]. split.
  { intros x Hx. apply Hsub, elem_of_union in Hx as [Hx|Hx]; [|done].
    by apply elem_of_empty in Hx. }
  assert (Hinit : sample_invariant ids CreateCompetitorSample.init).
  { split; [|split]; [| |constructor];
      cbn; unfold CreateCompetitorSample.sample_limit; lia. }
  destruct (sample_loop_invariant ids _ (drop 1 lines) Hinit)
    as (Hle & _ & Hall).
  split; [done|done].
Qed.



